(** * Guanabana grammar builder: a shallow embedding of package [grammar]

    The development follows the Go sources of the repository:
    - the grammar model (types [Symbol], [Grammar], [Rule], ...),
    - [internal/grammar/builder.go] (the [Builder] and its operations),
    - the parser-facing event sink [BuilderSink],
    - the validator [Builder.Finalize].

    Go objects that are shared through pointers ([*Symbol]) live in an
    explicit store; a pointer is an address in that store and [None] is
    Go's [nil]. *)

From Stdlib Require Import ZArith Lia String Ascii.
From stdpp Require Import base option list relations gmap strings.

Open Scope Z_scope.

(** ** Strings

    A Go string is modelled by the sequence of its runes (code points), which
    is what [strings.TrimSpace] and [for _, r := range name] observe of a
    valid UTF-8 string. Format strings of diagnostics stay Rocq strings. *)

Abbreviation rune := Z (only parsing).
Abbreviation gostring := (list Z) (only parsing).

(** The runes of an ASCII literal. *)
Definition runes (s : string) : gostring :=
  (fun a => Z.of_nat (nat_of_ascii a)) <$> list_ascii_of_string s.

(** [unicode.IsSpace]: the Latin-1 switch, then the White_Space table. *)
Definition IsSpace (r : rune) : bool :=
  if decide (0 <= r <= 255) then
    bool_decide (r = 9 \/ r = 10 \/ r = 11 \/ r = 12 \/ r = 13 \/ r = 32
                 \/ r = 133 \/ r = 160)
  else
    bool_decide (r = 5760 \/ 8192 <= r <= 8202 \/ r = 8232 \/ r = 8233
                 \/ r = 8239 \/ r = 8287 \/ r = 12288).

Fixpoint TrimLeft (s : gostring) : gostring :=
  match s with
  | [] => []
  | r :: s' => if IsSpace r then TrimLeft s' else s
  end.

Definition TrimRight (s : gostring) : gostring :=
  reverse (TrimLeft (reverse s)).

(** [strings.TrimSpace]: leading and trailing white space removed. *)
Definition TrimSpace (s : gostring) : gostring := TrimRight (TrimLeft s).

(** ** Machine integers

    Go's [int] is 64 bits wide on the supported platforms; [++] wraps. *)
Definition wrapInt (z : Z) : Z := (z + 2 ^ 63) mod 2 ^ 64 - 2 ^ 63.

(** ** The grammar model

    Field names that would clash in Rocq carry a prefix: [GName] is
    [Grammar.Name]; [RefAt], [ActionAt], [AltAt] and [RuleAt] are the [At]
    fields of [SymbolRef], [Action], [Alternative] and [Rule]; [AltAction] is
    [Alternative.Action]. A [*Symbol] is an address ([None] for [nil]);
    slices of pointers that the builder fills keep their [nil] case as
    [option]. *)

Abbreviation ptr := nat (only parsing).

Record Span := {
  File : gostring;
  Line : Z;
  Column : Z;
  EndLine : Z;
  EndColumn : Z;
}.

(** [SymbolKind] is a [uint8]; the source names two of its values. *)
Abbreviation SymbolKind := Z (only parsing).
Definition SymTerminal : SymbolKind := 1.
Definition SymNonterminal : SymbolKind := 2.

(** [Assoc] is a [uint8] as well. *)
Abbreviation AssocKind := Z (only parsing).
Definition AssocNone : AssocKind := 0.
Definition AssocLeft : AssocKind := 1.
Definition AssocRight : AssocKind := 2.
Definition AssocNonassoc : AssocKind := 3.

Record Symbol := {
  ID : Z;
  Name : gostring;
  Kind : SymbolKind;
  TypeTag : gostring;
  Precedence : Z;
  Assoc : AssocKind;
  DeclaredAt : option Span;
}.

Record SymbolRef := {
  Sym : option ptr;
  Label : gostring;
  RefAt : option Span;
}.

Record Action := {
  Raw : gostring;
  ActionAt : option Span;
}.

Record Alternative := {
  RHS : list (option SymbolRef);
  AltAction : option Action;
  PrecSym : option ptr;
  AltAt : option Span;
}.

Record Rule := {
  LHS : option ptr;
  Alternatives : list (option Alternative);
  RuleAt : option Span;
}.

Record Grammar := {
  GName : gostring;
  Start : option ptr;
  Symbols : list ptr;
  SymbolsByName : gmap (list Z) nat;
  Rules : list (option Rule);
  Directives : gmap (list Z) (list Z);
}.

(** ** Diagnostics

    [fmt.Sprintf(msg, args...)] is kept as the format with its arguments. *)
Inductive DiagnosticLevel := DiagError | DiagWarn.

Inductive Arg :=
| ArgS (s : gostring)
| ArgD (n : Z).

Record Message := {
  format : string;
  args : list Arg;
}.

Record Diagnostic := {
  Level : DiagnosticLevel;
  Msg : Message;
  At : option Span;
}.

#[global] Instance DiagnosticLevel_eq_dec : EqDecision DiagnosticLevel.
Proof. solve_decision. Defined.
#[global] Instance Span_eq_dec : EqDecision Span.
Proof. solve_decision. Defined.
#[global] Instance Arg_eq_dec : EqDecision Arg.
Proof. solve_decision. Defined.
#[global] Instance Message_eq_dec : EqDecision Message.
Proof. solve_decision. Defined.
#[global] Instance Diagnostic_eq_dec : EqDecision Diagnostic.
Proof. solve_decision. Defined.

(** ** The builder

    [store] holds every [Symbol] object allocated by the builder; the
    address of a symbol is its position in [store]. [g.Symbols] and
    [g.SymbolsByName] hold such addresses. *)
Record Builder := {
  store : list Symbol;
  g : Grammar;
  precedenceCounter : Z;
  diags : list Diagnostic;
}.

Definition set_g (f : Grammar -> Grammar) (b : Builder) : Builder :=
  {| store := store b; g := f (g b);
     precedenceCounter := precedenceCounter b; diags := diags b |}.

Definition set_store (f : list Symbol -> list Symbol) (b : Builder) : Builder :=
  {| store := f (store b); g := g b;
     precedenceCounter := precedenceCounter b; diags := diags b |}.

Definition set_diags (f : list Diagnostic -> list Diagnostic) (b : Builder) : Builder :=
  {| store := store b; g := g b;
     precedenceCounter := precedenceCounter b; diags := f (diags b) |}.

Definition set_precedenceCounter (n : Z) (b : Builder) : Builder :=
  {| store := store b; g := g b; precedenceCounter := n; diags := diags b |}.

Definition set_Start (p : option ptr) (gr : Grammar) : Grammar :=
  {| GName := GName gr; Start := p; Symbols := Symbols gr;
     SymbolsByName := SymbolsByName gr; Rules := Rules gr;
     Directives := Directives gr |}.

Definition set_Rules (f : list (option Rule) -> list (option Rule)) (gr : Grammar) : Grammar :=
  {| GName := GName gr; Start := Start gr; Symbols := Symbols gr;
     SymbolsByName := SymbolsByName gr; Rules := f (Rules gr);
     Directives := Directives gr |}.

Definition set_Directives (f : gmap (list Z) (list Z) -> gmap (list Z) (list Z)) (gr : Grammar) : Grammar :=
  {| GName := GName gr; Start := Start gr; Symbols := Symbols gr;
     SymbolsByName := SymbolsByName gr; Rules := Rules gr;
     Directives := f (Directives gr) |}.

Definition add_symbol (name : gostring) (p : ptr) (gr : Grammar) : Grammar :=
  {| GName := GName gr; Start := Start gr; Symbols := Symbols gr ++ [p];
     SymbolsByName := <[name := p]> (SymbolsByName gr); Rules := Rules gr;
     Directives := Directives gr |}.

Definition with_TypeTag (t : gostring) (s : Symbol) : Symbol :=
  {| ID := ID s; Name := Name s; Kind := Kind s; TypeTag := t;
     Precedence := Precedence s; Assoc := Assoc s; DeclaredAt := DeclaredAt s |}.

Definition with_Precedence (level : Z) (assoc : AssocKind) (s : Symbol) : Symbol :=
  {| ID := ID s; Name := Name s; Kind := Kind s; TypeTag := TypeTag s;
     Precedence := level; Assoc := assoc; DeclaredAt := DeclaredAt s |}.

Definition NewBuilder (fileLabel : gostring) : Builder :=
  {| store := [];
     g := {| GName := []; Start := None; Symbols := [];
             SymbolsByName := ∅; Rules := []; Directives := ∅ |};
     precedenceCounter := 0;
     diags := [] |}.

Definition HasErrors (b : Builder) : bool :=
  existsb (fun d => bool_decide (Level d = DiagError)) (diags b).

Definition Lookup (name : gostring) (b : Builder) : option ptr :=
  let name := TrimSpace name in
  SymbolsByName (g b) !! name.

Definition error (at_ : option Span) (msg : string) (a : list Arg) (b : Builder) : Builder :=
  set_diags (fun ds => ds ++ [{| Level := DiagError;
                                 Msg := {| format := msg; args := a |};
                                 At := at_ |}]) b.

Definition warn (at_ : option Span) (msg : string) (a : list Arg) (b : Builder) : Builder :=
  set_diags (fun ds => ds ++ [{| Level := DiagWarn;
                                 Msg := {| format := msg; args := a |};
                                 At := at_ |}]) b.

Definition kindString (k : SymbolKind) : gostring :=
  if decide (k = SymTerminal) then runes "terminal"
  else if decide (k = SymNonterminal) then runes "nonterminal"
  else runes "unknown".

Definition invalidName : gostring := runes "<invalid>".

(** The body of [Intern] after the empty-name test: [name] is trimmed and
    not empty. *)
Definition internNamed (name : gostring) (kind : SymbolKind) (at_ : option Span)
    (b : Builder) : ptr * Builder :=
  match SymbolsByName (g b) !! name with
  | Some sym =>
      match store b !! sym with
      | Some s =>
          if decide (Kind s <> kind) then
            (sym, error at_ "symbol %q previously declared as %s, cannot redeclare as %s"
                    [ArgS name; ArgS (kindString (Kind s)); ArgS (kindString kind)] b)
          else (sym, b)
      | None => (sym, b)
      end
  | None =>
      let s := {| ID := Z.of_nat (length (Symbols (g b)));
                  Name := name; Kind := kind; TypeTag := [];
                  Precedence := 0; Assoc := AssocNone; DeclaredAt := at_ |} in
      let sym := length (store b) in
      (sym, set_g (add_symbol name sym) (set_store (fun h => h ++ [s]) b))
  end.

(** [internDummy]: one stable placeholder per builder. Its call
    [b.Intern(name, SymNonterminal, at)] passes a name that trims to itself
    and is not empty, so it continues in [internNamed]. *)
Definition internDummy (at_ : option Span) (b : Builder) : ptr * Builder :=
  match SymbolsByName (g b) !! invalidName with
  | Some sym => (sym, b)
  | None => internNamed (TrimSpace invalidName) SymNonterminal at_ b
  end.

Definition Intern (name : gostring) (kind : SymbolKind) (at_ : option Span)
    (b : Builder) : ptr * Builder :=
  let name := TrimSpace name in
  if decide (name = []) then
    internDummy at_ (error at_ "symbol name is empty" [] b)
  else internNamed name kind at_ b.

Definition EnsureTerminal (name : gostring) (at_ : option Span) (b : Builder) :=
  Intern name SymTerminal at_ b.

Definition EnsureNonterminal (name : gostring) (at_ : option Span) (b : Builder) :=
  Intern name SymNonterminal at_ b.

(** [SetTypeTag]: the first non-empty tag wins. *)
Definition SetTypeTag (sym : option ptr) (typeTag : gostring) (at_ : option Span)
    (b : Builder) : Builder :=
  match sym with
  | None => b
  | Some p =>
      let typeTag := TrimSpace typeTag in
      if decide (typeTag = []) then b
      else
        match store b !! p with
        | None => b
        | Some s =>
            if decide (TypeTag s <> [] /\ TypeTag s <> typeTag) then
              error at_ "symbol %q already has type %q; cannot set to %q"
                [ArgS (Name s); ArgS (TypeTag s); ArgS typeTag] b
            else set_store (fun h => <[p := with_TypeTag typeTag s]> h) b
        end
  end.

Definition SetStart (sym : option ptr) (at_ : option Span) (b : Builder) : Builder :=
  match sym with
  | None => b
  | Some p =>
      match store b !! p with
      | None => b
      | Some s =>
          if decide (Kind s <> SymNonterminal) then
            error at_ "start symbol %q must be a nonterminal" [ArgS (Name s)] b
          else
            let b :=
              match Start (g b) with
              | Some old =>
                  if decide (old <> p) then
                    match store b !! old with
                    | Some so =>
                        warn at_ "start symbol changed from %q to %q"
                          [ArgS (Name so); ArgS (Name s)] b
                    | None => b
                    end
                  else b
              | None => b
              end in
            set_g (set_Start (Some p)) b
      end
  end.

(** One iteration of the loop of [DefinePrecedenceGroup]. *)
Definition precedenceStep (assoc : AssocKind) (level : Z) (at_ : option Span)
    (b : Builder) (t : option ptr) : Builder :=
  match t with
  | None => b
  | Some p =>
      match store b !! p with
      | None => b
      | Some s =>
          if decide (Kind s <> SymTerminal) then
            error at_ "precedence can only be assigned to terminals; %q is %s"
              [ArgS (Name s); ArgS (kindString (Kind s))] b
          else if decide (Precedence s <> 0) then
            warn at_ "terminal %q already has precedence %d; ignoring new precedence %d"
              [ArgS (Name s); ArgD (Precedence s); ArgD level] b
          else set_store (fun h => <[p := with_Precedence level assoc s]> h) b
      end
  end.

Definition DefinePrecedenceGroup (assoc : AssocKind) (terminals : list (option ptr))
    (at_ : option Span) (b : Builder) : Builder :=
  if decide (assoc = AssocNone) then
    error at_ "precedence group must have associativity (left/right/nonassoc)" [] b
  else
    let b := set_precedenceCounter (wrapInt (precedenceCounter b + 1)) b in
    let level := precedenceCounter b in
    foldl (precedenceStep assoc level at_) b terminals.

(** [RuleBuilder]: [rule] is the position of the rule in [g.Rules]; the
    builder it points to is the state threaded through the operations. *)
Record RuleBuilder := {
  rule : option nat;
  done : bool;
}.

Definition BeginRule (lhs : option ptr) (at_ : option Span) (b : Builder)
    : option RuleBuilder * Builder :=
  let '(lhs, b) :=
    match lhs with
    | None => internDummy at_ b
    | Some p => (p, b)
    end in
  match store b !! lhs with
  | None => (None, b)
  | Some s =>
      let b :=
        if decide (Kind s <> SymNonterminal) then
          error at_ "rule LHS %q must be a nonterminal" [ArgS (Name s)] b
        else b in
      let r := {| LHS := Some lhs; Alternatives := []; RuleAt := at_ |} in
      let idx := length (Rules (g b)) in
      let b := set_g (set_Rules (fun rs => rs ++ [Some r])) b in
      let b :=
        if decide (Start (g b) = None /\ Kind s = SymNonterminal) then
          set_g (set_Start (Some lhs)) b
        else b in
      (Some {| rule := Some idx; done := false |}, b)
  end.

(** The nil check of [Alt] over the RHS, from position [i] on. *)
Fixpoint checkRHS (at_ : option Span) (i : Z) (rhs : list (option SymbolRef))
    (b : Builder) : Builder :=
  match rhs with
  | [] => b
  | sr :: rest =>
      let b :=
        match sr with
        | Some r =>
            match Sym r with
            | Some _ => b
            | None => error at_ "rhs symbol at position %d is nil" [ArgD i] b
            end
        | None => error at_ "rhs symbol at position %d is nil" [ArgD i] b
        end in
      checkRHS at_ (i + 1) rest b
  end.

Definition add_alternative (a : Alternative) (r : Rule) : Rule :=
  {| LHS := LHS r; Alternatives := Alternatives r ++ [Some a]; RuleAt := RuleAt r |}.

Definition Alt (rb : option RuleBuilder) (rhs : list (option SymbolRef))
    (action : option Action) (prec : option ptr) (at_ : option Span)
    (b : Builder) : Builder :=
  match rb with
  | None => b
  | Some rb =>
      if done rb then b
      else
        match rule rb with
        | None => b
        | Some idx =>
            let b := checkRHS at_ 0 rhs b in
            let '(prec, b) :=
              match prec with
              | Some p =>
                  match store b !! p with
                  | Some s =>
                      if decide (Kind s <> SymTerminal) then
                        (None, error at_ "precedence override symbol %q must be a terminal"
                                 [ArgS (Name s)] b)
                      else (Some p, b)
                  | None => (Some p, b)
                  end
              | None => (None, b)
              end in
            let a := {| RHS := rhs; AltAction := action; PrecSym := prec; AltAt := at_ |} in
            set_g (set_Rules (fun rs =>
                     match rs !! idx with
                     | Some (Some r) => <[idx := Some (add_alternative a r)]> rs
                     | _ => rs
                     end)) b
        end
  end.

Definition End (rb : option RuleBuilder) : option RuleBuilder :=
  match rb with
  | None => None
  | Some rb => Some {| rule := rule rb; done := true |}
  end.

Definition NewRef (sym : option ptr) (label : gostring) (at_ : option Span)
    (b : Builder) : SymbolRef * Builder :=
  let '(sym, b) :=
    match sym with
    | None => internDummy at_ b
    | Some p => (p, b)
    end in
  let label := TrimSpace label in
  ({| Sym := Some sym; Label := label; RefAt := at_ |}, b).

Definition NewAction (raw : gostring) (at_ : option Span) : option Action :=
  let raw := TrimSpace raw in
  if decide (raw = []) then None
  else Some {| Raw := raw; ActionAt := at_ |}.

Definition SetDirective (key value : gostring) (at_ : option Span) (b : Builder) : Builder :=
  let key := TrimSpace key in
  if decide (key = []) then error at_ "directive key is empty" [] b
  else
    let b :=
      match Directives (g b) !! key with
      | Some _ => warn at_ "directive %q overwritten" [ArgS key] b
      | None => b
      end in
    set_g (set_Directives (fun m => <[key := value]> m)) b.

(** ** Validation: [Builder.Finalize]

    The Go maps keyed by [*Symbol] are finite maps over addresses; a missing
    key reads as the zero value. Where Go ranges over a map the order is
    unspecified; the model ranges over [map_to_list], so the order of the
    diagnostics of such a loop is one of the orders Go may produce. An address
    outside the store does not occur in Go; the model skips it. *)

Definition getb (m : gmap nat bool) (k : ptr) : bool := default false (m !! k).
Definition getn (m : gmap nat Z) (k : ptr) : Z := default 0 (m !! k).

(** Step 2: which symbols appear as the LHS of a rule. *)
Definition lhsStep (st : Builder * gmap nat bool) (r : option Rule)
    : Builder * gmap nat bool :=
  let '(b, lhsHasRule) := st in
  match r with
  | None => (error None "rule has nil LHS" [] b, lhsHasRule)
  | Some r =>
      match LHS r with
      | None => (error None "rule has nil LHS" [] b, lhsHasRule)
      | Some p =>
          match store b !! p with
          | None => st
          | Some s =>
              let b :=
                if decide (Kind s <> SymNonterminal) then
                  error (RuleAt r) "rule LHS %q must be a nonterminal" [ArgS (Name s)] b
                else b in
              (b, <[p := true]> lhsHasRule)
          end
      end
  end.

(** The state of step 3: builder, usage counts, nonterminal edges. *)
Record VState := {
  vb : Builder;
  used : gmap nat Z;
  edges : gmap nat (gmap nat bool);
}.

(** Step 3, the loop over the RHS of one alternative, from position [pos]. *)
Fixpoint rhsLoop (lhs : ptr) (lhsName : gostring) (altAt : option Span)
    (pos : Z) (rhs : list (option SymbolRef)) (st : VState) : VState :=
  match rhs with
  | [] => st
  | sr :: rest =>
      let nilref :=
        {| vb := error altAt "rule %q has nil rhs symbol at position %d"
                   [ArgS lhsName; ArgD pos] (vb st);
           used := used st; edges := edges st |} in
      let st :=
        match sr with
        | None => nilref
        | Some r =>
            match Sym r with
            | None => nilref
            | Some p =>
                let u := <[p := wrapInt (getn (used st) p + 1)]> (used st) in
                match store (vb st) !! p with
                | None => st
                | Some s =>
                    let e :=
                      if decide (Kind s = SymNonterminal) then
                        <[lhs := <[p := true]> (default ∅ (edges st !! lhs))]> (edges st)
                      else edges st in
                    {| vb := vb st; used := u; edges := e |}
                end
            end
        end in
      rhsLoop lhs lhsName altAt (pos + 1) rest st
  end.

(** Step 3, one alternative of a rule. *)
Definition altStep (lhs : ptr) (lhsName : gostring) (ruleAt : option Span)
    (st : VState) (alt : option Alternative) : VState :=
  match alt with
  | None =>
      {| vb := error ruleAt "rule %q has a nil alternative" [ArgS lhsName] (vb st);
         used := used st; edges := edges st |}
  | Some a =>
      let st := rhsLoop lhs lhsName (AltAt a) 0 (RHS a) st in
      match PrecSym a with
      | None => st
      | Some p =>
          match store (vb st) !! p with
          | None => st
          | Some s =>
              let b :=
                if decide (Kind s <> SymTerminal) then
                  error (AltAt a) "precedence override symbol %q must be a terminal"
                    [ArgS (Name s)] (vb st)
                else if decide (Precedence s = 0) then
                  warn (AltAt a)
                    "precedence override uses %q, but it has no precedence (missing %%left/%%right/%%nonassoc?)"
                    [ArgS (Name s)] (vb st)
                else vb st in
              {| vb := b; used := <[p := wrapInt (getn (used st) p + 1)]> (used st);
                 edges := edges st |}
          end
      end
  end.

(** Step 3, one rule. *)
Definition ruleStep (st : VState) (r : option Rule) : VState :=
  match r with
  | None => st
  | Some r =>
      match LHS r with
      | None => st
      | Some lhs =>
          match store (vb st) !! lhs with
          | None => st
          | Some s =>
              let e :=
                match edges st !! lhs with
                | Some _ => edges st
                | None => <[lhs := ∅]> (edges st)
                end in
              let st := {| vb := vb st; used := used st; edges := e |} in
              match Alternatives r with
              | [] =>
                  {| vb := warn (RuleAt r) "rule %q has no alternatives" [ArgS (Name s)] (vb st);
                     used := used st; edges := edges st |}
              | alts => foldl (altStep lhs (Name s) (RuleAt r)) st alts
              end
          end
      end
  end.

(** Step 4: nonterminals used on some RHS without a rule of their own. *)
Definition undefinedStep (lhsHasRule : gmap nat bool) (b : Builder)
    (kv : nat * Z) : Builder :=
  let '(sym, n) := kv in
  if decide (n = 0) then b
  else
    match store b !! sym with
    | None => b
    | Some s =>
        if decide (Kind s = SymNonterminal /\ getb lhsHasRule sym = false) then
          error (DeclaredAt s) "nonterminal %q is used but has no rule" [ArgS (Name s)] b
        else b
    end.

(** Step 5, the inner loop [for next := range edges[nt]]. *)
Definition reachStep (h : list Symbol) (st : gmap nat bool * list nat)
    (kv : nat * bool) : gmap nat bool * list nat :=
  let '(reachable, stack) := st in
  let next := kv.1 in
  match h !! next with
  | None => st
  | Some s =>
      if decide (Kind s <> SymNonterminal) then st
      else if getb reachable next then st
      else (<[next := true]> reachable, stack ++ [next])
  end.

(** Step 5, the loop [for len(stack) > 0]; it pops from the end of the
    stack. [fuel] bounds the number of iterations. *)
Fixpoint reachLoop (fuel : nat) (h : list Symbol) (e : gmap nat (gmap nat bool))
    (st : gmap nat bool * list nat) : gmap nat bool * list nat :=
  match fuel with
  | O => st
  | S fuel' =>
      let '(reachable, stack) := st in
      match last stack with
      | None => st
      | Some nt =>
          let stack := take (length stack - 1)%nat stack in
          reachLoop fuel' h e
            (foldl (reachStep h) (reachable, stack)
               (map_to_list (default ∅ (e !! nt))))
      end
  end.

Definition unreachableStep (reachable : gmap nat bool) (startName : gostring)
    (b : Builder) (kv : nat * bool) : Builder :=
  let nt := kv.1 in
  if getb reachable nt then b
  else
    match store b !! nt with
    | None => b
    | Some s =>
        warn (DeclaredAt s)
          "nonterminal %q has rules but is unreachable from start symbol %q"
          [ArgS (Name s); ArgS startName] b
    end.

(** Step 6: symbols never used on a RHS. *)
Definition unusedStep (u : gmap nat Z) (lhsHasRule : gmap nat bool)
    (b : Builder) (sym : ptr) : Builder :=
  match store b !! sym with
  | None => b
  | Some s =>
      if decide (Name s = invalidName) then b
      else if decide (getn u sym = 0) then
        if decide (Kind s = SymTerminal) then
          warn (DeclaredAt s) "terminal %q is declared but never used" [ArgS (Name s)] b
        else if decide (Kind s = SymNonterminal) then
          if getb lhsHasRule sym then
            warn (DeclaredAt s)
              "nonterminal %q has rules but is never referenced (except as LHS)"
              [ArgS (Name s)] b
          else
            warn (DeclaredAt s)
              "nonterminal %q is declared but never used and has no rules"
              [ArgS (Name s)] b
        else b
      else b
  end.

(** [Finalize] returns [b.g]; the builder after the call is the result here,
    and the returned grammar is its [g]. The DFS of step 5 marks each address
    of the store at most once, so [length (store b)] iterations empty the
    stack (lemma [reachLoop_enough_fuel]). *)
Definition Finalize (b : Builder) : Builder :=
  match Rules (g b) with
  | [] => error None "grammar has no rules" [] b
  | _ =>
      let b :=
        match Start (g b) with
        | None => error None "start symbol is not set and could not be inferred" [] b
        | Some p =>
            match store b !! p with
            | None => b
            | Some s =>
                if decide (Kind s <> SymNonterminal) then
                  error (DeclaredAt s) "start symbol %q must be a nonterminal"
                    [ArgS (Name s)] b
                else b
            end
        end in
      let '(b, lhsHasRule) := foldl lhsStep (b, ∅) (Rules (g b)) in
      let st := foldl ruleStep {| vb := b; used := ∅; edges := ∅ |} (Rules (g b)) in
      let b := vb st in
      let b := foldl (undefinedStep lhsHasRule) b (map_to_list (used st)) in
      let b :=
        match Start (g b) with
        | None => b
        | Some p =>
            match store b !! p with
            | None => b
            | Some s =>
                if decide (Kind s = SymNonterminal) then
                  let '(reachable, _) :=
                    reachLoop (length (store b)) (store b) (edges st)
                      (<[p := true]> ∅, [p]) in
                  foldl (unreachableStep reachable (Name s)) b (map_to_list lhsHasRule)
                else b
            end
        end in
      foldl (unusedStep (used st) lhsHasRule) b (Symbols (g b))
  end.

(** ** The event sink: [Sink], [Directive], [SymRef], [Alt], [BuilderSink]

    [Directive_] and [Alt_] are the records [Directive] and [Alt], with
    fields [DKind], [DAt], [DList] and [AAt], [ARHS], [AAction], [APrec];
    [SName], [SAt], [SLabel], [STypeTag] are the fields of [SymRef]. The
    methods of [BuilderSink] keep their names, but for [SinkBeginRule]
    ([BuilderSink.BeginRule]) and [Alternative_]. *)

(** [DirectiveKind] is a [uint8]. *)
Abbreviation DirectiveKind := Z (only parsing).
Definition DirUnknown : DirectiveKind := 0.
Definition DirStartSymbol : DirectiveKind := 1.
Definition DirTokenType : DirectiveKind := 2.
Definition DirType : DirectiveKind := 3.
Definition DirToken : DirectiveKind := 4.
Definition DirLeft : DirectiveKind := 5.
Definition DirRight : DirectiveKind := 6.
Definition DirNonassoc : DirectiveKind := 7.
Definition DirInclude : DirectiveKind := 8.
Definition DirCode : DirectiveKind := 9.
Definition DirFallback : DirectiveKind := 10.

Record SymRef := {
  SName : gostring;
  SAt : option Span;
  SLabel : gostring;
  STypeTag : gostring;
}.

Record Directive_ := {
  DKind : DirectiveKind;
  DAt : option Span;
  Key : gostring;
  Value : gostring;
  DList : list SymRef;
}.

Record Alt_ := {
  AAt : option Span;
  ARHS : list SymRef;
  AAction : option Action;
  APrec : option SymRef;
}.

(** The sink owns the builder it adapts: [B] is the builder's state. *)
Record BuilderSink := {
  B : Builder;
  curRule : option RuleBuilder;
  curLHS : option ptr;
  declTokens : gmap (list Z) bool;
  declTypes : gmap (list Z) (list Z);
  UseHeuristicCapsAsTerminal : bool;
}.

Definition set_B (b : Builder) (s : BuilderSink) : BuilderSink :=
  {| B := b; curRule := curRule s; curLHS := curLHS s;
     declTokens := declTokens s; declTypes := declTypes s;
     UseHeuristicCapsAsTerminal := UseHeuristicCapsAsTerminal s |}.

Definition set_cur (rb : option RuleBuilder) (lhs : option ptr) (s : BuilderSink) : BuilderSink :=
  {| B := B s; curRule := rb; curLHS := lhs;
     declTokens := declTokens s; declTypes := declTypes s;
     UseHeuristicCapsAsTerminal := UseHeuristicCapsAsTerminal s |}.

Definition declToken (name : gostring) (s : BuilderSink) : BuilderSink :=
  {| B := B s; curRule := curRule s; curLHS := curLHS s;
     declTokens := <[name := true]> (declTokens s); declTypes := declTypes s;
     UseHeuristicCapsAsTerminal := UseHeuristicCapsAsTerminal s |}.

Definition declType (name typeTag : gostring) (s : BuilderSink) : BuilderSink :=
  {| B := B s; curRule := curRule s; curLHS := curLHS s;
     declTokens := declTokens s; declTypes := <[name := typeTag]> (declTypes s);
     UseHeuristicCapsAsTerminal := UseHeuristicCapsAsTerminal s |}.

Definition NewBuilderSink (b : Builder) : BuilderSink :=
  {| B := b; curRule := None; curLHS := None;
     declTokens := ∅; declTypes := ∅;
     UseHeuristicCapsAsTerminal := true |}.

(** [strings.Fields]: the maximal runs of runes that are not white space.
    [cur] is the field being read. *)
Fixpoint FieldsFrom (cur : gostring) (s : gostring) : list gostring :=
  match s with
  | [] => if decide (cur = []) then [] else [cur]
  | r :: s' =>
      if IsSpace r then
        if decide (cur = []) then FieldsFrom [] s' else cur :: FieldsFrom [] s'
      else FieldsFrom (cur ++ [r]) s'
  end.

Definition Fields (s : gostring) : list gostring := FieldsFrom [] s.

Section Sink.

(** The tables of Go's [unicode] package are not part of the repository:
    [unicode.IsLetter] and [unicode.ToUpper] are taken as given. *)
Variable IsLetter : rune -> bool.
Variable ToUpper : rune -> rune.

(** The loop of [looksLikeTerminal] over the runes of the name. *)
Fixpoint looksLikeTerminalLoop (hasLetter allUpperLetters : bool) (name : gostring) : bool :=
  match name with
  | [] => hasLetter && allUpperLetters
  | r :: rest =>
      if IsLetter r then
        looksLikeTerminalLoop true
          (if decide (ToUpper r <> r) then false else allUpperLetters) rest
      else true
  end.

Definition looksLikeTerminal (name : gostring) : bool :=
  if decide (name = []) then false
  else looksLikeTerminalLoop false true name.

Definition ParserError (at_ : option Span) (msg : gostring) (s : BuilderSink) : BuilderSink :=
  set_B (error at_ "%s" [ArgS msg] (B s)) s.

(** [%token]: one listed name. *)
Definition tokenStep (s : BuilderSink) (sr : SymRef) : BuilderSink :=
  let name := TrimSpace (SName sr) in
  if decide (name = []) then s
  else
    let s := declToken name s in
    set_B (EnsureTerminal name (SAt sr) (B s)).2 s.

(** [%type]: one listed name. *)
Definition typeStep (typeTag : gostring) (s : BuilderSink) (sr : SymRef) : BuilderSink :=
  let name := TrimSpace (SName sr) in
  if decide (name = []) then s
  else
    let '(sym, b) := EnsureNonterminal name (SAt sr) (B s) in
    let s := declType name typeTag (set_B b s) in
    set_B (SetTypeTag (Some sym) typeTag (SAt sr) (B s)) s.

(** Precedence directives: one name of [d.List]. *)
Definition precListStep (st : BuilderSink * list (option ptr)) (sr : SymRef)
    : BuilderSink * list (option ptr) :=
  let '(s, terms) := st in
  let name := TrimSpace (SName sr) in
  if decide (name = []) then st
  else
    let s := declToken name s in
    let '(sym, b) := EnsureTerminal name (SAt sr) (B s) in
    (set_B b s, terms ++ [Some sym]).

(** Precedence directives: one field of [d.Value]. *)
Definition precFieldStep (at_ : option Span) (st : BuilderSink * list (option ptr))
    (name : gostring) : BuilderSink * list (option ptr) :=
  let '(s, terms) := st in
  let s := declToken name s in
  let '(sym, b) := EnsureTerminal name at_ (B s) in
  (set_B b s, terms ++ [Some sym]).

Definition storeDirective (d : Directive_) (s : BuilderSink) : BuilderSink :=
  let key := TrimSpace (Key d) in
  let key := if decide (key = []) then runes "directive" else key in
  set_B (SetDirective key (Value d) (DAt d) (B s)) s.

Definition Directive (d : Directive_) (s : BuilderSink) : BuilderSink :=
  if decide (DKind d = DirStartSymbol) then
    let name := TrimSpace (Value d) in
    if decide (name = []) then
      set_B (error (DAt d) "%%start_symbol requires a symbol name" [] (B s)) s
    else
      let '(sym, b) := EnsureNonterminal name (DAt d) (B s) in
      set_B (SetStart (Some sym) (DAt d) b) s
  else if decide (DKind d = DirToken) then
    let v := TrimSpace (Value d) in
    let s :=
      if decide (v <> []) then
        let s := declToken v s in
        set_B (EnsureTerminal v (DAt d) (B s)).2 s
      else s in
    foldl tokenStep s (DList d)
  else if decide (DKind d = DirType) then
    let typeTag := TrimSpace (Value d) in
    if decide (typeTag = []) then
      set_B (error (DAt d) "%%type requires a type tag" [] (B s)) s
    else foldl (typeStep typeTag) s (DList d)
  else if decide (DKind d = DirTokenType) then
    set_B (SetDirective (runes "token_type") (Value d) (DAt d) (B s)) s
  else if decide (DKind d = DirLeft \/ DKind d = DirRight \/ DKind d = DirNonassoc) then
    let assoc :=
      if decide (DKind d = DirLeft) then AssocLeft
      else if decide (DKind d = DirRight) then AssocRight
      else AssocNonassoc in
    let '(s, terms) := foldl precListStep (s, []) (DList d) in
    let '(s, terms) :=
      if decide (length terms = 0%nat) then
        foldl (precFieldStep (DAt d)) (s, terms) (Fields (Value d))
      else (s, terms) in
    if decide (length terms = 0%nat) then
      set_B (error (DAt d) "precedence directive requires at least one terminal" [] (B s)) s
    else set_B (DefinePrecedenceGroup assoc terms (DAt d) (B s)) s
  else
    (* DirInclude, DirCode, DirFallback, DirUnknown, and the default case *)
    storeDirective d s.

Definition SinkBeginRule (lhs : SymRef) (s : BuilderSink) : BuilderSink :=
  let s :=
    match curRule s with
    | Some _ =>
        let s := set_B (warn (SAt lhs)
                   "begin rule while previous rule still open; closing previous rule" []
                   (B s)) s in
        set_cur None None s
    | None => s
    end in
  let name := TrimSpace (SName lhs) in
  if decide (name = []) then
    set_B (error (SAt lhs) "rule LHS is empty" [] (B s)) s
  else
    let '(sym, b) := EnsureNonterminal name (SAt lhs) (B s) in
    let s := set_cur (curRule s) (Some sym) (set_B b s) in
    let s :=
      match declTypes s !! name with
      | Some tag =>
          if decide (tag <> []) then set_B (SetTypeTag (curLHS s) tag (SAt lhs) (B s)) s
          else s
      | None => s
      end in
    let '(rb, b) := BeginRule (curLHS s) (SAt lhs) (B s) in
    set_cur rb (curLHS s) (set_B b s).

Definition resolveSymbolInRHS (sr : SymRef) (s : BuilderSink) : ptr * BuilderSink :=
  let name := TrimSpace (SName sr) in
  if decide (name = []) then
    let '(sym, b) := internDummy (SAt sr) (error (SAt sr) "rhs symbol name is empty" [] (B s)) in
    (sym, set_B b s)
  else if default false (declTokens s !! name) then
    let '(sym, b) := EnsureTerminal name (SAt sr) (B s) in (sym, set_B b s)
  else
    match Lookup name (B s) with
    | Some existing => (existing, s)
    | None =>
        if UseHeuristicCapsAsTerminal s && looksLikeTerminal name then
          let '(sym, b) := EnsureTerminal name (SAt sr) (B s) in (sym, set_B b s)
        else
          let '(sym, b) := EnsureNonterminal name (SAt sr) (B s) in (sym, set_B b s)
    end.

(** [Alternative]: one RHS reference. *)
Definition altRefStep (st : BuilderSink * list (option SymbolRef)) (sr : SymRef)
    : BuilderSink * list (option SymbolRef) :=
  let '(s, rhs) := st in
  let '(sym, s) := resolveSymbolInRHS sr s in
  let s :=
    if decide (STypeTag sr <> []) then
      set_B (SetTypeTag (Some sym) (STypeTag sr) (SAt sr) (B s)) s
    else s in
  let '(ref, b) := NewRef (Some sym) (SLabel sr) (SAt sr) (B s) in
  (set_B b s, rhs ++ [Some ref]).

Definition Alternative_ (alt : Alt_) (s : BuilderSink) : BuilderSink :=
  match curRule s, curLHS s with
  | Some _, Some _ =>
      let '(s, rhs) := foldl altRefStep (s, []) (ARHS alt) in
      let '(prec, s) :=
        match APrec alt with
        | Some ps =>
            let name := TrimSpace (SName ps) in
            if decide (name = []) then
              (None, set_B (error (SAt ps) "precedence override symbol is empty" [] (B s)) s)
            else
              let s := declToken name s in
              let '(sym, b) := EnsureTerminal name (SAt ps) (B s) in
              (Some sym, set_B b s)
        | None => (None, s)
        end in
      set_B (Alt (curRule s) rhs (AAction alt) prec (AAt alt) (B s)) s
  | _, _ =>
      set_B (error (AAt alt) "alternative encountered without an open rule" [] (B s)) s
  end.

Definition EndRule (at_ : option Span) (s : BuilderSink) : BuilderSink :=
  match curRule s with
  | None => s
  | Some _ => set_cur None None s
  end.

(** The events of the [Sink] interface, in the order the parser emits them. *)
Inductive Event :=
| EvDirective (d : Directive_)
| EvBeginRule (lhs : SymRef)
| EvAlternative (alt : Alt_)
| EvEndRule (at_ : option Span)
| EvParserError (at_ : option Span) (msg : gostring).

Definition handle (s : BuilderSink) (e : Event) : BuilderSink :=
  match e with
  | EvDirective d => Directive d s
  | EvBeginRule lhs => SinkBeginRule lhs s
  | EvAlternative alt => Alternative_ alt s
  | EvEndRule at_ => EndRule at_ s
  | EvParserError at_ msg => ParserError at_ msg s
  end.

Definition handleAll (s : BuilderSink) (evs : list Event) : BuilderSink :=
  foldl handle s evs.

End Sink.

(** ** Sequences of builder operations

    The state-changing methods of [Builder] (and of [RuleBuilder], which
    writes through its builder). [EnsureTerminal] and [EnsureNonterminal] are
    [Intern]; [error] and [warn] are what the sink calls in the package. *)
Inductive Op :=
| OpIntern (name : gostring) (kind : SymbolKind) (at_ : option Span)
| OpSetTypeTag (sym : option ptr) (typeTag : gostring) (at_ : option Span)
| OpSetStart (sym : option ptr) (at_ : option Span)
| OpDefinePrecedenceGroup (assoc : AssocKind) (terminals : list (option ptr))
    (at_ : option Span)
| OpBeginRule (lhs : option ptr) (at_ : option Span)
| OpAlt (rb : option RuleBuilder) (rhs : list (option SymbolRef))
    (action : option Action) (prec : option ptr) (at_ : option Span)
| OpNewRef (sym : option ptr) (label : gostring) (at_ : option Span)
| OpSetDirective (key value : gostring) (at_ : option Span)
| OpError (at_ : option Span) (msg : string) (a : list Arg)
| OpWarn (at_ : option Span) (msg : string) (a : list Arg)
| OpFinalize.

Definition apply_op (b : Builder) (op : Op) : Builder :=
  match op with
  | OpIntern name kind at_ => (Intern name kind at_ b).2
  | OpSetTypeTag sym typeTag at_ => SetTypeTag sym typeTag at_ b
  | OpSetStart sym at_ => SetStart sym at_ b
  | OpDefinePrecedenceGroup assoc terminals at_ =>
      DefinePrecedenceGroup assoc terminals at_ b
  | OpBeginRule lhs at_ => (BeginRule lhs at_ b).2
  | OpAlt rb rhs action prec at_ => Alt rb rhs action prec at_ b
  | OpNewRef sym label at_ => (NewRef sym label at_ b).2
  | OpSetDirective key value at_ => SetDirective key value at_ b
  | OpError at_ msg a => error at_ msg a b
  | OpWarn at_ msg a => warn at_ msg a b
  | OpFinalize => Finalize b
  end.

Definition run (ops : list Op) (b : Builder) : Builder := foldl apply_op b ops.

(** The number of precedence groups declared by a sequence of operations:
    the calls of [DefinePrecedenceGroup] that carry an associativity. *)
Definition declaresGroup (op : Op) : bool :=
  match op with
  | OpDefinePrecedenceGroup assoc _ _ => bool_decide (assoc <> AssocNone)
  | _ => false
  end.

Definition groups (ops : list Op) : nat := length (filter declaresGroup ops).

Definition MaxInt : Z := 2 ^ 63 - 1.

(** Density of symbol IDs: the symbol found through [g.Symbols[i]] has
    [ID] [i]. *)
Definition dense (b : Builder) : Prop :=
  forall (i : nat) (p : ptr), Symbols (g b) !! i = Some p ->
    exists s, store b !! p = Some s /\ ID s = Z.of_nat i.

(** What the by-name table of a builder satisfies: an entry leads to a symbol
    of that name, and the empty name has no entry. *)
Record table_ok (b : Builder) : Prop := {
  table_named : forall name p, SymbolsByName (g b) !! name = Some p ->
    exists s, store b !! p = Some s /\ Name s = name;
  table_nonempty : SymbolsByName (g b) !! [] = None;
}.

(** The by-name table, the symbols vector and the store have one entry per
    interned symbol. *)
Definition counted (b : Builder) : Prop :=
  size (SymbolsByName (g b)) = length (Symbols (g b))
  /\ length (store b) = length (Symbols (g b)).

(** The kind of the symbol at an address. *)
Definition kindOf (b : Builder) (p : ptr) : option SymbolKind :=
  Kind <$> store b !! p.

(** The formats of the warnings [Finalize] can record. *)
Definition finalizeWarnings : list string :=
  ["rule %q has no alternatives";
   "precedence override uses %q, but it has no precedence (missing %%left/%%right/%%nonassoc?)";
   "nonterminal %q has rules but is unreachable from start symbol %q";
   "terminal %q is declared but never used";
   "nonterminal %q has rules but is never referenced (except as LHS)";
   "nonterminal %q is declared but never used and has no rules"]%string.

(** A builder [b'] extends [b] by diagnostics only, each satisfying [P]. *)
Definition diagsBy (P : Diagnostic -> Prop) (b b' : Builder) : Prop :=
  store b' = store b /\ g b' = g b /\ precedenceCounter b' = precedenceCounter b
  /\ exists new, diags b' = diags b ++ new /\ Forall P new.

Definition diagsOnly : Builder -> Builder -> Prop := diagsBy (fun _ => True).

(** A diagnostic of [Finalize]: if it is a warning, it is one of
    [finalizeWarnings]; and a rule without alternatives is reported by a
    warning only. *)
Definition finalizeDiag (d : Diagnostic) : Prop :=
  (Level d = DiagWarn -> In (format (Msg d)) finalizeWarnings)
  /\ (format (Msg d) = "rule %q has no alternatives"%string -> Level d = DiagWarn).

(** [stable b b']: the symbol table is the same and every symbol keeps its
    identity, name and kind. *)
Definition stable (b b' : Builder) : Prop :=
  Symbols (g b') = Symbols (g b)
  /\ SymbolsByName (g b') = SymbolsByName (g b)
  /\ length (store b') = length (store b)
  /\ forall p s, store b !! p = Some s ->
       exists s', store b' !! p = Some s' /\ ID s' = ID s /\ Name s' = Name s
                  /\ Kind s' = Kind s.

(** The number of addresses of the store not yet marked, plus the height of
    the stack: the measure of the DFS of [Finalize]. *)
Definition unmarked (h : list Symbol) (reachable : gmap nat bool) : nat :=
  length (filter (fun x => negb (getb reachable x)) (seq 0 (length h))).

(** ** The spec's notion of productivity

    Section 4.2, check 6 of the specification, written from its words; the
    source has no counterpart. Terminals are productive; a nonterminal becomes
    productive when the RHS of one of its alternatives is entirely
    productive. *)
Definition spec_refProductive (h : list Symbol) (prod : list nat)
    (sr : option SymbolRef) : bool :=
  match sr with
  | Some r =>
      match Sym r with
      | Some p =>
          match h !! p with
          | Some s => bool_decide (Kind s = SymTerminal) || bool_decide (p ∈ prod)
          | None => false
          end
      | None => false
      end
  | None => false
  end.

Definition spec_altProductive (h : list Symbol) (prod : list nat)
    (alt : option Alternative) : bool :=
  match alt with
  | Some a => forallb (spec_refProductive h prod) (RHS a)
  | None => false
  end.

Definition spec_productivePass (h : list Symbol) (rules : list (option Rule))
    (prod : list nat) : list nat :=
  foldl (fun acc r =>
           match r with
           | Some r =>
               match LHS r with
               | Some lhs =>
                   if existsb (spec_altProductive h acc) (Alternatives r)
                      && negb (bool_decide (lhs ∈ acc))
                   then acc ++ [lhs] else acc
               | None => acc
               end
           | None => acc
           end) prod rules.

(** The fixed point is reached after at most one pass per symbol. *)
Definition spec_productive (b : Builder) : list nat :=
  Nat.iter (S (length (store b))) (spec_productivePass (store b) (Rules (g b))) [].

Definition spec_nonProductive (b : Builder) (p : ptr) : Prop :=
  kindOf b p = Some SymNonterminal /\ p ∉ spec_productive b.

(** ** The spec's augmentation rule

    The rule [$accept -> S] of the specification: a rule whose LHS is named
    [$accept] with an alternative whose RHS is exactly the start symbol. *)
Definition acceptName : gostring := runes "$accept".

Definition isAcceptRule (b : Builder) (r : option Rule) : bool :=
  match r with
  | Some r =>
      match LHS r with
      | Some lhs =>
          match store b !! lhs with
          | Some s =>
              bool_decide (Name s = acceptName)
              && existsb (fun alt =>
                            match alt with
                            | Some a =>
                                bool_decide (is_Some (Start (g b)))
                                && bool_decide
                                     ((fun sr => sr ≫= Sym) <$> RHS a = [Start (g b)])
                            | None => false
                            end) (Alternatives r)
          | None => false
          end
      | None => false
      end
  | None => false
  end.

Definition augmented (b : Builder) : bool := existsb (isAcceptRule b) (Rules (g b)).

(** ** The ASCII rows of the [unicode] tables

    On the runes below 128 [unicode.IsLetter] and [unicode.ToUpper] are the
    following; they serve to run the sink on ASCII names. *)
Definition asciiIsLetter (r : rune) : bool :=
  bool_decide (65 <= r <= 90 \/ 97 <= r <= 122).

Definition asciiToUpper (r : rune) : rune :=
  if decide (97 <= r <= 122) then r - 32 else r.


(** ** Example grammars *)

(** The grammar of [ExampleBuilder]: [expr ::= expr PLUS expr | NUM] with
    [%left PLUS]. *)
Definition exampleBuilder : Builder :=
  let b := NewBuilder (runes "example.y") in
  let '(E, b) := EnsureNonterminal (runes "expr") None b in
  let '(PLUS, b) := EnsureTerminal (runes "PLUS") None b in
  let '(NUM, b) := EnsureTerminal (runes "NUM") None b in
  let b := DefinePrecedenceGroup AssocLeft [Some PLUS] None b in
  let '(rb, b) := BeginRule (Some E) None b in
  let '(r1, b) := NewRef (Some E) (runes "A") None b in
  let '(r2, b) := NewRef (Some PLUS) [] None b in
  let '(r3, b) := NewRef (Some E) (runes "B") None b in
  let b := Alt rb [Some r1; Some r2; Some r3]
             (NewAction (runes "...semantic code...") None) None None b in
  let '(r4, b) := NewRef (Some NUM) (runes "N") None b in
  Alt rb [Some r4] None None None b.

(** [expr ::= NUM | loop.  loop ::= loop.]: [loop] derives no terminal
    string. *)
Definition loopBuilder : Builder :=
  let b := NewBuilder (runes "test.y") in
  let '(E, b) := EnsureNonterminal (runes "expr") None b in
  let '(NUM, b) := EnsureTerminal (runes "NUM") None b in
  let '(L, b) := EnsureNonterminal (runes "loop") None b in
  let '(rb, b) := BeginRule (Some E) None b in
  let '(r1, b) := NewRef (Some NUM) [] None b in
  let b := Alt rb [Some r1] None None None b in
  let '(r2, b) := NewRef (Some L) [] None b in
  let b := Alt rb [Some r2] None None None b in
  let '(rb2, b) := BeginRule (Some L) None b in
  let '(r3, b) := NewRef (Some L) [] None b in
  Alt rb2 [Some r3] None None None b.

(** A single rule [a] without alternatives. *)
Definition emptyRuleBuilder : Builder :=
  let b := NewBuilder (runes "test.y") in
  let '(A, b) := EnsureNonterminal (runes "a") None b in
  (BeginRule (Some A) None b).2.

(** ** References to a symbol

    [refersTo p a]: the alternative [a] names [p] on its RHS or as its
    precedence symbol. [occurs b p]: an alternative of a rule of [b] whose
    LHS is a symbol refers to [p]. [hasRule b p]: [p] is the LHS of a rule.
    [refTotal]: the number of places where [Finalize] can count a use, one
    per RHS position and one per alternative for its precedence symbol.
    [bounded n u]: every count of [u] is between 0 and [n]. *)
Definition refersTo (p : ptr) (a : Alternative) : Prop :=
  (exists r, In (Some r) (RHS a) /\ Sym r = Some p) \/ PrecSym a = Some p.

Definition occurs (b : Builder) (p : ptr) : Prop :=
  exists r lhs a, In (Some r) (Rules (g b)) /\ LHS r = Some lhs
    /\ is_Some (store b !! lhs) /\ In (Some a) (Alternatives r) /\ refersTo p a.

Definition hasRule (b : Builder) (p : ptr) : Prop :=
  exists r, In (Some r) (Rules (g b)) /\ LHS r = Some p.

Definition altRefs (a : option Alternative) : Z :=
  match a with
  | Some a => Z.of_nat (length (RHS a)) + 1
  | None => 0
  end.

Definition altsRefs (alts : list (option Alternative)) : Z :=
  foldr (fun a n => altRefs a + n) 0 alts.

Definition ruleRefs (r : option Rule) : Z :=
  match r with
  | Some r => altsRefs (Alternatives r)
  | None => 0
  end.

Definition refTotal (rules : list (option Rule)) : Z :=
  foldr (fun r n => ruleRefs r + n) 0 rules.

Definition bounded (n : Z) (u : gmap nat Z) : Prop :=
  forall q, 0 <= getn u q <= n.

(** ** Reachability

    [derives b x y]: a rule of [x] names the nonterminal [y] on the RHS of
    an alternative. [reaches b x y]: a chain of such references leads from
    [x] to [y]. [edgesIn E e]: every edge of the map [e] is in the relation
    [E]. [marksIn R st]: every symbol the search has marked or stacked is in
    [R]. *)
Definition derives (b : Builder) (x y : ptr) : Prop :=
  exists r a ref sy, In (Some r) (Rules (g b)) /\ LHS r = Some x
    /\ In (Some a) (Alternatives r) /\ In (Some ref) (RHS a) /\ Sym ref = Some y
    /\ store b !! y = Some sy /\ Kind sy = SymNonterminal.

Definition reaches (b : Builder) : ptr -> ptr -> Prop := rtc (derives b).

Definition edgesIn (E : ptr -> ptr -> Prop) (e : gmap nat (gmap nat bool)) : Prop :=
  forall x y m v, e !! x = Some m -> m !! y = Some v -> E x y.

Definition marksIn (R : ptr -> Prop) (st : gmap nat bool * list nat) : Prop :=
  (forall x, getb st.1 x = true -> R x) /\ (forall x, In x st.2 -> R x).

(** ** The state of the sink

    [keepsTokens]: the names declared as tokens stay declared.
    [sinkFrame]: moreover the open rule and the heuristic switch are the
    same. [openLast]: the open rule, if any, is the last rule of the grammar,
    it is not finished, and [curLHS] is its LHS. *)
Definition keepsTokens (s s' : BuilderSink) : Prop :=
  forall n, declTokens s !! n = Some true -> declTokens s' !! n = Some true.

Definition sinkFrame (s s' : BuilderSink) : Prop :=
  curRule s' = curRule s /\ curLHS s' = curLHS s
  /\ UseHeuristicCapsAsTerminal s' = UseHeuristicCapsAsTerminal s
  /\ keepsTokens s s'.

Definition openLast (s : BuilderSink) : Prop :=
  match curRule s with
  | Some rb =>
      done rb = false
      /\ exists init r, Rules (g (B s)) = init ++ [Some r]
           /\ rule rb = Some (length init)
           /\ curLHS s = LHS r /\ is_Some (LHS r)
  | None => True
  end.

(** [tokenOK n s]: the name [n] is declared as a token and interned as a
    terminal. *)
Definition tokenOK (n : gostring) (s : BuilderSink) : Prop :=
  declTokens s !! n = Some true
  /\ exists p sy, SymbolsByName (g (B s)) !! n = Some p
       /\ store (B s) !! p = Some sy /\ Kind sy = SymTerminal.

(** [expr ::= foo] with the nonterminal [foo] without a rule, the terminal
    [BAR] and the nonterminal [baz] not used. *)
Definition undefinedBuilder : Builder :=
  run [OpIntern (runes "expr") SymNonterminal None;
       OpIntern (runes "foo") SymNonterminal None;
       OpIntern (runes "BAR") SymTerminal None;
       OpIntern (runes "baz") SymNonterminal None;
       OpBeginRule (Some 0%nat) None;
       OpAlt (Some {| rule := Some 0%nat; done := false |})
         [Some {| Sym := Some 1%nat; Label := []; RefAt := None |}] None None None]
    (NewBuilder []).

(** [expr ::= NUM.  orphan ::= NUM.]: the start symbol [expr] does not
    reach [orphan]. *)
Definition orphanBuilder : Builder :=
  run [OpIntern (runes "expr") SymNonterminal None;
       OpIntern (runes "NUM") SymTerminal None;
       OpIntern (runes "orphan") SymNonterminal None;
       OpBeginRule (Some 0%nat) None;
       OpAlt (Some {| rule := Some 0%nat; done := false |})
         [Some {| Sym := Some 1%nat; Label := []; RefAt := None |}] None None None;
       OpBeginRule (Some 2%nat) None;
       OpAlt (Some {| rule := Some 1%nat; done := false |})
         [Some {| Sym := Some 1%nat; Label := []; RefAt := None |}] None None None]
    (NewBuilder []).

(** The directives the sink passes through, and the key it stores them
    under. *)
Definition storedKind (d : Directive_) : Prop :=
  DKind d <> DirStartSymbol /\ DKind d <> DirToken /\ DKind d <> DirType
  /\ DKind d <> DirLeft /\ DKind d <> DirRight /\ DKind d <> DirNonassoc.

Definition storedKey (d : Directive_) : gostring :=
  if decide (DKind d = DirTokenType) then runes "token_type"
  else if decide (TrimSpace (Key d) = []) then runes "directive"
  else TrimSpace (Key d).

(** Two runs of operations, the second at odds with the first. *)
Definition sampleOps : list Op :=
  [OpIntern (runes "expr") SymNonterminal None;
   OpIntern (runes "PLUS") SymTerminal None;
   OpSetTypeTag (Some 0%nat) (runes "Expr") None;
   OpDefinePrecedenceGroup AssocLeft [Some 1%nat] None;
   OpBeginRule (Some 0%nat) None;
   OpSetDirective (runes "token_type") (runes "int") None;
   OpError None "oops" []].

Definition laterOps : list Op :=
  [OpSetTypeTag (Some 0%nat) (runes "int") None;
   OpDefinePrecedenceGroup AssocRight [Some 1%nat] None;
   OpIntern (runes " expr ") SymTerminal None;
   OpAlt (Some {| rule := Some 0%nat; done := false |}) [] None None None;
   OpBeginRule None None;
   OpFinalize].

Definition sampleBuilder : Builder := run sampleOps (NewBuilder []).

(** ** Histories of a builder

    The elementary changes the operations make to a builder. Every operation
    of the builder, and every handler of the sink, is a sequence of them
    (lemmas [apply_op_steps] and [handleAll_steps]). *)
Inductive atomic (b : Builder) : Builder -> Prop :=
| A_diag d :
    atomic b (set_diags (fun ds => ds ++ [d]) b)
| A_alloc name kind at_ :
    name <> [] -> TrimSpace name = name -> SymbolsByName (g b) !! name = None ->
    atomic b (internNamed name kind at_ b).2
| A_typetag p s t :
    store b !! p = Some s -> t <> [] -> ~ (TypeTag s <> [] /\ TypeTag s <> t) ->
    atomic b (set_store (fun h => <[p := with_TypeTag t s]> h) b)
| A_prec p s level assoc :
    store b !! p = Some s -> Kind s = SymTerminal -> Precedence s = 0 ->
    assoc <> AssocNone ->
    atomic b (set_store (fun h => <[p := with_Precedence level assoc s]> h) b)
| A_counter n :
    atomic b (set_precedenceCounter n b)
| A_start p s :
    store b !! p = Some s -> Kind s = SymNonterminal ->
    atomic b (set_g (set_Start (Some p)) b)
| A_rule lhs s at_ :
    store b !! lhs = Some s ->
    atomic b (set_g (set_Rules (fun rs =>
                rs ++ [Some {| LHS := Some lhs; Alternatives := []; RuleAt := at_ |}])) b)
| A_alt idx r a :
    Rules (g b) !! idx = Some (Some r) ->
    atomic b (set_g (set_Rules (fun rs => <[idx := Some (add_alternative a r)]> rs)) b)
| A_directive key value :
    key <> [] ->
    atomic b (set_g (set_Directives (fun m => <[key := value]> m)) b).

Definition steps : Builder -> Builder -> Prop := rtc atomic.

(** The symbols an operation is given are nil or symbols of the builder, and
    its rule builder is one of the builder's rules. *)
Definition ptr_ok (b : Builder) (sym : option ptr) : bool :=
  match sym with
  | Some p => bool_decide (p < length (store b))%nat
  | None => true
  end.

Definition ref_ok (b : Builder) (sr : option SymbolRef) : bool :=
  match sr with
  | Some r => ptr_ok b (Sym r)
  | None => true
  end.

Definition rb_ok (b : Builder) (rb : option RuleBuilder) : bool :=
  match rb with
  | Some {| rule := Some idx |} => bool_decide (idx < length (Rules (g b)))%nat
  | _ => true
  end.

Definition op_ok (b : Builder) (op : Op) : bool :=
  match op with
  | OpSetTypeTag sym _ _ | OpSetStart sym _ | OpBeginRule sym _ | OpNewRef sym _ _ =>
      ptr_ok b sym
  | OpDefinePrecedenceGroup _ terminals _ => forallb (ptr_ok b) terminals
  | OpAlt rb rhs _ prec _ => rb_ok b rb && forallb (ref_ok b) rhs && ptr_ok b prec
  | _ => true
  end.

Fixpoint run_ok (ops : list Op) (b : Builder) : bool :=
  match ops with
  | [] => true
  | op :: ops => op_ok b op && run_ok ops (apply_op b op)
  end.

(** [after b b']: [b'] is the builder that operations on [b], and events
    handled by sinks around it, make of [b], in any order. *)
Inductive after : Builder -> Builder -> Prop :=
| after_here b : after b b
| after_op b op b' : op_ok b op = true -> after (apply_op b op) b' -> after b b'
| after_event IsLetter ToUpper s e b' :
    after (B (handle IsLetter ToUpper s e)) b' -> after (B s) b'.

(** [built b]: [b] is a new builder after operations or events. *)
Definition built (b : Builder) : Prop := exists l, after (NewBuilder l) b.

(** What a history keeps: symbols stay where they are with their identity,
    and with their type tag and precedence once these are set; names stay
    bound; the symbols vector, the diagnostics, the rules and the
    alternatives of a rule only grow at their end; directive keys and the
    start symbol are not unset. *)
Record grows (b b' : Builder) : Prop := {
  grows_store : forall p s, store b !! p = Some s ->
    exists s', store b' !! p = Some s'
      /\ ID s' = ID s /\ Name s' = Name s /\ Kind s' = Kind s
      /\ DeclaredAt s' = DeclaredAt s
      /\ (TypeTag s <> [] -> TypeTag s' = TypeTag s)
      /\ (Precedence s <> 0 -> Precedence s' = Precedence s /\ Assoc s' = Assoc s);
  grows_names : forall n p,
    SymbolsByName (g b) !! n = Some p -> SymbolsByName (g b') !! n = Some p;
  grows_symbols : Symbols (g b) `prefix_of` Symbols (g b');
  grows_diags : diags b `prefix_of` diags b';
  grows_rules : forall i r, Rules (g b) !! i = Some r ->
    exists r', Rules (g b') !! i = Some r'
      /\ match r, r' with
         | Some r, Some r' =>
             LHS r' = LHS r /\ RuleAt r' = RuleAt r
             /\ Alternatives r `prefix_of` Alternatives r'
         | None, None => True
         | _, _ => False
         end;
  grows_directives : forall k,
    is_Some (Directives (g b) !! k) -> is_Some (Directives (g b') !! k);
  grows_start : is_Some (Start (g b)) -> is_Some (Start (g b'));
}.

(** What holds of every built grammar: each symbol is found under its name,
    which is trimmed and not empty;
    the symbols vector lists the store in order; the start symbol, if set, is
    a nonterminal; a precedence is carried by terminals only, with an
    associativity; every rule is there, with a LHS that is a symbol, and
    every alternative is there. *)
Record wellformed (b : Builder) : Prop := {
  wf_names : forall p s, store b !! p = Some s ->
    SymbolsByName (g b) !! Name s = Some p;
  wf_trimmed : forall p s, store b !! p = Some s ->
    Name s <> [] /\ TrimSpace (Name s) = Name s;
  wf_symbols : Symbols (g b) = seq 0 (length (store b));
  wf_start : forall p, Start (g b) = Some p ->
    exists s, store b !! p = Some s /\ Kind s = SymNonterminal;
  wf_prec : forall p s, store b !! p = Some s -> Precedence s <> 0 ->
    Kind s = SymTerminal /\ Assoc s <> AssocNone;
  wf_rules : forall i r, Rules (g b) !! i = Some r ->
    exists r0 lhs s, r = Some r0 /\ LHS r0 = Some lhs /\ store b !! lhs = Some s
      /\ Forall (fun a => is_Some a) (Alternatives r0);
}.

(** A diagnostic whose level and format are in a list. *)
Definition diagIn (L : list (DiagnosticLevel * string)) (d : Diagnostic) : Prop :=
  In (Level d, format (Msg d)) L.

(** The diagnostics of the loops of [Finalize] over symbols that are there. *)
Definition loopDiags : list (DiagnosticLevel * string) :=
  [(DiagError, "rule LHS %q must be a nonterminal");
   (DiagWarn, "rule %q has no alternatives");
   (DiagError, "rule %q has nil rhs symbol at position %d");
   (DiagError, "precedence override symbol %q must be a terminal");
   (DiagWarn, "precedence override uses %q, but it has no precedence (missing %%left/%%right/%%nonassoc?)");
   (DiagError, "nonterminal %q is used but has no rule");
   (DiagWarn, "nonterminal %q has rules but is unreachable from start symbol %q");
   (DiagWarn, "terminal %q is declared but never used");
   (DiagWarn, "nonterminal %q has rules but is never referenced (except as LHS)");
   (DiagWarn, "nonterminal %q is declared but never used and has no rules")]%string.

(** What [Finalize] can record on a built grammar. *)
Definition builtFinalizeDiags : list (DiagnosticLevel * string) :=
  [(DiagError, "grammar has no rules");
   (DiagError, "start symbol is not set and could not be inferred")]%string
  ++ loopDiags.

(** The level and format of every diagnostic [Finalize] can record. *)
Definition finalizeDiags : list (DiagnosticLevel * string) :=
  [(DiagError, "grammar has no rules");
   (DiagError, "start symbol is not set and could not be inferred");
   (DiagError, "start symbol %q must be a nonterminal");
   (DiagError, "rule has nil LHS");
   (DiagError, "rule LHS %q must be a nonterminal");
   (DiagWarn, "rule %q has no alternatives");
   (DiagError, "rule %q has a nil alternative");
   (DiagError, "rule %q has nil rhs symbol at position %d");
   (DiagError, "precedence override symbol %q must be a terminal");
   (DiagWarn, "precedence override uses %q, but it has no precedence (missing %%left/%%right/%%nonassoc?)");
   (DiagError, "nonterminal %q is used but has no rule");
   (DiagWarn, "nonterminal %q has rules but is unreachable from start symbol %q");
   (DiagWarn, "terminal %q is declared but never used");
   (DiagWarn, "nonterminal %q has rules but is never referenced (except as LHS)");
   (DiagWarn, "nonterminal %q is declared but never used and has no rules")]%string.

(** * Properties *)

(** ** White space trimming *)

Lemma TrimSpace_invalidName : TrimSpace invalidName = invalidName.
Proof. reflexivity. Qed.

Lemma invalidName_nonempty : invalidName <> [].
Proof. discriminate. Qed.

Lemma TrimLeft_head (s : list Z) :
  TrimLeft s = [] \/ exists r t, TrimLeft s = r :: t /\ IsSpace r = false.
Proof.
  induction s as [|r s IH]; simpl; [by left|].
  destruct (IsSpace r) eqn:E; [exact IH|].
  right. by exists r, s.
Qed.

Lemma TrimLeft_fixed (r : Z) (t : list Z) :
  IsSpace r = false -> TrimLeft (r :: t) = r :: t.
Proof. intros E. simpl. by rewrite E. Qed.

Lemma TrimLeft_suffix (s : list Z) : exists pre, s = pre ++ TrimLeft s.
Proof.
  induction s as [|r s [pre IH]]; simpl; [by exists []|].
  destruct (IsSpace r).
  - exists (r :: pre). simpl. by rewrite <- IH.
  - by exists [].
Qed.

Lemma TrimRight_prefix (s : list Z) : exists post, s = TrimRight s ++ post.
Proof.
  unfold TrimRight. destruct (TrimLeft_suffix (reverse s)) as [pre E].
  exists (reverse pre).
  rewrite <- reverse_app, <- E. by rewrite reverse_involutive.
Qed.

Lemma TrimRight_last (s : list Z) :
  TrimRight s = [] \/ exists t r, TrimRight s = t ++ [r] /\ IsSpace r = false.
Proof.
  unfold TrimRight.
  destruct (TrimLeft_head (reverse s)) as [E|(r & t & E & Hr)].
  - left. by rewrite E.
  - right. exists (reverse t), r. by rewrite E, reverse_cons.
Qed.

Lemma TrimRight_fixed (t : list Z) (r : Z) :
  IsSpace r = false -> TrimRight (t ++ [r]) = t ++ [r].
Proof.
  intros E. unfold TrimRight.
  rewrite reverse_app. simpl. rewrite E.
  change (r :: reverse t) with (reverse [r] ++ reverse t).
  by rewrite <- reverse_app, reverse_involutive.
Qed.

(** Trimming a trimmed string changes nothing. *)
Lemma TrimSpace_idemp (s : list Z) : TrimSpace (TrimSpace s) = TrimSpace s.
Proof.
  unfold TrimSpace.
  destruct (TrimRight_last (TrimLeft s)) as [E|(t & r & E & Hr)].
  - by rewrite E.
  - rewrite E.
    assert (Hl : TrimLeft (t ++ [r]) = t ++ [r]).
    { destruct (TrimLeft_head s) as [E0|(r0 & t0 & E0 & Hr0)].
      - rewrite E0 in E. by destruct t.
      - destruct (TrimRight_prefix (TrimLeft s)) as [post Hp].
        rewrite E, E0 in Hp.
        destruct t as [|x t]; simpl in *.
        + injection Hp as -> _. by rewrite Hr0.
        + injection Hp as -> _. by rewrite Hr0. }
    rewrite Hl. by apply TrimRight_fixed.
Qed.

(** ** Frames of the operations *)

Lemma diagsBy_refl P b : diagsBy P b b.
Proof. repeat split. exists []. by rewrite app_nil_r. Qed.

Lemma diagsBy_trans P b1 b2 b3 : diagsBy P b1 b2 -> diagsBy P b2 b3 -> diagsBy P b1 b3.
Proof.
  intros (Hs & Hg & Hc & n1 & Hd & F1) (Hs' & Hg' & Hc' & n2 & Hd' & F2).
  repeat split; try congruence.
  exists (n1 ++ n2). split; [by rewrite Hd', Hd, app_assoc | by apply Forall_app].
Qed.

Lemma diagsBy_weaken (P Q : Diagnostic -> Prop) b b' :
  (forall d, P d -> Q d) -> diagsBy P b b' -> diagsBy Q b b'.
Proof.
  intros HPQ (Hs & Hg & Hc & n & Hd & F). repeat split; try done.
  exists n. split; [done|]. eapply Forall_impl; eauto.
Qed.

Lemma error_diagsBy (P : Diagnostic -> Prop) at_ msg a b :
  P {| Level := DiagError; Msg := {| format := msg; args := a |}; At := at_ |} ->
  diagsBy P b (error at_ msg a b).
Proof. intros HP. repeat split. eexists. split; [reflexivity|]. by constructor. Qed.

Lemma warn_diagsBy (P : Diagnostic -> Prop) at_ msg a b :
  P {| Level := DiagWarn; Msg := {| format := msg; args := a |}; At := at_ |} ->
  diagsBy P b (warn at_ msg a b).
Proof. intros HP. repeat split. eexists. split; [reflexivity|]. by constructor. Qed.

Lemma foldl_diagsBy {A} P (f : Builder -> A -> Builder) (l : list A) :
  (forall b x, diagsBy P b (f b x)) -> forall b, diagsBy P b (foldl f b l).
Proof.
  intros Hf. induction l as [|x l IH]; intros b; simpl.
  - apply diagsBy_refl.
  - eapply diagsBy_trans; [apply Hf | apply IH].
Qed.

Lemma error_diagsOnly at_ msg a b : diagsOnly b (error at_ msg a b).
Proof. by apply error_diagsBy. Qed.

Lemma warn_diagsOnly at_ msg a b : diagsOnly b (warn at_ msg a b).
Proof. by apply warn_diagsBy. Qed.

Lemma diagsOnly_refl b : diagsOnly b b.
Proof. apply diagsBy_refl. Qed.

Lemma diagsOnly_trans b1 b2 b3 : diagsOnly b1 b2 -> diagsOnly b2 b3 -> diagsOnly b1 b3.
Proof. apply diagsBy_trans. Qed.

Lemma stable_refl b : stable b b.
Proof. repeat split; eauto. Qed.

Lemma stable_trans b1 b2 b3 : stable b1 b2 -> stable b2 b3 -> stable b1 b3.
Proof.
  intros (H1 & H2 & H3 & H4) (H1' & H2' & H3' & H4').
  repeat split; try congruence.
  intros p s Hp. destruct (H4 p s Hp) as (s' & Hs' & ? & ? & ?).
  destruct (H4' p s' Hs') as (s'' & Hs'' & ? & ? & ?).
  exists s''. repeat split; congruence.
Qed.

Lemma diagsOnly_stable b b' : diagsOnly b b' -> stable b b'.
Proof.
  intros (Hs & Hg & _ & _). unfold stable. rewrite Hs, Hg.
  repeat split; eauto.
Qed.

Lemma foldl_stable {A} (f : Builder -> A -> Builder) (l : list A) :
  (forall b x, stable b (f b x)) -> forall b, stable b (foldl f b l).
Proof.
  intros Hf. induction l as [|x l IH]; intros b; simpl.
  - apply stable_refl.
  - eapply stable_trans; [apply Hf | apply IH].
Qed.

(** Overwriting a symbol by one of the same identity, name and kind. *)
Lemma update_stable b p s s' :
  store b !! p = Some s -> ID s' = ID s -> Name s' = Name s -> Kind s' = Kind s ->
  stable b (set_store (fun h => <[p := s']> h) b).
Proof.
  intros Hp Hi Hn Hk. repeat split; simpl.
  - by rewrite length_insert.
  - intros q t Hq. destruct (decide (p = q)) as [->|Hne].
    + exists s'. rewrite list_lookup_insert_eq by (by eapply lookup_lt_Some).
      repeat split; congruence.
    + exists t. by rewrite list_lookup_insert_ne.
Qed.

Lemma with_g_stable b f :
  Symbols (f (g b)) = Symbols (g b) ->
  SymbolsByName (f (g b)) = SymbolsByName (g b) ->
  stable b (set_g f b).
Proof. intros H1 H2. repeat split; simpl; eauto. Qed.

Lemma SetTypeTag_stable sym typeTag at_ b : stable b (SetTypeTag sym typeTag at_ b).
Proof.
  unfold SetTypeTag. destruct sym as [p|]; [|apply stable_refl].
  case_decide; [apply stable_refl|].
  destruct (store b !! p) as [s|] eqn:Hp; [|apply stable_refl].
  case_decide.
  - apply diagsOnly_stable, error_diagsOnly.
  - by eapply update_stable.
Qed.

Lemma SetStart_stable sym at_ b : stable b (SetStart sym at_ b).
Proof.
  unfold SetStart. destruct sym as [p|]; [|apply stable_refl].
  destruct (store b !! p) as [s|] eqn:Hp; [|apply stable_refl].
  case_decide; [apply diagsOnly_stable, error_diagsOnly|].
  eapply stable_trans; [|by apply with_g_stable].
  destruct (Start (g b)) as [old|]; [|apply stable_refl].
  case_decide; [|apply stable_refl].
  destruct (store b !! old); [|apply stable_refl].
  apply diagsOnly_stable, warn_diagsOnly.
Qed.

Lemma precedenceStep_stable assoc level at_ b t :
  stable b (precedenceStep assoc level at_ b t).
Proof.
  unfold precedenceStep. destruct t as [p|]; [|apply stable_refl].
  destruct (store b !! p) as [s|] eqn:Hp; [|apply stable_refl].
  case_decide; [apply diagsOnly_stable, error_diagsOnly|].
  case_decide; [apply diagsOnly_stable, warn_diagsOnly|].
  by eapply update_stable.
Qed.

Lemma DefinePrecedenceGroup_stable assoc terminals at_ b :
  stable b (DefinePrecedenceGroup assoc terminals at_ b).
Proof.
  unfold DefinePrecedenceGroup.
  case_decide; [apply diagsOnly_stable, error_diagsOnly|].
  eapply stable_trans; [|apply foldl_stable; intros; apply precedenceStep_stable].
  repeat split; eauto.
Qed.

Lemma checkRHS_diagsOnly at_ rhs : forall i b, diagsOnly b (checkRHS at_ i rhs b).
Proof.
  induction rhs as [|sr rhs IH]; intros i b; simpl; [apply diagsOnly_refl|].
  eapply diagsOnly_trans; [|apply IH].
  destruct sr as [r|]; [destruct (Sym r)|];
    first [apply diagsOnly_refl | apply error_diagsOnly].
Qed.

Lemma Alt_stable rb rhs action prec at_ b : stable b (Alt rb rhs action prec at_ b).
Proof.
  unfold Alt. destruct rb as [rb|]; [|apply stable_refl].
  destruct (done rb); [apply stable_refl|].
  destruct (rule rb) as [idx|]; [|apply stable_refl].
  pose proof (checkRHS_diagsOnly at_ rhs 0 b) as H0.
  set (b0 := checkRHS at_ 0 rhs b) in *.
  assert (H1 : exists pr b1,
    match prec with
    | Some p =>
        match store b0 !! p with
        | Some s =>
            if decide (Kind s <> SymTerminal)
            then (None, error at_ "precedence override symbol %q must be a terminal"
                          [ArgS (Name s)] b0)
            else (Some p, b0)
        | None => (Some p, b0)
        end
    | None => (None, b0)
    end = (pr, b1) /\ diagsOnly b0 b1).
  { destruct prec as [p|]; [destruct (store b0 !! p) as [s|]; [case_decide|]|];
      eexists _, _; split; try reflexivity;
      first [apply diagsOnly_refl | apply error_diagsOnly]. }
  destruct H1 as (pr & b1 & -> & H1).
  eapply stable_trans; [apply diagsOnly_stable; eapply diagsOnly_trans; eauto|].
  by apply with_g_stable.
Qed.

Lemma SetDirective_stable key value at_ b : stable b (SetDirective key value at_ b).
Proof.
  unfold SetDirective. case_decide; [apply diagsOnly_stable, error_diagsOnly|].
  eapply stable_trans; [|by apply with_g_stable].
  destruct (Directives (g b) !! _); [apply diagsOnly_stable, warn_diagsOnly|apply stable_refl].
Qed.

(** ** [Finalize] records diagnostics and nothing else *)

Ltac finalize_diag :=
  first
    [ apply diagsBy_refl
    | apply error_diagsBy; split; intros ?; discriminate
    | apply warn_diagsBy; split; intros _; [simpl; tauto | reflexivity] ].

Lemma lhsStep_diagsBy st r : diagsBy finalizeDiag st.1 (lhsStep st r).1.
Proof.
  destruct st as [b m]. unfold lhsStep. simpl.
  destruct r as [r|]; [|finalize_diag].
  destruct (LHS r) as [p|]; [|finalize_diag].
  destruct (store b !! p) as [s|]; [|finalize_diag].
  simpl. case_decide; finalize_diag.
Qed.

Lemma foldl_lhsStep_diagsBy rules : forall st,
  diagsBy finalizeDiag st.1 (foldl lhsStep st rules).1.
Proof.
  induction rules as [|r rules IH]; intros st; simpl; [finalize_diag|].
  eapply diagsBy_trans; [apply lhsStep_diagsBy | apply IH].
Qed.

Lemma rhsLoop_diagsBy lhs lhsName altAt rhs : forall pos st,
  diagsBy finalizeDiag (vb st) (vb (rhsLoop lhs lhsName altAt pos rhs st)).
Proof.
  induction rhs as [|sr rhs IH]; intros pos st; simpl; [finalize_diag|].
  eapply diagsBy_trans; [|apply IH].
  destruct sr as [r|]; [|finalize_diag].
  destruct (Sym r) as [p|]; [|finalize_diag].
  destruct (store (vb st) !! p); finalize_diag.
Qed.

Lemma altStep_diagsBy lhs lhsName ruleAt st alt :
  diagsBy finalizeDiag (vb st) (vb (altStep lhs lhsName ruleAt st alt)).
Proof.
  unfold altStep. destruct alt as [a|]; [|finalize_diag].
  pose proof (rhsLoop_diagsBy lhs lhsName (AltAt a) (RHS a) 0 st) as H.
  set (st1 := rhsLoop _ _ _ _ _ _) in *.
  destruct (PrecSym a) as [p|]; [|exact H].
  destruct (store (vb st1) !! p) as [s|]; [|exact H].
  eapply diagsBy_trans; [exact H|]. simpl.
  repeat case_decide; finalize_diag.
Qed.

Lemma foldl_altStep_diagsBy lhs lhsName ruleAt alts : forall st,
  diagsBy finalizeDiag (vb st) (vb (foldl (altStep lhs lhsName ruleAt) st alts)).
Proof.
  induction alts as [|a alts IH]; intros st; simpl; [finalize_diag|].
  eapply diagsBy_trans; [apply altStep_diagsBy | apply IH].
Qed.

Lemma ruleStep_diagsBy st r : diagsBy finalizeDiag (vb st) (vb (ruleStep st r)).
Proof.
  unfold ruleStep. destruct r as [r|]; [|finalize_diag].
  destruct (LHS r) as [lhs|]; [|finalize_diag].
  destruct (store (vb st) !! lhs) as [s|]; [|finalize_diag].
  destruct (Alternatives r) as [|a alts]; [simpl; finalize_diag|].
  apply (foldl_altStep_diagsBy lhs (Name s) (RuleAt r) (a :: alts)
           {| vb := vb st; used := used st; edges := _ |}).
Qed.

Lemma foldl_ruleStep_diagsBy rules : forall st,
  diagsBy finalizeDiag (vb st) (vb (foldl ruleStep st rules)).
Proof.
  induction rules as [|r rules IH]; intros st; simpl; [finalize_diag|].
  eapply diagsBy_trans; [apply ruleStep_diagsBy | apply IH].
Qed.

Lemma undefinedStep_diagsBy m b kv : diagsBy finalizeDiag b (undefinedStep m b kv).
Proof.
  unfold undefinedStep. destruct kv as [sym n].
  case_decide; [finalize_diag|].
  destruct (store b !! sym); [|finalize_diag].
  case_decide; finalize_diag.
Qed.

Lemma unreachableStep_diagsBy m startName b kv :
  diagsBy finalizeDiag b (unreachableStep m startName b kv).
Proof.
  unfold unreachableStep. destruct (getb m kv.1); [finalize_diag|].
  destruct (store b !! kv.1); finalize_diag.
Qed.

Lemma unusedStep_diagsBy u m b sym : diagsBy finalizeDiag b (unusedStep u m b sym).
Proof.
  unfold unusedStep. destruct (store b !! sym); [|finalize_diag].
  repeat case_decide; try finalize_diag.
  destruct (getb m sym); finalize_diag.
Qed.

(** [Finalize] in two phases: up to the loop over the productions, and the
    checks after it. *)
Lemma Finalize_phases b r0 rules :
  Rules (g b) = r0 :: rules ->
  exists b2,
    diagsBy finalizeDiag b b2
    /\ diagsBy finalizeDiag
         (vb (foldl ruleStep {| vb := b2; used := ∅; edges := ∅ |} (Rules (g b))))
         (Finalize b).
Proof.
  intros HR. unfold Finalize. rewrite HR. rewrite <- HR.
  set (b1 := match Start (g b) with Some _ => _ | None => _ end).
  assert (H1 : diagsBy finalizeDiag b b1).
  { unfold b1. destruct (Start (g b)) as [p|]; [|finalize_diag].
    destruct (store b !! p); [|finalize_diag]. case_decide; finalize_diag. }
  pose proof (foldl_lhsStep_diagsBy (Rules (g b1)) (b1, ∅)) as H2.
  destruct (foldl lhsStep (b1, ∅) (Rules (g b1))) as [b2 lhsHasRule]. simpl in H2.
  exists b2. split; [by eapply diagsBy_trans|].
  assert (Hg : Rules (g b2) = Rules (g b)).
  { destruct H1 as (_ & Hg1 & _). destruct H2 as (_ & Hg2 & _). congruence. }
  rewrite Hg.
  set (st := foldl ruleStep _ (Rules (g b))) in *.
  pose proof (foldl_diagsBy finalizeDiag (undefinedStep lhsHasRule)
                (map_to_list (used st)) (undefinedStep_diagsBy lhsHasRule) (vb st)) as H4.
  set (b4 := foldl (undefinedStep lhsHasRule) (vb st) _) in *.
  set (b5 := match Start (g b4) with Some _ => _ | None => _ end).
  assert (H5 : diagsBy finalizeDiag b4 b5).
  { unfold b5. destruct (Start (g b4)) as [p|]; [|finalize_diag].
    destruct (store b4 !! p) as [s|]; [|finalize_diag].
    case_decide; [|finalize_diag].
    destruct (reachLoop _ _ _ _) as [reachable stk].
    apply foldl_diagsBy. intros. apply unreachableStep_diagsBy. }
  pose proof (foldl_diagsBy finalizeDiag (unusedStep (used st) lhsHasRule)
                (Symbols (g b5)) (unusedStep_diagsBy _ _) b5) as H6.
  repeat (eapply diagsBy_trans; [eassumption|]).
  apply diagsBy_refl.
Qed.

Lemma Finalize_diagsBy b : diagsBy finalizeDiag b (Finalize b).
Proof.
  destruct (Rules (g b)) as [|r0 rules] eqn:HR.
  - unfold Finalize. rewrite HR. finalize_diag.
  - destruct (Finalize_phases b r0 rules HR) as (b2 & H1 & H2).
    eapply diagsBy_trans; [exact H1|].
    eapply diagsBy_trans; [|exact H2].
    apply (foldl_ruleStep_diagsBy (Rules (g b)) {| vb := b2; used := ∅; edges := ∅ |}).
Qed.

Lemma Finalize_stable b : stable b (Finalize b).
Proof.
  apply diagsOnly_stable. eapply diagsBy_weaken; [|apply Finalize_diagsBy]. done.
Qed.

(** ** Invariants of the symbol table *)

Lemma stable_dense b b' : stable b b' -> dense b -> dense b'.
Proof.
  intros (H1 & _ & _ & H4) Hd i p Hi. rewrite H1 in Hi.
  destruct (Hd i p Hi) as (s & Hs & Hid).
  destruct (H4 p s Hs) as (s' & Hs' & Hid' & _). exists s'. split; congruence.
Qed.

Lemma stable_table_ok b b' : stable b b' -> table_ok b -> table_ok b'.
Proof.
  intros (_ & H2 & _ & H4) [Hn He]. split; rewrite H2; [|done].
  intros name p Hp. destruct (Hn name p Hp) as (s & Hs & Hname).
  destruct (H4 p s Hs) as (s' & Hs' & _ & Hname' & _). exists s'. split; congruence.
Qed.

(** What [internNamed] does, by cases on the by-name table. *)
Lemma internNamed_found name kind at_ b p s :
  SymbolsByName (g b) !! name = Some p -> store b !! p = Some s ->
  internNamed name kind at_ b =
    (p, if decide (Kind s <> kind)
        then error at_ "symbol %q previously declared as %s, cannot redeclare as %s"
               [ArgS name; ArgS (kindString (Kind s)); ArgS (kindString kind)] b
        else b).
Proof. intros H1 H2. unfold internNamed. rewrite H1, H2. by case_decide. Qed.

Lemma internNamed_fresh name kind at_ b :
  SymbolsByName (g b) !! name = None ->
  internNamed name kind at_ b =
    (length (store b),
     set_g (add_symbol name (length (store b)))
       (set_store (fun h => h ++ [{| ID := Z.of_nat (length (Symbols (g b)));
                                     Name := name; Kind := kind; TypeTag := [];
                                     Precedence := 0; Assoc := AssocNone;
                                     DeclaredAt := at_ |}]) b)).
Proof. intros H1. unfold internNamed. by rewrite H1. Qed.

Lemma internNamed_dense name kind at_ b :
  dense b -> dense (internNamed name kind at_ b).2.
Proof.
  intros Hd. unfold internNamed.
  destruct (SymbolsByName (g b) !! name) as [p|] eqn:Hp.
  - destruct (store b !! p) as [s|]; [case_decide|]; exact Hd.
  - simpl. intros i q Hi. simpl in Hi.
    apply lookup_app_Some in Hi as [Hi|[Hlen Hi]].
    + destruct (Hd i q Hi) as (s & Hs & Hid). exists s. split; [|done].
      by apply lookup_app_l_Some.
    + apply list_lookup_singleton_Some in Hi as [Hi <-].
      eexists. split.
      * simpl. rewrite lookup_app_r by lia. by rewrite Nat.sub_diag.
      * simpl. f_equal. lia.
Qed.

Lemma internNamed_table_ok name kind at_ b :
  name <> [] -> table_ok b -> table_ok (internNamed name kind at_ b).2.
Proof.
  intros Hne Ht. unfold internNamed.
  destruct (SymbolsByName (g b) !! name) as [p|] eqn:Hp.
  - destruct (store b !! p) as [s|]; [case_decide|]; simpl; try exact Ht.
    eapply stable_table_ok; [apply diagsOnly_stable, error_diagsOnly|done].
  - destruct Ht as [Hn He]. split; simpl.
    + intros n q Hq. destruct (decide (name = n)) as [->|Hnn].
      * rewrite lookup_insert_eq in Hq. injection Hq as <-.
        eexists. split.
        { simpl. rewrite lookup_app_r by lia. by rewrite Nat.sub_diag. }
        reflexivity.
      * rewrite lookup_insert_ne in Hq by done.
        destruct (Hn n q Hq) as (s & Hs & Hname). exists s. split; [|done].
        by apply lookup_app_l_Some.
    + by rewrite lookup_insert_ne.
Qed.

(** [BeginRule] and [NewRef] after their call of [internDummy]. *)
Lemma BeginRule_stable_after lhs at_ b :
  stable (match lhs with Some p => (p, b) | None => internDummy at_ b end).2
         (BeginRule lhs at_ b).2.
Proof.
  unfold BeginRule.
  destruct (match lhs with Some p => (p, b) | None => internDummy at_ b end)
    as [p b0]. simpl.
  destruct (store b0 !! p) as [s|]; [|apply stable_refl]. simpl.
  set (b1 := if decide (Kind s <> SymNonterminal) then _ else b0).
  assert (H1 : stable b0 b1).
  { unfold b1. case_decide; [apply diagsOnly_stable, error_diagsOnly|apply stable_refl]. }
  eapply stable_trans; [exact H1|].
  case_decide.
  - eapply stable_trans; [|by apply with_g_stable]. by apply with_g_stable.
  - by apply with_g_stable.
Qed.

Lemma NewRef_state sym label at_ b :
  (NewRef sym label at_ b).2 =
  (match sym with Some p => (p, b) | None => internDummy at_ b end).2.
Proof.
  unfold NewRef.
  by destruct (match sym with Some p => (p, b) | None => internDummy at_ b end).
Qed.

Lemma internNamed_counted name kind at_ b :
  counted b -> counted (internNamed name kind at_ b).2.
Proof.
  intros Hc. unfold internNamed.
  destruct (SymbolsByName (g b) !! name) as [p|] eqn:Hp.
  - destruct (store b !! p) as [s|]; [case_decide|]; exact Hc.
  - destruct Hc as [H1 H2]. split; simpl.
    + rewrite map_size_insert_None by done. rewrite length_app. simpl. lia.
    + rewrite !length_app. simpl. lia.
Qed.

Lemma stable_counted b b' : stable b b' -> counted b -> counted b'.
Proof. intros (H1 & H2 & H3 & _) [Hc1 Hc2]. split; congruence. Qed.

(** A property of builders that [stable] steps and the interning of a
    non-empty name preserve is an invariant of all operations. *)
Section Invariant.

Variable I : Builder -> Prop.
Hypothesis I_stable : forall b b', stable b b' -> I b -> I b'.
Hypothesis I_internNamed :
  forall name kind at_ b, name <> [] -> I b -> I (internNamed name kind at_ b).2.

Lemma internDummy_inv at_ b : I b -> I (internDummy at_ b).2.
Proof.
  intros Hb. unfold internDummy.
  destruct (SymbolsByName (g b) !! invalidName); [done|].
  by apply I_internNamed.
Qed.

Lemma Intern_inv name kind at_ b : I b -> I (Intern name kind at_ b).2.
Proof.
  intros Hb. unfold Intern. case_decide.
  - apply internDummy_inv.
    eapply I_stable; [apply diagsOnly_stable, error_diagsOnly|done].
  - by apply I_internNamed.
Qed.

Lemma apply_op_inv b op : I b -> I (apply_op b op).
Proof.
  intros Hb. destruct op; simpl.
  - by apply Intern_inv.
  - eapply I_stable; [apply SetTypeTag_stable|done].
  - eapply I_stable; [apply SetStart_stable|done].
  - eapply I_stable; [apply DefinePrecedenceGroup_stable|done].
  - eapply I_stable; [apply BeginRule_stable_after|].
    destruct lhs; [done|by apply internDummy_inv].
  - eapply I_stable; [apply Alt_stable|done].
  - rewrite NewRef_state. destruct sym; [done|by apply internDummy_inv].
  - eapply I_stable; [apply SetDirective_stable|done].
  - eapply I_stable; [apply diagsOnly_stable, error_diagsOnly|done].
  - eapply I_stable; [apply diagsOnly_stable, warn_diagsOnly|done].
  - eapply I_stable; [apply Finalize_stable|done].
Qed.

Lemma run_inv ops : forall b, I b -> I (run ops b).
Proof.
  induction ops as [|op ops IH]; intros b Hb; simpl; [done|].
  apply IH. by apply apply_op_inv.
Qed.

End Invariant.

Lemma internDummy_table_ok at_ b : table_ok b -> table_ok (internDummy at_ b).2.
Proof. apply internDummy_inv. intros. by apply internNamed_table_ok. Qed.

Lemma apply_op_dense b op : dense b -> dense (apply_op b op).
Proof.
  apply apply_op_inv; [apply stable_dense|].
  intros. by apply internNamed_dense.
Qed.

Lemma apply_op_table_ok b op : table_ok b -> table_ok (apply_op b op).
Proof.
  apply apply_op_inv; [apply stable_table_ok|].
  intros. by apply internNamed_table_ok.
Qed.

Lemma apply_op_counted b op : counted b -> counted (apply_op b op).
Proof.
  apply apply_op_inv; [apply stable_counted|].
  intros. by apply internNamed_counted.
Qed.

Lemma NewBuilder_dense l : dense (NewBuilder l).
Proof. intros i p Hi. simpl in Hi. by rewrite lookup_nil in Hi. Qed.

Lemma NewBuilder_table_ok l : table_ok (NewBuilder l).
Proof. split; simpl; [intros name p Hp; by rewrite lookup_empty in Hp|done]. Qed.

Lemma NewBuilder_counted l : counted (NewBuilder l).
Proof. split; simpl; [by rewrite map_size_empty|done]. Qed.

Lemma run_dense ops b : dense b -> dense (run ops b).
Proof.
  apply run_inv; [apply stable_dense|]. intros. by apply internNamed_dense.
Qed.

Lemma run_table_ok ops b : table_ok b -> table_ok (run ops b).
Proof.
  apply run_inv; [apply stable_table_ok|]. intros. by apply internNamed_table_ok.
Qed.

Lemma run_counted ops b : counted b -> counted (run ops b).
Proof.
  apply run_inv; [apply stable_counted|]. intros. by apply internNamed_counted.
Qed.

(** The symbols vector only grows, at its end. *)
Lemma internNamed_Symbols_prefix name kind at_ b :
  Symbols (g b) `prefix_of` Symbols (g (internNamed name kind at_ b).2).
Proof.
  unfold internNamed.
  destruct (SymbolsByName (g b) !! name) as [p|].
  - destruct (store b !! p); [case_decide|]; done.
  - simpl. by apply prefix_app_r.
Qed.

Lemma internDummy_Symbols_prefix at_ b :
  Symbols (g b) `prefix_of` Symbols (g (internDummy at_ b).2).
Proof.
  unfold internDummy. destruct (SymbolsByName (g b) !! invalidName); [done|].
  apply internNamed_Symbols_prefix.
Qed.

Lemma stable_Symbols_prefix b b' :
  stable b b' -> Symbols (g b) `prefix_of` Symbols (g b').
Proof. intros (-> & _). done. Qed.

Lemma apply_op_Symbols_prefix b op :
  Symbols (g b) `prefix_of` Symbols (g (apply_op b op)).
Proof.
  destruct op; simpl; try done;
    try (apply stable_Symbols_prefix;
         first [ apply SetTypeTag_stable | apply SetStart_stable
               | apply DefinePrecedenceGroup_stable | apply Alt_stable
               | apply SetDirective_stable | apply Finalize_stable
               | apply diagsOnly_stable, error_diagsOnly
               | apply diagsOnly_stable, warn_diagsOnly ]).
  - unfold Intern. case_decide; [|apply internNamed_Symbols_prefix].
    apply (internDummy_Symbols_prefix at_ (error at_ _ [] b)).
  - etrans; [|apply stable_Symbols_prefix, BeginRule_stable_after].
    destruct lhs; [done|apply internDummy_Symbols_prefix].
  - rewrite NewRef_state. destruct sym; [done|apply internDummy_Symbols_prefix].
Qed.

(** C9. After every sequence of builder operations the symbol IDs are dense:
    for every index [i] below the number [N] of interned symbols,
    [g.Symbols[i]] is a symbol whose [ID] is [i]; [N] is the length of
    [g.Symbols] and the number of entries of the by-name table. Every
    operation preserves this, and it only appends to [g.Symbols], so the IDs
    follow the order of interning: a name that is new gets the next ID,
    [N]. *)
Theorem dense_ids (l : list Z) (ops : list Op) :
  let b := run ops (NewBuilder l) in
  (forall i : nat, (i < length (Symbols (g b)))%nat ->
     exists p s, Symbols (g b) !! i = Some p /\ store b !! p = Some s
                 /\ ID s = Z.of_nat i)
  /\ size (SymbolsByName (g b)) = length (Symbols (g b))
  /\ (forall op, dense (apply_op b op)
                 /\ Symbols (g b) `prefix_of` Symbols (g (apply_op b op)))
  /\ (forall name kind at_,
        TrimSpace name <> [] -> Lookup name b = None ->
        let r := Intern name kind at_ b in
        Symbols (g r.2) = Symbols (g b) ++ [r.1]
        /\ exists s, store r.2 !! r.1 = Some s
                     /\ ID s = Z.of_nat (length (Symbols (g b)))).
Proof.
  intros b.
  assert (Hd : dense b) by apply run_dense, NewBuilder_dense.
  assert (Hc : counted b) by apply run_counted, NewBuilder_counted.
  split; [|split; [|split]].
  - intros i Hi. destruct (lookup_lt_is_Some_2 _ _ Hi) as [p Hp].
    destruct (Hd i p Hp) as (s & Hs & Hid). by exists p, s.
  - apply Hc.
  - intros op. split; [by apply apply_op_dense|apply apply_op_Symbols_prefix].
  - intros name kind at_ Hne Hl r. unfold r, Intern.
    rewrite decide_False by done. unfold Lookup in Hl.
    rewrite internNamed_fresh by done. simpl. split; [done|].
    eexists. split.
    { rewrite lookup_app_r by lia. by rewrite Nat.sub_diag. }
    reflexivity.
Qed.

(** ** Interning *)

Lemma internDummy_found at_ b p :
  SymbolsByName (g b) !! invalidName = Some p -> internDummy at_ b = (p, b).
Proof. intros H. unfold internDummy. by rewrite H. Qed.

Lemma internDummy_lookup at_ b :
  SymbolsByName (g (internDummy at_ b).2) !! invalidName = Some (internDummy at_ b).1.
Proof.
  unfold internDummy.
  destruct (SymbolsByName (g b) !! invalidName) as [p|] eqn:Hp; [done|].
  rewrite internNamed_fresh by done. simpl.
  by rewrite TrimSpace_invalidName, lookup_insert_eq.
Qed.

Lemma Intern_existing_or_empty_name b name kind at_ :
  table_ok b -> TrimSpace name = [] ->
  exists s, store (Intern name kind at_ b).2 !! (Intern name kind at_ b).1 = Some s
            /\ Name s = invalidName.
Proof.
  intros [Hn He] E. unfold Intern. rewrite decide_True by done.
  unfold internDummy. simpl.
  destruct (SymbolsByName (g b) !! invalidName) as [p|] eqn:Hp.
  - destruct (Hn _ _ Hp) as (s & Hs & Hname). by exists s.
  - rewrite internNamed_fresh by done. simpl. eexists. split.
    { rewrite lookup_app_r by lia. by rewrite Nat.sub_diag. }
    done.
Qed.

(** C3. In a builder reached by any sequence of operations: if the name
    (trimmed, as [Lookup] reads it) is already interned, [Intern] returns the
    existing symbol and leaves the store and the grammar as they are; it
    records nothing when the kinds agree and exactly one error-level
    diagnostic when the requested kind differs. If the name is empty after
    trimming, [Intern] records an error-level diagnostic and returns a symbol
    named [<invalid>]. *)
Theorem Intern_existing_or_sentinel (l : list Z) (ops : list Op)
    (name : list Z) (kind : Z) (at_ : option Span) :
  let b := run ops (NewBuilder l) in
  let r := Intern name kind at_ b in
  (forall p, Lookup name b = Some p ->
     exists s, store b !! p = Some s
       /\ r.1 = p /\ store r.2 = store b /\ g r.2 = g b
       /\ (Kind s = kind -> diags r.2 = diags b)
       /\ (Kind s <> kind ->
           diags r.2 = diags b ++
             [{| Level := DiagError;
                 Msg := {| format := "symbol %q previously declared as %s, cannot redeclare as %s";
                           args := [ArgS (TrimSpace name); ArgS (kindString (Kind s));
                                    ArgS (kindString kind)] |};
                 At := at_ |}]))
  /\ (TrimSpace name = [] ->
      exists s, store r.2 !! r.1 = Some s /\ Name s = invalidName
        /\ diags r.2 = diags b ++
             [{| Level := DiagError;
                 Msg := {| format := "symbol name is empty"; args := [] |};
                 At := at_ |}]).
Proof.
  intros b r.
  assert (Ht : table_ok b) by apply run_table_ok, NewBuilder_table_ok.
  destruct Ht as [Hn He]. split.
  - intros p Hp. unfold Lookup in Hp.
    destruct (Hn _ _ Hp) as (s & Hs & Hname). exists s. split; [done|].
    assert (Hne : TrimSpace name <> []) by (intros E; rewrite E in Hp; congruence).
    unfold r, Intern. rewrite decide_False by done.
    rewrite (internNamed_found _ _ _ _ _ _ Hp Hs). simpl.
    case_decide; repeat split; try done; intros; congruence.
  - intros E. unfold r, Intern. rewrite decide_True by done.
    unfold internDummy. simpl.
    destruct (SymbolsByName (g b) !! invalidName) as [p|] eqn:Hp.
    + destruct (Hn _ _ Hp) as (s & Hs & Hname). by exists s.
    + rewrite internNamed_fresh by done. simpl. eexists. split.
      { rewrite lookup_app_r by lia. by rewrite Nat.sub_diag. }
      done.
Qed.

(** C10. [Intern] and [Lookup] trim the name before they consult or update
    the by-name table. Two spellings with the same trimmed form, interned one
    after the other, yield the same symbol, and [Lookup] does not tell them
    apart. When the trimmed form is not empty, the table holds the symbol
    under the trimmed name, and the symbol's [Name] is the trimmed
    spelling. A name that is empty after trimming is no name: it takes the
    error path of C3, nothing is stored under it, and both spellings yield
    the symbol [<invalid>]. *)
Theorem Intern_trims (l : list Z) (ops : list Op) (n1 n2 : list Z) (k1 k2 : Z)
    (a1 a2 : option Span) :
  TrimSpace n1 = TrimSpace n2 ->
  let b := run ops (NewBuilder l) in
  let r1 := Intern n1 k1 a1 b in
  let r2 := Intern n2 k2 a2 r1.2 in
  r2.1 = r1.1
  /\ Lookup n2 r1.2 = Lookup n1 r1.2
  /\ Lookup n1 b = Lookup (TrimSpace n1) b
  /\ (TrimSpace n1 <> [] ->
      Lookup n2 r1.2 = Some r1.1
      /\ SymbolsByName (g r1.2) = <[TrimSpace n1 := r1.1]> (SymbolsByName (g b))
      /\ exists s, store r1.2 !! r1.1 = Some s /\ Name s = TrimSpace n1)
  /\ (TrimSpace n1 = [] ->
      Lookup n2 r1.2 = None
      /\ exists s, store r1.2 !! r1.1 = Some s /\ Name s = invalidName).
Proof.
  intros E b r1 r2.
  assert (Ht : table_ok b) by apply run_table_ok, NewBuilder_table_ok.
  destruct Ht as [Hn He].
  assert (HL : Lookup n2 r1.2 = Lookup n1 r1.2) by (unfold Lookup; by rewrite E).
  assert (HI : Lookup n1 b = Lookup (TrimSpace n1) b)
    by (unfold Lookup; by rewrite TrimSpace_idemp).
  assert (Ht1 : table_ok r1.2).
  { apply (apply_op_table_ok b (OpIntern n1 k1 a1)). by split. }
  refine (conj _ (conj HL (conj HI (conj _ _)))); clear HL HI.
  - unfold r2, r1, Intern. rewrite <- E.
    destruct (decide (TrimSpace n1 = [])) as [E0|Hne].
    + by rewrite (internDummy_found a2
                    (error a2 "symbol name is empty" []
                       (internDummy a1 (error a1 "symbol name is empty" [] b)).2) _
                    (internDummy_lookup a1 (error a1 "symbol name is empty" [] b))).
    + destruct (SymbolsByName (g b) !! TrimSpace n1) as [p|] eqn:Hp.
      * destruct (Hn _ _ Hp) as (s & Hs & Hname).
        rewrite (internNamed_found _ _ _ _ _ _ Hp Hs). simpl.
        set (b1 := if decide (Kind s <> k1) then _ else b).
        assert (Hb1 : store b1 = store b /\ g b1 = g b) by (unfold b1; by case_decide).
        destruct Hb1 as [Hst Hg].
        assert (Hp1 : SymbolsByName (g b1) !! TrimSpace n1 = Some p) by (by rewrite Hg).
        assert (Hs1 : store b1 !! p = Some s) by (by rewrite Hst).
        rewrite (internNamed_found _ _ _ _ _ _ Hp1 Hs1). reflexivity.
      * rewrite (internNamed_fresh _ k1 a1 b Hp). simpl.
        unfold internNamed. simpl. rewrite lookup_insert_eq.
        rewrite lookup_app_r by lia. rewrite Nat.sub_diag. simpl.
        by case_decide.
  - intros Hne. unfold Lookup, r1, Intern. rewrite <- E.
    rewrite decide_False by done.
    destruct (SymbolsByName (g b) !! TrimSpace n1) as [p|] eqn:Hp.
    + destruct (Hn _ _ Hp) as (s & Hs & Hname).
      rewrite (internNamed_found _ _ _ _ _ _ Hp Hs). simpl.
      set (b1 := if decide (Kind s <> k1) then _ else b).
      assert (Hb1 : store b1 = store b /\ g b1 = g b) by (unfold b1; by case_decide).
      destruct Hb1 as [Hst Hg]. rewrite Hg, Hst.
      repeat split; [done|by rewrite insert_id|by exists s].
    + rewrite internNamed_fresh by done. simpl.
      repeat split; [by rewrite lookup_insert_eq|].
      eexists. split.
      { rewrite lookup_app_r by lia. by rewrite Nat.sub_diag. }
      reflexivity.
  - intros E0. split.
    + unfold Lookup. rewrite <- E, E0. apply Ht1.
    + destruct (Intern_existing_or_empty_name b n1 k1 a1 (Build_table_ok b Hn He) E0)
        as (s & Hs & Hname). by exists s.
Qed.

Lemma Intern_trims_witness :
  TrimSpace (runes " expr") = TrimSpace (runes "expr  ")
  /\ (Intern (runes "expr  ") SymNonterminal None
        (Intern (runes " expr") SymNonterminal None
           (run [] (NewBuilder []))).2).1
     = (Intern (runes " expr") SymNonterminal None (run [] (NewBuilder []))).1.
Proof.
  split; [reflexivity|].
  apply (Intern_trims [] [] (runes " expr") (runes "expr  ")
           SymNonterminal SymNonterminal None None).
  reflexivity.
Defined.

(** ** Type tags *)

(** C6, as the code has it. [SetTypeTag] reads its tag after trimming white
    space. For a symbol whose [TypeTag] is set (not empty), a tag that after
    trimming is not empty and differs from it records one error-level
    diagnostic and changes no symbol: the first assignment wins. A tag that
    trims to the one already set records no diagnostic and the tag stays. On
    a symbol without a tag the first tag that is not empty after trimming is
    stored, trimmed, in the symbol's [TypeTag], its other fields as before;
    a tag that is empty after trimming is ignored. *)
Theorem SetTypeTag_first_wins (b : Builder) (p : nat) (s : Symbol)
    (typeTag : list Z) (at_ : option Span) :
  store b !! p = Some s ->
  let t := TrimSpace typeTag in
  let b' := SetTypeTag (Some p) typeTag at_ b in
  (t <> [] -> TypeTag s <> [] -> TypeTag s <> t ->
     store b' = store b
     /\ diags b' = diags b ++
          [{| Level := DiagError;
              Msg := {| format := "symbol %q already has type %q; cannot set to %q";
                        args := [ArgS (Name s); ArgS (TypeTag s); ArgS t] |};
              At := at_ |}])
  /\ (TypeTag s = t ->
      diags b' = diags b
      /\ exists s', store b' !! p = Some s' /\ TypeTag s' = TypeTag s)
  /\ (t <> [] -> TypeTag s = [] ->
      diags b' = diags b
      /\ exists s', store b' !! p = Some s' /\ TypeTag s' = t
           /\ ID s' = ID s /\ Name s' = Name s /\ Kind s' = Kind s
           /\ Precedence s' = Precedence s /\ Assoc s' = Assoc s
           /\ DeclaredAt s' = DeclaredAt s)
  /\ (t = [] -> b' = b).
Proof.
  intros Hp t b'. unfold b', SetTypeTag. fold t. rewrite Hp.
  assert (Hlt : (p < length (store b))%nat) by (by eapply lookup_lt_Some).
  split; [|split; [|split]]; [| | |intros Ht; by rewrite decide_True].
  - intros Ht Hs Hne. rewrite decide_False by done.
    by rewrite decide_True by done.
  - intros Heq. case_decide; [by eauto|].
    rewrite decide_False by (intros [_ H']; congruence). simpl.
    split; [done|]. eexists. split; [by apply list_lookup_insert_eq|].
    by simpl.
  - intros Ht Hs. rewrite decide_False by done.
    rewrite decide_False by (intros [H' _]; congruence). simpl.
    split; [done|]. exists (with_TypeTag t s).
    split; [by apply list_lookup_insert_eq|]. by repeat split.
Qed.

Lemma SetTypeTag_first_wins_witness :
  let b0 := (Intern (runes "expr") SymNonterminal None (NewBuilder [])).2 in
  let b := SetTypeTag (Some 0%nat) (runes " int ") None b0 in
  (exists s', store b !! 0%nat = Some s' /\ TypeTag s' = runes "int"
     /\ Name s' = runes "expr")
  /\ HasErrors (SetTypeTag (Some 0%nat) (runes "Expr*") None b) = true
  /\ (TypeTag <$> store (SetTypeTag (Some 0%nat) (runes "Expr*") None b) !! 0%nat)
     = Some (runes "int")
  /\ diags (SetTypeTag (Some 0%nat) (runes "int") None b) = [].
Proof.
  intros b0 b.
  assert (Hp0 : store b0 !! 0%nat = Some
            {| ID := 0; Name := runes "expr"; Kind := SymNonterminal;
               TypeTag := []; Precedence := 0; Assoc := AssocNone;
               DeclaredAt := None |}) by reflexivity.
  assert (Hp : store b !! 0%nat = Some
            {| ID := 0; Name := runes "expr"; Kind := SymNonterminal;
               TypeTag := runes "int"; Precedence := 0; Assoc := AssocNone;
               DeclaredAt := None |}) by reflexivity.
  destruct (SetTypeTag_first_wins b0 0%nat _ (runes " int ") None Hp0) as (_ & _ & H0 & _).
  destruct (SetTypeTag_first_wins b 0%nat _ (runes "Expr*") None Hp) as (H1 & _).
  destruct (SetTypeTag_first_wins b 0%nat _ (runes "int") None Hp) as (_ & H2 & _).
  destruct H0 as (_ & s' & Hs' & Ht' & _ & Hn' & _); [discriminate|reflexivity|].
  destruct H1 as [Hst Hd]; [discriminate|discriminate|discriminate|].
  destruct H2 as [Hd2 _]; [reflexivity|].
  split; [|split; [|split]].
  - exists s'. split; [exact Hs'|]. split; [exact Ht'|exact Hn'].
  - unfold HasErrors. rewrite Hd. reflexivity.
  - rewrite Hst. reflexivity.
  - rewrite Hd2. reflexivity.
Defined.

(** C6 fails as written for a tag that differs from the tag already set only
    by white space around it, and for a tag of white space: both are not
    empty and differ from the tag [int] of the symbol, and [SetTypeTag]
    records no diagnostic for them. *)
Lemma SetTypeTag_padded_tag_no_error :
  let b := SetTypeTag (Some 0%nat) (runes "int") None
             (Intern (runes "expr") SymNonterminal None (NewBuilder [])).2 in
  (TypeTag <$> store b !! 0%nat) = Some (runes "int")
  /\ runes " int " <> [] /\ runes " int " <> runes "int"
  /\ diags (SetTypeTag (Some 0%nat) (runes " int ") None b) = []
  /\ runes "  " <> [] /\ runes "  " <> runes "int"
  /\ diags (SetTypeTag (Some 0%nat) (runes "  ") None b) = [].
Proof. repeat split; vm_compute; first [reflexivity|discriminate]. Qed.

(** ** Precedence groups *)

Lemma wrapInt_small z : - 2 ^ 63 <= z <= MaxInt -> wrapInt z = z.
Proof.
  unfold wrapInt, MaxInt. intros H.
  rewrite Z.mod_small by lia. lia.
Qed.

Ltac counter_frame :=
  repeat first
    [ reflexivity
    | progress simpl
    | case_decide
    | match goal with
      | |- context [match ?x with _ => _ end] => destruct x
      end ].

Lemma internNamed_counter name kind at_ b :
  precedenceCounter (internNamed name kind at_ b).2 = precedenceCounter b.
Proof. unfold internNamed. counter_frame. Qed.

Lemma internDummy_counter at_ b :
  precedenceCounter (internDummy at_ b).2 = precedenceCounter b.
Proof.
  unfold internDummy. destruct (SymbolsByName (g b) !! invalidName); [done|].
  apply internNamed_counter.
Qed.

Lemma Intern_counter name kind at_ b :
  precedenceCounter (Intern name kind at_ b).2 = precedenceCounter b.
Proof.
  unfold Intern. case_decide; [|apply internNamed_counter].
  by rewrite internDummy_counter.
Qed.

Lemma precedenceStep_counter assoc level at_ b t :
  precedenceCounter (precedenceStep assoc level at_ b t) = precedenceCounter b.
Proof. unfold precedenceStep. counter_frame. Qed.

Lemma precedenceLoop_counter assoc level at_ ts : forall b,
  precedenceCounter (foldl (precedenceStep assoc level at_) b ts) = precedenceCounter b.
Proof.
  induction ts as [|t ts IH]; intros b; simpl; [done|].
  by rewrite IH, precedenceStep_counter.
Qed.

Lemma checkRHS_counter at_ rhs : forall i b,
  precedenceCounter (checkRHS at_ i rhs b) = precedenceCounter b.
Proof.
  intros i b. exact (proj1 (proj2 (proj2 (checkRHS_diagsOnly at_ rhs i b)))).
Qed.

Lemma apply_op_counter b op :
  precedenceCounter (apply_op b op) =
    if declaresGroup op then wrapInt (precedenceCounter b + 1)
    else precedenceCounter b.
Proof.
  destruct op; simpl.
  - apply Intern_counter.
  - unfold SetTypeTag. counter_frame.
  - unfold SetStart. counter_frame.
  - unfold DefinePrecedenceGroup. case_decide.
    + by rewrite bool_decide_eq_false_2 by (intros H'; by apply H').
    + rewrite bool_decide_eq_true_2 by done. by rewrite precedenceLoop_counter.
  - unfold BeginRule. destruct lhs as [p|].
    + counter_frame.
    + pose proof (internDummy_counter at_ b) as H.
      destruct (internDummy at_ b) as [p b0]. simpl in H. rewrite <- H.
      counter_frame.
  - unfold Alt. destruct rb as [rb|]; [|done].
    destruct (done rb); [done|]. destruct (rule rb); [|done].
    rewrite <- (checkRHS_counter at_ rhs 0 b).
    generalize (checkRHS at_ 0 rhs b). intros b0.
    destruct prec as [p|]; [destruct (store b0 !! p) as [s|]; [case_decide|]|];
      reflexivity.
  - rewrite NewRef_state. destruct sym; [done|apply internDummy_counter].
  - unfold SetDirective. counter_frame.
  - done.
  - done.
  - exact (proj1 (proj2 (proj2 (Finalize_diagsBy b)))).
Qed.

Lemma groups_cons op ops :
  groups (op :: ops) = ((if declaresGroup op then 1 else 0) + groups ops)%nat.
Proof.
  unfold groups. rewrite filter_cons.
  destruct (declaresGroup op).
  - rewrite decide_True by exact I. reflexivity.
  - rewrite decide_False by (intros []). reflexivity.
Qed.

(** Below [MaxInt] the counter is the number of groups declared so far. *)
Lemma run_counter ops : forall b,
  0 <= precedenceCounter b ->
  precedenceCounter b + Z.of_nat (groups ops) <= MaxInt ->
  precedenceCounter (run ops b) = precedenceCounter b + Z.of_nat (groups ops).
Proof.
  induction ops as [|op ops IH]; intros b H0 Hmax.
  - simpl. unfold groups. simpl. lia.
  - rewrite groups_cons in Hmax |- *. simpl.
    pose proof (apply_op_counter b op) as Hc.
    destruct (declaresGroup op).
    + rewrite wrapInt_small in Hc by (unfold MaxInt in *; lia).
      rewrite IH; lia.
    + rewrite IH; lia.
Qed.

Lemma precedenceStep_other assoc level at_ b t p s :
  store b !! p = Some s ->
  t <> Some p \/ Precedence s <> 0 \/ Kind s <> SymTerminal ->
  store (precedenceStep assoc level at_ b t) !! p = Some s.
Proof.
  intros Hp Hc. unfold precedenceStep. destruct t as [q|]; [|done].
  destruct (store b !! q) as [sq|] eqn:Hq; [|done].
  case_decide; [done|]. case_decide; [done|]. simpl.
  destruct (decide (q = p)) as [->|Hne].
  - rewrite Hp in Hq. injection Hq as <-. destruct Hc as [?|[?|?]]; congruence.
  - by rewrite list_lookup_insert_ne.
Qed.

Lemma precedenceStep_assign assoc level at_ b p s :
  store b !! p = Some s -> Kind s = SymTerminal -> Precedence s = 0 ->
  store (precedenceStep assoc level at_ b (Some p)) !! p
    = Some (with_Precedence level assoc s).
Proof.
  intros Hp Hk H0. unfold precedenceStep. rewrite Hp.
  rewrite decide_False by (intros H'; by apply H').
  rewrite decide_False by (intros H'; by apply H'). simpl.
  apply list_lookup_insert_eq. by eapply lookup_lt_Some.
Qed.

Lemma precedenceStep_warn assoc level at_ b p s :
  store b !! p = Some s -> Kind s = SymTerminal -> Precedence s <> 0 ->
  diags (precedenceStep assoc level at_ b (Some p)) = diags b ++
    [{| Level := DiagWarn;
        Msg := {| format := "terminal %q already has precedence %d; ignoring new precedence %d";
                  args := [ArgS (Name s); ArgD (Precedence s); ArgD level] |};
        At := at_ |}].
Proof.
  intros Hp Hk H0. unfold precedenceStep. rewrite Hp.
  rewrite decide_False by (intros H'; by apply H').
  by rewrite decide_True by done.
Qed.

Lemma precedenceStep_diags assoc level at_ b t d :
  In d (diags b) -> In d (diags (precedenceStep assoc level at_ b t)).
Proof.
  intros Hd. unfold precedenceStep. destruct t as [q|]; [|done].
  destruct (store b !! q); [|done].
  repeat case_decide; simpl; try done; apply in_or_app; by left.
Qed.

Lemma precedenceLoop_diags assoc level at_ ts d : forall b,
  In d (diags b) -> In d (diags (foldl (precedenceStep assoc level at_) b ts)).
Proof.
  induction ts as [|t ts IH]; intros b Hd; simpl; [done|].
  by apply IH, precedenceStep_diags.
Qed.

Lemma precedenceLoop_other assoc level at_ ts p s : forall b,
  store b !! p = Some s ->
  ~ In (Some p) ts \/ Precedence s <> 0 \/ Kind s <> SymTerminal ->
  store (foldl (precedenceStep assoc level at_) b ts) !! p = Some s.
Proof.
  induction ts as [|t ts IH]; intros b Hp Hc; simpl; [done|].
  apply IH.
  - apply precedenceStep_other; [done|].
    destruct Hc as [Hc|[Hc|Hc]]; eauto. left. intros ->. apply Hc. by left.
  - destruct Hc as [Hc|[Hc|Hc]]; eauto. left. intros H'. apply Hc. by right.
Qed.

Lemma precedenceLoop_assign assoc level at_ ts p s :
  level <> 0 -> Kind s = SymTerminal -> Precedence s = 0 ->
  forall b, store b !! p = Some s -> In (Some p) ts ->
  store (foldl (precedenceStep assoc level at_) b ts) !! p
    = Some (with_Precedence level assoc s).
Proof.
  intros Hl Hk H0. induction ts as [|t ts IH]; intros b Hp Hin; [done|]. simpl.
  destruct (decide (t = Some p)) as [->|Hne].
  - apply precedenceLoop_other; [by apply precedenceStep_assign|].
    right. left. done.
  - apply IH.
    + apply precedenceStep_other; eauto.
    + destruct Hin as [Hin|Hin]; [done|exact Hin].
Qed.

Lemma precedenceLoop_warn assoc level at_ ts p s :
  Kind s = SymTerminal -> Precedence s <> 0 ->
  forall b, store b !! p = Some s -> In (Some p) ts ->
  In {| Level := DiagWarn;
        Msg := {| format := "terminal %q already has precedence %d; ignoring new precedence %d";
                  args := [ArgS (Name s); ArgD (Precedence s); ArgD level] |};
        At := at_ |}
     (diags (foldl (precedenceStep assoc level at_) b ts)).
Proof.
  intros Hk H0. induction ts as [|t ts IH]; intros b Hp Hin; [done|]. simpl.
  destruct (decide (t = Some p)) as [->|Hne].
  - apply precedenceLoop_diags.
    rewrite (precedenceStep_warn _ _ _ _ _ _ Hp Hk H0).
    apply in_or_app. right. by left.
  - apply IH.
    + apply precedenceStep_other; eauto.
    + destruct Hin as [Hin|Hin]; [done|exact Hin].
Qed.

(** C4. In a builder reached by a sequence of operations that declared
    [N - 1] precedence groups (calls of [DefinePrecedenceGroup] with an
    associativity), the next group is the [N]th: for each listed terminal
    whose precedence is 0 the stored symbol afterwards has [Precedence] [N]
    and [Assoc] the associativity of the group, its other fields as before;
    and it skips a listed terminal whose precedence is not 0 with a warning,
    leaving the symbol, with its precedence and associativity, as it was.
    [N] stays below the largest [int]. *)
Theorem precedence_group_levels (l : list Z) (ops : list Op) (assoc : Z)
    (terminals : list (option nat)) (at_ : option Span) :
  let b := run ops (NewBuilder l) in
  let N := Z.of_nat (groups ops) + 1 in
  assoc <> AssocNone -> N <= MaxInt ->
  let b' := DefinePrecedenceGroup assoc terminals at_ b in
  precedenceCounter b' = N
  /\ forall p s, In (Some p) terminals -> store b !! p = Some s ->
       Kind s = SymTerminal ->
       (Precedence s = 0 ->
          exists s', store b' !! p = Some s'
            /\ Precedence s' = N /\ Assoc s' = assoc
            /\ ID s' = ID s /\ Name s' = Name s /\ Kind s' = Kind s
            /\ TypeTag s' = TypeTag s /\ DeclaredAt s' = DeclaredAt s)
       /\ (Precedence s <> 0 ->
           store b' !! p = Some s
           /\ In {| Level := DiagWarn;
                    Msg := {| format := "terminal %q already has precedence %d; ignoring new precedence %d";
                              args := [ArgS (Name s); ArgD (Precedence s); ArgD N] |};
                    At := at_ |} (diags b')).
Proof.
  intros b N Ha HN b'.
  assert (Hc : precedenceCounter b = Z.of_nat (groups ops)).
  { unfold b. rewrite run_counter; simpl; lia. }
  unfold b', DefinePrecedenceGroup. rewrite decide_False by done. simpl.
  rewrite Hc, wrapInt_small by (unfold MaxInt in *; lia). fold N.
  split; [by rewrite precedenceLoop_counter|].
  intros p s Hin Hp Hk. split.
  - intros H0. exists (with_Precedence N assoc s). split.
    + apply precedenceLoop_assign; try done. lia.
    + by repeat split.
  - intros H0. split.
    + apply (precedenceLoop_other assoc N at_ terminals p s); [exact Hp|by right; left].
    + by apply (precedenceLoop_warn assoc N at_ terminals p s).
Qed.

Lemma precedence_group_levels_witness :
  let ops := [OpIntern (runes "PLUS") SymTerminal None;
              OpIntern (runes "TIMES") SymTerminal None;
              OpDefinePrecedenceGroup AssocLeft [Some 0%nat] None] in
  let b' := DefinePrecedenceGroup AssocRight [Some 0%nat; Some 1%nat] None
              (run ops (NewBuilder [])) in
  precedenceCounter b' = 2
  /\ (exists s', store b' !! 1%nat = Some s'
        /\ Precedence s' = 2 /\ Assoc s' = AssocRight /\ Name s' = runes "TIMES")
  /\ (exists s', store b' !! 0%nat = Some s'
        /\ Precedence s' = 1 /\ Assoc s' = AssocLeft /\ Name s' = runes "PLUS")
  /\ Level <$> diags b' = [DiagWarn].
Proof.
  intros ops b'.
  assert (Ha : AssocRight <> AssocNone) by discriminate.
  assert (HN : Z.of_nat (groups ops) + 1 <= MaxInt) by (vm_compute; discriminate).
  destruct (precedence_group_levels [] ops AssocRight [Some 0%nat; Some 1%nat] None Ha HN)
    as [Hc H].
  split; [exact Hc|]. split; [|split].
  - destruct (H 1%nat {| ID := 1; Name := runes "TIMES"; Kind := SymTerminal;
                         TypeTag := []; Precedence := 0; Assoc := AssocNone;
                         DeclaredAt := None |}) as [H1 _];
      [right; by left|reflexivity|reflexivity|].
    destruct H1 as (s' & Hs' & Hp' & Ha' & _ & Hn' & _); [reflexivity|].
    exists s'. split; [exact Hs'|]. split; [exact Hp'|]. split; [exact Ha'|exact Hn'].
  - destruct (H 0%nat {| ID := 0; Name := runes "PLUS"; Kind := SymTerminal;
                         TypeTag := []; Precedence := 1; Assoc := AssocLeft;
                         DeclaredAt := None |}) as [_ H2];
      [by left|reflexivity|reflexivity|].
    destruct H2 as [H2 _]; [discriminate|].
    eexists. split; [exact H2|]. by repeat split.
  - reflexivity.
Defined.

(** ** Validation *)

Lemma diagsBy_In P b b' d : diagsBy P b b' -> In d (diags b) -> In d (diags b').
Proof.
  intros (_ & _ & _ & new & -> & _) Hd. apply in_or_app. by left.
Qed.

(** The DFS of [Finalize] stops: each iteration pops one address, and what
    it pushes was unmarked before. *)
Lemma filter_unmarked_other (l : list nat) (m : gmap nat bool) (x : nat) :
  x ∉ l ->
  filter (fun z => negb (getb (<[x := true]> m) z)) l
    = filter (fun z => negb (getb m z)) l.
Proof.
  induction l as [|y l IH]; intros Hx; [done|].
  apply not_elem_of_cons in Hx as [Hne Hx]. rewrite !filter_cons.
  assert (E : getb (<[x := true]> m) y = getb m y)
    by (unfold getb; by rewrite lookup_insert_ne).
  rewrite E, IH by done. reflexivity.
Qed.

Lemma unmarked_insert (h : list Symbol) (m : gmap nat bool) (x : nat) :
  (x < length h)%nat -> getb m x = false ->
  S (unmarked h (<[x := true]> m)) = unmarked h m.
Proof.
  intros Hx Hm. unfold unmarked.
  assert (Hin : x ∈ seq 0 (length h)) by (apply elem_of_seq; lia).
  assert (Hnd : NoDup (seq 0 (length h))) by apply NoDup_seq.
  assert (H1 : getb (<[x := true]> m) x = true)
    by (unfold getb; by rewrite lookup_insert_eq).
  assert (H2 : forall y, y <> x -> getb (<[x := true]> m) y = getb m y)
    by (intros y Hy; unfold getb; by rewrite lookup_insert_ne).
  revert Hin Hnd. generalize (seq 0 (length h)). intros l.
  induction l as [|y l IH]; intros Hin Hnd; [by apply elem_of_nil in Hin|].
  apply NoDup_cons in Hnd as [Hy Hnd]. rewrite !filter_cons.
  destruct (decide (y = x)) as [->|Hne].
  - rewrite H1, Hm. simpl. f_equal. f_equal.
    by apply filter_unmarked_other.
  - apply elem_of_cons in Hin as [->|Hin]; [done|].
    rewrite (H2 y Hne). destruct (getb m y); simpl.
    + by apply IH.
    + f_equal. by apply IH.
Qed.

Lemma reachStep_measure h st kv :
  (unmarked h (reachStep h st kv).1 + length (reachStep h st kv).2
   = unmarked h st.1 + length st.2)%nat.
Proof.
  destruct st as [m stk]. unfold reachStep.
  destruct (h !! kv.1) as [s|] eqn:Hs; [|done].
  case_decide; [done|].
  destruct (getb m kv.1) eqn:Hm; [done|]. simpl.
  rewrite length_app. simpl.
  rewrite <- (unmarked_insert h m kv.1); [lia| |done].
  by eapply lookup_lt_Some.
Qed.

Lemma reachInner_measure h l : forall st,
  (unmarked h (foldl (reachStep h) st l).1 + length (foldl (reachStep h) st l).2
   = unmarked h st.1 + length st.2)%nat.
Proof.
  induction l as [|kv l IH]; intros st; simpl; [done|].
  by rewrite IH, reachStep_measure.
Qed.

Lemma reachLoop_enough_fuel fuel h e : forall st,
  (unmarked h st.1 + length st.2 <= fuel)%nat ->
  (reachLoop fuel h e st).2 = [].
Proof.
  induction fuel as [|fuel IH]; intros [m stk] Hm; simpl in *.
  - destruct stk; [done|simpl in Hm; lia].
  - destruct (last stk) as [nt|] eqn:Hl.
    + apply IH. rewrite reachInner_measure. simpl.
      rewrite length_take.
      assert (length stk <> 0%nat) by (by destruct stk).
      lia.
    + by apply last_None in Hl.
Qed.

(** At its call in [Finalize] the loop has fuel enough. *)
Lemma reachLoop_in_Finalize (h : list Symbol) (e : gmap nat (gmap nat bool))
    (p : nat) (s : Symbol) :
  h !! p = Some s ->
  (reachLoop (length h) h e (<[p := true]> ∅, [p])).2 = [].
Proof.
  intros Hp. apply reachLoop_enough_fuel. simpl.
  assert (Hlt : (p < length h)%nat) by (by eapply lookup_lt_Some).
  pose proof (unmarked_insert h ∅ p Hlt eq_refl) as H.
  assert (unmarked h ∅ <= length h)%nat; [|lia].
  unfold unmarked. etrans; [apply length_filter|]. by rewrite length_seq.
Qed.

(** C1, as the code has it. [Finalize] appends no augmentation rule: it
    leaves the store and the grammar (rules, symbols, start symbol) as they
    are and only records diagnostics. The finalized grammar has a rule
    [$accept -> S] only if the rules given to the builder had one. *)
Theorem Finalize_keeps_grammar (b : Builder) :
  g (Finalize b) = g b
  /\ store (Finalize b) = store b
  /\ Rules (g (Finalize b)) = Rules (g b)
  /\ augmented (Finalize b) = augmented b.
Proof.
  destruct (Finalize_diagsBy b) as (Hs & Hg & _).
  repeat split; try congruence.
  unfold augmented, isAcceptRule. by rewrite Hs, Hg.
Qed.

(** C1 fails on the grammar of [ExampleBuilder]: [Finalize] records no
    error, and the finalized grammar has no rule [$accept -> S]; its only
    rule is the one for [expr]. *)
Lemma Finalize_example_not_augmented :
  HasErrors (Finalize exampleBuilder) = false
  /\ augmented (Finalize exampleBuilder) = false
  /\ length (Rules (g (Finalize exampleBuilder))) = 1%nat
  /\ Lookup acceptName (Finalize exampleBuilder) = None.
Proof. repeat split; vm_compute; reflexivity. Qed.

(** C2, as the code has it. [Finalize] has no productivity check: each
    warning it records is one of the six of [finalizeWarnings] (rule without
    alternatives, precedence override without precedence, unreachable
    nonterminal, unused terminal, nonterminal with rules never referenced,
    nonterminal never used and without rules). *)
Theorem Finalize_warning_kinds (b : Builder) :
  exists new, diags (Finalize b) = diags b ++ new
    /\ forall d, In d new -> Level d = DiagWarn ->
         In (format (Msg d)) finalizeWarnings.
Proof.
  destruct (Finalize_diagsBy b) as (_ & _ & _ & new & Hd & HF).
  exists new. split; [done|]. intros d Hin Hl.
  rewrite Forall_forall in HF. apply HF; [by apply list_elem_of_In|done].
Qed.

(** C2 fails on [expr ::= NUM | loop. loop ::= loop.]: [loop] is not
    productive, and the only diagnostic of [Finalize] is about [expr]; none
    names [loop]. *)
Lemma Finalize_loop_not_reported :
  spec_nonProductive loopBuilder 2%nat
  /\ (Name <$> store loopBuilder !! 2%nat) = Some (runes "loop")
  /\ diags (Finalize loopBuilder) =
       [{| Level := DiagWarn;
           Msg := {| format := "nonterminal %q has rules but is never referenced (except as LHS)";
                     args := [ArgS (runes "expr")] |};
           At := None |}]
  /\ ~ exists d, In d (diags (Finalize loopBuilder))
                 /\ In (ArgS (runes "loop")) (args (Msg d)).
Proof.
  assert (Hd : diags (Finalize loopBuilder) =
       [{| Level := DiagWarn;
           Msg := {| format := "nonterminal %q has rules but is never referenced (except as LHS)";
                     args := [ArgS (runes "expr")] |};
           At := None |}]) by (vm_compute; reflexivity).
  split; [|split; [|split]].
  - split; [vm_compute; reflexivity|].
    assert (Hp : spec_productive loopBuilder = [0%nat]) by (vm_compute; reflexivity).
    rewrite Hp. intros H. apply list_elem_of_singleton in H. discriminate.
  - vm_compute; reflexivity.
  - exact Hd.
  - rewrite Hd. intros (d & [<-|[]] & Ha). simpl in Ha.
    destruct Ha as [Ha|[]]. vm_compute in Ha. discriminate.
Qed.

Lemma ruleStep_no_alternatives st r lhs s :
  LHS r = Some lhs -> store (vb st) !! lhs = Some s -> Alternatives r = [] ->
  diags (vb (ruleStep st (Some r))) = diags (vb st) ++
    [{| Level := DiagWarn;
        Msg := {| format := "rule %q has no alternatives"; args := [ArgS (Name s)] |};
        At := RuleAt r |}].
Proof. intros Hl Hs Ha. unfold ruleStep. by rewrite Hl, Hs, Ha. Qed.

(** C7, as the code has it. A rule without alternatives is reported by
    [Finalize] as a warning: the diagnostic [rule %q has no alternatives] at
    the rule's span, with level [DiagWarn]; and [Finalize] records no
    error-level diagnostic of that message. *)
Theorem Finalize_warns_no_alternatives (b : Builder) (r : Rule) (lhs : nat)
    (s : Symbol) :
  In (Some r) (Rules (g b)) -> LHS r = Some lhs -> store b !! lhs = Some s ->
  Alternatives r = [] ->
  In {| Level := DiagWarn;
        Msg := {| format := "rule %q has no alternatives"; args := [ArgS (Name s)] |};
        At := RuleAt r |} (diags (Finalize b))
  /\ exists new, diags (Finalize b) = diags b ++ new
       /\ forall d, In d new ->
            format (Msg d) = "rule %q has no alternatives"%string ->
            Level d = DiagWarn.
Proof.
  intros Hin Hl Hs Ha. split.
  - destruct (Rules (g b)) as [|r0 rules] eqn:HR; [done|].
    destruct (Finalize_phases b r0 rules HR) as (b2 & H1 & H2).
    eapply diagsBy_In; [exact H2|]. rewrite HR in *.
    apply in_split in Hin as (l1 & l2 & ->). rewrite foldl_app. cbn [foldl].
    set (st1 := foldl ruleStep _ l1).
    assert (Hst : store (vb st1) = store b).
    { destruct (foldl_ruleStep_diagsBy l1 {| vb := b2; used := ∅; edges := ∅ |})
        as (Hs1 & _). destruct H1 as (Hs0 & _). unfold st1. simpl in *. congruence. }
    eapply diagsBy_In; [apply foldl_ruleStep_diagsBy|].
    rewrite (ruleStep_no_alternatives st1 r lhs s); [| done | by rewrite Hst | done].
    apply in_or_app. right. by left.
  - destruct (Finalize_diagsBy b) as (_ & _ & _ & new & Hd & HF).
    exists new. split; [done|]. intros d Hd' Hf.
    rewrite Forall_forall in HF. by apply (HF d); [apply list_elem_of_In|].
Qed.

Lemma Finalize_warns_no_alternatives_witness :
  In {| Level := DiagWarn;
        Msg := {| format := "rule %q has no alternatives"; args := [ArgS (runes "a")] |};
        At := None |} (diags (Finalize emptyRuleBuilder)).
Proof.
  apply (Finalize_warns_no_alternatives emptyRuleBuilder
           {| LHS := Some 0%nat; Alternatives := []; RuleAt := None |} 0%nat
           {| ID := 0; Name := runes "a"; Kind := SymNonterminal; TypeTag := [];
              Precedence := 0; Assoc := AssocNone; DeclaredAt := None |}).
  - left. reflexivity.
  - reflexivity.
  - reflexivity.
  - reflexivity.
Defined.

(** C7 fails on a grammar whose single rule has no alternatives: [Finalize]
    records two warnings and no error. *)
Lemma Finalize_no_alternatives_not_error :
  Rules (g emptyRuleBuilder)
    = [Some {| LHS := Some 0%nat; Alternatives := []; RuleAt := None |}]
  /\ HasErrors (Finalize emptyRuleBuilder) = false
  /\ Level <$> diags (Finalize emptyRuleBuilder) = [DiagWarn; DiagWarn].
Proof. repeat split; vm_compute; reflexivity. Qed.

(** ** The sink drives the builder

    Every handler of the sink is a composition of builder operations: a
    relation between builders that is a preorder and holds of each operation
    holds of each handler. *)
Lemma SinkBeginRule_B lhs s :
  TrimSpace (SName lhs) <> [] ->
  B (SinkBeginRule lhs s) =
    let b0 :=
      match curRule s with
      | Some _ =>
          warn (SAt lhs)
            "begin rule while previous rule still open; closing previous rule" [] (B s)
      | None => B s
      end in
    let r := Intern (TrimSpace (SName lhs)) SymNonterminal (SAt lhs) b0 in
    let b2 :=
      match declTypes s !! TrimSpace (SName lhs) with
      | Some tag =>
          if decide (tag <> []) then SetTypeTag (Some r.1) tag (SAt lhs) r.2 else r.2
      | None => r.2
      end in
    (BeginRule (Some r.1) (SAt lhs) b2).2.
Proof.
  intros Hne. unfold SinkBeginRule, EnsureNonterminal.
  rewrite decide_False by done.
  destruct (curRule s); simpl;
    destruct (Intern _ _ _ _) as [sym b1]; simpl;
    (destruct (declTypes s !! _); [case_decide|]); simpl;
    destruct (BeginRule _ _ _) as [rb b3]; reflexivity.
Qed.

Lemma SinkBeginRule_empty lhs s :
  TrimSpace (SName lhs) = [] ->
  B (SinkBeginRule lhs s) =
    error (SAt lhs) "rule LHS is empty" []
      match curRule s with
      | Some _ =>
          warn (SAt lhs)
            "begin rule while previous rule still open; closing previous rule" [] (B s)
      | None => B s
      end.
Proof.
  intros He. unfold SinkBeginRule. rewrite decide_True by done.
  by destruct (curRule s).
Qed.


Section Handlers.

Variable IsLetter : Z -> bool.
Variable ToUpper : Z -> Z.
Variable R : Builder -> Builder -> Prop.

Hypothesis R_refl : forall b, R b b.
Hypothesis R_trans : forall b1 b2 b3, R b1 b2 -> R b2 b3 -> R b1 b3.
Hypothesis R_error : forall at_ msg a b, R b (error at_ msg a b).
Hypothesis R_warn : forall at_ msg a b, R b (warn at_ msg a b).
Hypothesis R_Intern : forall n k at_ b, R b (Intern n k at_ b).2.
Hypothesis R_internDummy : forall at_ b, R b (internDummy at_ b).2.
Hypothesis R_SetTypeTag : forall sym t at_ b, R b (SetTypeTag sym t at_ b).
Hypothesis R_DefinePrecedenceGroup :
  forall assoc ts at_ b, R b (DefinePrecedenceGroup assoc ts at_ b).
Hypothesis R_Alt : forall rb rhs act prec at_ b, R b (Alt rb rhs act prec at_ b).
Hypothesis R_SetDirective : forall k v at_ b, R b (SetDirective k v at_ b).

Ltac r_intern :=
  match goal with
  | |- context [Intern ?n ?k ?a ?b] =>
      let H := fresh "HI" in
      pose proof (R_Intern n k a b) as H;
      destruct (Intern n k a b) as [? ?]; simpl in H; cbv beta iota
  end.

Lemma foldl_R {A S} (proj : S -> Builder) (f : S -> A -> S) (l : list A) :
  (forall st x, R (proj st) (proj (f st x))) ->
  forall st, R (proj st) (proj (foldl f st l)).
Proof.
  intros Hf. induction l as [|x l IH]; intros st; simpl; [apply R_refl|].
  eapply R_trans; [apply Hf|apply IH].
Qed.

Lemma tokenStep_R s sr : R (B s) (B (tokenStep s sr)).
Proof.
  unfold tokenStep, EnsureTerminal. case_decide; [apply R_refl|]. simpl.
  apply R_Intern.
Qed.

Lemma typeStep_R t s sr : R (B s) (B (typeStep t s sr)).
Proof.
  unfold typeStep, EnsureNonterminal. case_decide; [apply R_refl|].
  r_intern. eapply R_trans; [exact HI|apply R_SetTypeTag].
Qed.

Lemma precListStep_R st sr : R (B st.1) (B (precListStep st sr).1).
Proof.
  destruct st as [s ts]. unfold precListStep, EnsureTerminal. simpl.
  case_decide; [apply R_refl|]. simpl. r_intern. exact HI.
Qed.

Lemma precFieldStep_R at_ st n : R (B st.1) (B (precFieldStep at_ st n).1).
Proof.
  destruct st as [s ts]. unfold precFieldStep, EnsureTerminal. simpl.
  r_intern. exact HI.
Qed.

Lemma NewRef_R sym label at_ b : R b (NewRef sym label at_ b).2.
Proof. rewrite NewRef_state. destruct sym; [apply R_refl|apply R_internDummy]. Qed.

Lemma resolveSymbolInRHS_R sr s :
  R (B s) (B (resolveSymbolInRHS IsLetter ToUpper sr s).2).
Proof.
  unfold resolveSymbolInRHS, EnsureTerminal, EnsureNonterminal.
  case_decide.
  - pose proof (R_internDummy (SAt sr)
                  (error (SAt sr) "rhs symbol name is empty" [] (B s))) as Hd.
    destruct (internDummy _ _) as [p b1]. simpl in *.
    eapply R_trans; [apply R_error|exact Hd].
  - destruct (default false _).
    + r_intern. exact HI.
    + destruct (Lookup _ _); [apply R_refl|].
      destruct (_ && _); r_intern; exact HI.
Qed.

Lemma altRefStep_R st sr : R (B st.1) (B (altRefStep IsLetter ToUpper st sr).1).
Proof.
  destruct st as [s rhs]. unfold altRefStep.
  pose proof (resolveSymbolInRHS_R sr s) as H1.
  destruct (resolveSymbolInRHS IsLetter ToUpper sr s) as [sym s1]. simpl in H1.
  set (s2 := if decide (STypeTag sr <> []) then _ else s1).
  assert (H2 : R (B s1) (B s2)).
  { unfold s2. case_decide; [apply R_SetTypeTag|apply R_refl]. }
  pose proof (NewRef_R (Some sym) (SLabel sr) (SAt sr) (B s2)) as H3.
  destruct (NewRef _ _ _ _) as [ref b3]. simpl in *.
  eapply R_trans; [exact H1|]. eapply R_trans; [exact H2|exact H3].
Qed.

Lemma Alternative_R alt s : R (B s) (B (Alternative_ IsLetter ToUpper alt s)).
Proof.
  unfold Alternative_.
  destruct (curRule s); [destruct (curLHS s)|]; try apply R_error.
  pose proof (foldl_R (fun st => B st.1) (altRefStep IsLetter ToUpper) (ARHS alt)
                (fun st x => altRefStep_R st x) (s, [])) as H1.
  destruct (foldl _ _ _) as [s1 rhs]. simpl in H1.
  eapply R_trans; [exact H1|].
  destruct (APrec alt) as [ps|].
  - case_decide.
    + simpl. eapply R_trans; [apply R_error|apply R_Alt].
    + unfold EnsureTerminal. simpl. r_intern.
      eapply R_trans; [exact HI|apply R_Alt].
  - apply R_Alt.
Qed.

Lemma storeDirective_R d s : R (B s) (B (storeDirective d s)).
Proof. unfold storeDirective. apply R_SetDirective. Qed.

(** The directives other than [%start_symbol]. *)
Lemma Directive_R d s : DKind d <> DirStartSymbol -> R (B s) (B (Directive d s)).
Proof.
  intros Hk. unfold Directive. rewrite decide_False by done.
  case_decide.
  { set (s1 := if decide (TrimSpace (Value d) <> []) then _ else s).
    assert (HA1 : R (B s) (B s1)).
    { unfold s1, EnsureTerminal. case_decide; [apply R_Intern|apply R_refl]. }
    eapply R_trans; [exact HA1|].
    apply (foldl_R B tokenStep). apply tokenStep_R. }
  case_decide.
  { case_decide; [apply R_error|].
    apply (foldl_R B (typeStep _)). apply typeStep_R. }
  case_decide; [apply R_SetDirective|].
  case_decide; [|apply storeDirective_R].
  pose proof (foldl_R (fun st => B st.1) precListStep (DList d) precListStep_R (s, [])) as HA1.
  destruct (foldl precListStep _ _) as [s1 ts1]. simpl in HA1.
  set (st2 := if decide (length ts1 = 0%nat) then _ else (s1, ts1)).
  assert (HA2 : R (B s1) (B st2.1)).
  { unfold st2. case_decide; [|apply R_refl].
    apply (foldl_R (fun st => B st.1) (precFieldStep (DAt d)) _ (precFieldStep_R (DAt d)) (s1, ts1)). }
  destruct st2 as [s2 ts2]. simpl in HA2.
  eapply R_trans; [exact HA1|]. eapply R_trans; [exact HA2|].
  case_decide; [apply R_error|apply R_DefinePrecedenceGroup].
Qed.

Lemma EndRule_R at_ s : R (B s) (B (EndRule at_ s)).
Proof. unfold EndRule. destruct (curRule s); apply R_refl. Qed.

Lemma ParserError_R at_ msg s : R (B s) (B (ParserError at_ msg s)).
Proof. apply R_error. Qed.


Hypothesis R_SetStart : forall sym at_ b, R b (SetStart sym at_ b).
Hypothesis R_BeginRule : forall lhs at_ b, R b (BeginRule lhs at_ b).2.

Lemma Directive_start_R d s : R (B s) (B (Directive d s)).
Proof.
  destruct (decide (DKind d = DirStartSymbol)) as [Hk|Hk]; [|by apply Directive_R].
  unfold Directive, EnsureNonterminal. rewrite decide_True by done.
  case_decide; [apply R_error|].
  r_intern. eapply R_trans; [exact HI|apply R_SetStart].
Qed.

Lemma SinkBeginRule_R lhs s : R (B s) (B (SinkBeginRule lhs s)).
Proof.
  destruct (decide (TrimSpace (SName lhs) = [])) as [He|Hne].
  - rewrite SinkBeginRule_empty by done.
    eapply R_trans; [|apply R_error].
    destruct (curRule s); [apply R_warn|apply R_refl].
  - rewrite SinkBeginRule_B by done. cbv zeta.
    set (b0 := match curRule s with Some _ => _ | None => B s end).
    assert (HA0 : R (B s) b0).
    { unfold b0. destruct (curRule s); [apply R_warn|apply R_refl]. }
    pose proof (R_Intern (TrimSpace (SName lhs)) SymNonterminal (SAt lhs) b0) as HA1.
    set (r := Intern _ _ _ b0) in *.
    set (b2 := match declTypes s !! _ with Some _ => _ | None => _ end).
    assert (HA2 : R r.2 b2).
    { unfold b2. destruct (_ !! _); [case_decide|];
        first [apply R_SetTypeTag|apply R_refl]. }
    eapply R_trans; [exact HA0|]. eapply R_trans; [exact HA1|].
    eapply R_trans; [exact HA2|apply R_BeginRule].
Qed.

Lemma handle_R s e : R (B s) (B (handle IsLetter ToUpper s e)).
Proof.
  destruct e; simpl.
  - apply Directive_start_R.
  - apply SinkBeginRule_R.
  - apply Alternative_R.
  - apply EndRule_R.
  - apply ParserError_R.
Qed.

Lemma handleAll_R evs : forall s, R (B s) (B (handleAll IsLetter ToUpper s evs)).
Proof.
  induction evs as [|e evs IH]; intros s; simpl; [apply R_refl|].
  eapply R_trans; [apply handle_R|apply IH].
Qed.

End Handlers.

(** ** Start symbol selection *)

Lemma handleAll_table_ok IsLetter ToUpper evs s :
  table_ok (B s) -> table_ok (B (handleAll IsLetter ToUpper s evs)).
Proof.
  apply (handleAll_R IsLetter ToUpper (fun b b' => table_ok b -> table_ok b')).
  - done.
  - intros b1 b2 b3 H1 H2 H. by apply H2, H1.
  - intros at_ msg a b. apply (apply_op_table_ok b (OpError at_ msg a)).
  - intros at_ msg a b. apply (apply_op_table_ok b (OpWarn at_ msg a)).
  - intros n k at_ b. apply (apply_op_table_ok b (OpIntern n k at_)).
  - intros at_ b. apply internDummy_table_ok.
  - intros sym t at_ b. apply (apply_op_table_ok b (OpSetTypeTag sym t at_)).
  - intros assoc ts at_ b.
    apply (apply_op_table_ok b (OpDefinePrecedenceGroup assoc ts at_)).
  - intros rb rhs act prec at_ b. apply (apply_op_table_ok b (OpAlt rb rhs act prec at_)).
  - intros k v at_ b. apply (apply_op_table_ok b (OpSetDirective k v at_)).
  - intros sym at_ b. apply (apply_op_table_ok b (OpSetStart sym at_)).
  - intros lhs at_ b. apply (apply_op_table_ok b (OpBeginRule lhs at_)).
Qed.
















(** ** Kind inference for RHS references *)

Section LooksLikeTerminal.

Variable IsLetter : Z -> bool.
Variable ToUpper : Z -> Z.

Lemma looksLikeTerminalLoop_nonletter name : forall hl au,
  Exists (fun c => IsLetter c = false) name ->
  looksLikeTerminalLoop IsLetter ToUpper hl au name = true.
Proof.
  induction name as [|c name IH]; intros hl au Hex; [by apply Exists_nil in Hex|].
  simpl. destruct (IsLetter c) eqn:Hc; [|done].
  apply Exists_cons in Hex as [Hex|Hex]; [congruence|]. by apply IH.
Qed.

Lemma looksLikeTerminalLoop_upper name : forall hl,
  Forall (fun c => IsLetter c = true /\ ToUpper c = c) name ->
  looksLikeTerminalLoop IsLetter ToUpper hl true name
    = (hl || bool_decide (name <> [])).
Proof.
  induction name as [|c name IH]; intros hl Hall; simpl.
  - by destruct hl.
  - apply Forall_cons in Hall as [[Hc Hu] Hall]. rewrite Hc.
    rewrite decide_False by (intros H; by apply H).
    rewrite IH by done. simpl. by destruct hl.
Qed.

Lemma looksLikeTerminalLoop_notupper name : forall hl,
  Forall (fun c => IsLetter c = true) name ->
  looksLikeTerminalLoop IsLetter ToUpper hl false name = false.
Proof.
  induction name as [|c name IH]; intros hl Hall; simpl.
  - by destruct hl.
  - apply Forall_cons in Hall as [Hc Hall]. rewrite Hc.
    destruct (decide (ToUpper c <> c)); by apply IH.
Qed.

Lemma looksLikeTerminalLoop_lower name : forall hl au,
  Forall (fun c => IsLetter c = true) name ->
  Exists (fun c => ToUpper c <> c) name ->
  looksLikeTerminalLoop IsLetter ToUpper hl au name = false.
Proof.
  induction name as [|c name IH]; intros hl au Hall Hex;
    [by apply Exists_nil in Hex|].
  simpl. apply Forall_cons in Hall as [Hc Hall]. rewrite Hc.
  destruct (decide (ToUpper c <> c)) as [Hu|Hu].
  - by apply looksLikeTerminalLoop_notupper.
  - apply Exists_cons in Hex as [Hex|Hex]; [done|]. by apply IH.
Qed.

End LooksLikeTerminal.

Lemma Intern_found_ptr n k at_ b q :
  TrimSpace n = n -> n <> [] -> SymbolsByName (g b) !! n = Some q ->
  (Intern n k at_ b).1 = q /\ store (Intern n k at_ b).2 = store b.
Proof.
  intros Ht Hne Hq. unfold Intern. rewrite Ht, decide_False by done.
  unfold internNamed. rewrite Hq.
  destruct (store b !! q); [case_decide|]; done.
Qed.

Lemma Intern_fresh_kind n k at_ b :
  TrimSpace n = n -> n <> [] -> SymbolsByName (g b) !! n = None ->
  kindOf (Intern n k at_ b).2 (Intern n k at_ b).1 = Some k.
Proof.
  intros Ht Hne Hq. unfold Intern. rewrite Ht, decide_False by done.
  rewrite internNamed_fresh by done. unfold kindOf. simpl.
  rewrite lookup_app_r by lia. by rewrite Nat.sub_diag.
Qed.

(** C5, as the code has it. For an RHS reference whose trimmed name is not
    empty the symbol is resolved in this order:
    - a name declared by a [%token]-style directive is interned as a
      terminal: a name not yet interned becomes a terminal, a name already
      interned yields the existing symbol with the kind it has;
    - otherwise a name already interned yields the existing symbol, and
      nothing changes;
    - otherwise, with the heuristic switched on (the default), a name that
      contains a non-letter or consists of uppercase ASCII letters becomes a
      terminal, and a name of ASCII letters of which one is lowercase becomes
      a nonterminal; with the heuristic switched off the name becomes a
      nonterminal.
    The tables of [unicode] are taken as given; on ASCII they say that
    [A-Z] and [a-z] are letters, that [ToUpper] fixes [A-Z] and moves
    [a-z]. *)
Theorem resolve_kind_order (IsLetter : Z -> bool) (ToUpper : Z -> Z)
    (s : BuilderSink) (sr : SymRef) :
  (forall c, 65 <= c <= 90 \/ 97 <= c <= 122 -> IsLetter c = true) ->
  (forall c, 65 <= c <= 90 -> ToUpper c = c) ->
  (forall c, 97 <= c <= 122 -> ToUpper c <> c) ->
  let name := TrimSpace (SName sr) in
  name <> [] ->
  let r := resolveSymbolInRHS IsLetter ToUpper sr s in
  (default false (declTokens s !! name) = true ->
     (forall q, Lookup name (B s) = Some q ->
        r.1 = q /\ kindOf (B r.2) q = kindOf (B s) q)
     /\ (Lookup name (B s) = None -> kindOf (B r.2) r.1 = Some SymTerminal))
  /\ (default false (declTokens s !! name) = false ->
      (forall q, Lookup name (B s) = Some q -> r = (q, s))
      /\ (Lookup name (B s) = None ->
          (UseHeuristicCapsAsTerminal s = true ->
             (Exists (fun c => IsLetter c = false) name
              \/ Forall (fun c => 65 <= c <= 90) name ->
              kindOf (B r.2) r.1 = Some SymTerminal)
             /\ (Forall (fun c => 65 <= c <= 90 \/ 97 <= c <= 122) name ->
                 Exists (fun c => 97 <= c <= 122) name ->
                 kindOf (B r.2) r.1 = Some SymNonterminal))
          /\ (UseHeuristicCapsAsTerminal s = false ->
              kindOf (B r.2) r.1 = Some SymNonterminal))).
Proof.
  intros HL HU Hlow name Hne r.
  assert (Hid : TrimSpace name = name) by apply TrimSpace_idemp.
  assert (HLk : Lookup name (B s) = SymbolsByName (g (B s)) !! name)
    by (unfold Lookup; by rewrite Hid).
  unfold r, resolveSymbolInRHS. fold name. rewrite decide_False by done.
  rewrite HLk. unfold EnsureTerminal, EnsureNonterminal. split.
  - intros Hd. rewrite Hd. split.
    + intros q Hq.
      destruct (Intern_found_ptr name SymTerminal (SAt sr) (B s) q Hid Hne Hq) as [H1 H2].
      destruct (Intern name SymTerminal (SAt sr) (B s)) as [p b1]. simpl in *.
      split; [done|]. unfold kindOf. by rewrite H2.
    + intros Hq.
      pose proof (Intern_fresh_kind name SymTerminal (SAt sr) (B s) Hid Hne Hq) as H1.
      by destruct (Intern name SymTerminal (SAt sr) (B s)) as [p b1].
  - intros Hd. rewrite Hd. split.
    + intros q Hq. by rewrite Hq.
    + intros Hq. rewrite Hq.
      pose proof (Intern_fresh_kind name SymTerminal (SAt sr) (B s) Hid Hne Hq) as HT.
      pose proof (Intern_fresh_kind name SymNonterminal (SAt sr) (B s) Hid Hne Hq) as HN.
      split.
      * intros Hh. rewrite Hh. simpl. unfold looksLikeTerminal.
        rewrite decide_False by done. split.
        -- intros Hc.
           assert (Hlt : looksLikeTerminalLoop IsLetter ToUpper false true name = true).
           { destruct Hc as [Hc|Hc].
             - by apply looksLikeTerminalLoop_nonletter.
             - rewrite looksLikeTerminalLoop_upper.
               + simpl. by apply bool_decide_eq_true.
               + eapply Forall_impl; [exact Hc|]. intros c Hcc. simpl.
                 split; [apply HL; by left|by apply HU]. }
           rewrite Hlt.
           by destruct (Intern name SymTerminal (SAt sr) (B s)) as [p b1].
        -- intros Hall Hex.
           assert (Hlt : looksLikeTerminalLoop IsLetter ToUpper false true name = false).
           { apply looksLikeTerminalLoop_lower.
             - eapply Forall_impl; [exact Hall|]. intros c Hcc. by apply HL.
             - eapply Exists_impl; [exact Hex|]. intros c Hcc. by apply Hlow. }
           rewrite Hlt.
           by destruct (Intern name SymNonterminal (SAt sr) (B s)) as [p b1].
      * intros Hh. rewrite Hh. simpl.
        by destruct (Intern name SymNonterminal (SAt sr) (B s)) as [p b1].
Qed.

Lemma asciiIsLetter_letters c :
  65 <= c <= 90 \/ 97 <= c <= 122 -> asciiIsLetter c = true.
Proof. intros H. unfold asciiIsLetter. by apply bool_decide_eq_true. Qed.

Lemma asciiToUpper_upper c : 65 <= c <= 90 -> asciiToUpper c = c.
Proof. intros H. unfold asciiToUpper. rewrite decide_False by lia. done. Qed.

Lemma asciiToUpper_lower c : 97 <= c <= 122 -> asciiToUpper c <> c.
Proof. intros H. unfold asciiToUpper. rewrite decide_True by lia. lia. Qed.

Lemma resolve_kind_order_witness :
  let s := NewBuilderSink (NewBuilder []) in
  let sr := {| SName := runes " PLUS"; SAt := None; SLabel := []; STypeTag := [] |} in
  let r := resolveSymbolInRHS asciiIsLetter asciiToUpper sr s in
  kindOf (B r.2) r.1 = Some SymTerminal.
Proof.
  intros s sr r.
  assert (Hne : TrimSpace (SName sr) <> []) by discriminate.
  destruct (resolve_kind_order asciiIsLetter asciiToUpper s sr
              asciiIsLetter_letters asciiToUpper_upper asciiToUpper_lower Hne)
    as [_ H].
  destruct H as [_ H]; [reflexivity|].
  destruct H as [H _]; [reflexivity|].
  destruct H as [H _]; [reflexivity|].
  apply H. right.
  repeat (apply Forall_cons; split; [vm_compute; split; discriminate|]).
  apply Forall_nil_2.
Defined.

(** C5 fails in two ways that are the code's design. A name that is the LHS
    of a rule and is then declared by [%token] resolves to the nonterminal it
    already is (the directive records an error). And with the heuristic
    switched off an unknown all-uppercase name resolves to a nonterminal. *)
Lemma resolve_kind_declared_nonterminal :
  let a := {| SName := runes "a"; SAt := None; SLabel := []; STypeTag := [] |} in
  let s := Directive {| DKind := DirToken; DAt := None; Key := [];
                        Value := runes "a"; DList := [] |}
             (SinkBeginRule a (NewBuilderSink (NewBuilder []))) in
  let r := resolveSymbolInRHS asciiIsLetter asciiToUpper a s in
  let plus := {| SName := runes "PLUS"; SAt := None; SLabel := []; STypeTag := [] |} in
  let off := {| B := NewBuilder []; curRule := None; curLHS := None;
                declTokens := ∅; declTypes := ∅;
                UseHeuristicCapsAsTerminal := false |} in
  let r' := resolveSymbolInRHS asciiIsLetter asciiToUpper plus off in
  declTokens s !! runes "a" = Some true
  /\ kindOf (B r.2) r.1 = Some SymNonterminal
  /\ Lookup (runes "PLUS") (B off) = None
  /\ kindOf (B r'.2) r'.1 = Some SymNonterminal.
Proof. repeat split; vm_compute; reflexivity. Qed.

(** The heuristic on a single letter that [ToUpper] fixes: whatever the
    letter, the name looks like a terminal. *)
Lemma looksLikeTerminal_fixed_letter (IsLetter : Z -> bool) (ToUpper : Z -> Z) (c : Z) :
  IsLetter c = true -> ToUpper c = c ->
  looksLikeTerminal IsLetter ToUpper [c] = true.
Proof.
  intros Hl Hu. unfold looksLikeTerminal. rewrite decide_False by done.
  simpl. rewrite Hl. by rewrite decide_False by (intros H; by apply H).
Qed.

(** ** The theorems at concrete inputs *)

Lemma dense_ids_witness :
  let b := run [OpIntern (runes "expr") SymNonterminal None;
                OpIntern (runes "PLUS") SymTerminal None]
             (NewBuilder []) in
  exists p s, Symbols (g b) !! 1%nat = Some p /\ store b !! p = Some s /\ ID s = 1.
Proof.
  intros b.
  destruct (dense_ids [] [OpIntern (runes "expr") SymNonterminal None;
                          OpIntern (runes "PLUS") SymTerminal None]) as [H _].
  apply (H 1%nat). vm_compute. lia.
Defined.

Lemma Intern_existing_or_sentinel_witness :
  let b := run [OpIntern (runes "expr") SymNonterminal None] (NewBuilder []) in
  (Intern (runes " expr ") SymTerminal None b).1 = 0%nat
  /\ HasErrors (Intern (runes " expr ") SymTerminal None b).2 = true
  /\ exists s, store (Intern (runes "  ") SymTerminal None b).2
                 !! (Intern (runes "  ") SymTerminal None b).1 = Some s
               /\ Name s = invalidName.
Proof.
  intros b.
  destruct (Intern_existing_or_sentinel []
              [OpIntern (runes "expr") SymNonterminal None]
              (runes " expr ") SymTerminal None) as [H1 _].
  destruct (Intern_existing_or_sentinel []
              [OpIntern (runes "expr") SymNonterminal None]
              (runes "  ") SymTerminal None) as [_ H2].
  destruct (H1 0%nat) as (s & Hs & Hp & _ & _ & _ & Hd); [reflexivity|].
  destruct H2 as (s' & Hs' & Hn & _); [reflexivity|].
  split; [exact Hp|]. split.
  - unfold HasErrors. fold b in Hd. rewrite Hd.
    + reflexivity.
    + injection Hs as <-. discriminate.
  - exists s'. by split.
Defined.


(** * Histories: every operation is a sequence of elementary changes *)

Lemma steps_refl b : steps b b.
Proof. apply rtc_refl. Qed.

Lemma steps_trans b1 b2 b3 : steps b1 b2 -> steps b2 b3 -> steps b1 b3.
Proof. apply rtc_trans. Qed.

Lemma steps_once b b' : atomic b b' -> steps b b'.
Proof. apply rtc_once. Qed.

Lemma steps_error at_ msg a b : steps b (error at_ msg a b).
Proof. apply steps_once, A_diag. Qed.

Lemma steps_warn at_ msg a b : steps b (warn at_ msg a b).
Proof. apply steps_once, A_diag. Qed.

Lemma steps_new_diags new : forall b, steps b (set_diags (fun ds => ds ++ new) b).
Proof.
  induction new as [|d new IH]; intros b.
  - assert (E : set_diags (fun ds => ds ++ []) b = b)
      by (destruct b; unfold set_diags; simpl; by rewrite app_nil_r).
    rewrite E. apply steps_refl.
  - eapply steps_trans; [apply steps_once, (A_diag b d)|].
    assert (E : set_diags (fun ds => ds ++ d :: new) b
                = set_diags (fun ds => ds ++ new) (set_diags (fun ds => ds ++ [d]) b))
      by (destruct b; unfold set_diags; simpl; by rewrite <- app_assoc).
    rewrite E. apply IH.
Qed.

Lemma diagsBy_steps P b b' : diagsBy P b b' -> steps b b'.
Proof.
  intros (Hs & Hg & Hc & new & Hd & _).
  assert (E : b' = set_diags (fun ds => ds ++ new) b).
  { destruct b, b'; unfold set_diags; simpl in *. by subst. }
  rewrite E. apply steps_new_diags.
Qed.

Lemma steps_internNamed name kind at_ b :
  name <> [] -> TrimSpace name = name -> steps b (internNamed name kind at_ b).2.
Proof.
  intros Hne Htr. destruct (SymbolsByName (g b) !! name) as [p|] eqn:Hp.
  - unfold internNamed. rewrite Hp.
    destruct (store b !! p); [case_decide|]; simpl;
      first [apply steps_error | apply steps_refl].
  - by apply steps_once, A_alloc.
Qed.

Lemma steps_internDummy at_ b : steps b (internDummy at_ b).2.
Proof.
  unfold internDummy. destruct (SymbolsByName (g b) !! invalidName);
    [apply steps_refl|]. apply steps_internNamed; [done|].
  by rewrite TrimSpace_invalidName.
Qed.

Lemma steps_Intern name kind at_ b : steps b (Intern name kind at_ b).2.
Proof.
  unfold Intern. case_decide.
  - eapply steps_trans; [apply steps_error|apply steps_internDummy].
  - apply steps_internNamed; [done|apply TrimSpace_idemp].
Qed.

Lemma steps_SetTypeTag sym typeTag at_ b : steps b (SetTypeTag sym typeTag at_ b).
Proof.
  unfold SetTypeTag. destruct sym as [p|]; [|apply steps_refl].
  case_decide; [apply steps_refl|].
  destruct (store b !! p) as [s|] eqn:Hp; [|apply steps_refl].
  case_decide; [apply steps_error|]. by eapply steps_once, A_typetag.
Qed.

Lemma steps_SetStart sym at_ b : steps b (SetStart sym at_ b).
Proof.
  unfold SetStart. destruct sym as [p|]; [|apply steps_refl].
  destruct (store b !! p) as [s|] eqn:Hp; [|apply steps_refl].
  case_decide as Hk; [apply steps_error|].
  assert (Hk' : Kind s = SymNonterminal)
    by (by destruct (decide (Kind s = SymNonterminal))).
  set (b1 := match Start (g b) with Some _ => _ | None => b end).
  assert (H1 : diagsOnly b b1).
  { unfold b1. destruct (Start (g b)) as [old|]; [|apply diagsOnly_refl].
    case_decide; [|apply diagsOnly_refl].
    destruct (store b !! old); [apply warn_diagsOnly|apply diagsOnly_refl]. }
  eapply steps_trans; [by eapply diagsBy_steps|].
  apply steps_once. apply (A_start b1 p s); [|done].
  destruct H1 as (-> & _). done.
Qed.

Lemma steps_precedenceStep assoc level at_ b t :
  assoc <> AssocNone -> steps b (precedenceStep assoc level at_ b t).
Proof.
  intros Ha. unfold precedenceStep. destruct t as [p|]; [|apply steps_refl].
  destruct (store b !! p) as [s|] eqn:Hp; [|apply steps_refl].
  case_decide as Hk; [apply steps_error|].
  case_decide as H0; [apply steps_warn|].
  apply steps_once. apply A_prec; done.
Qed.

Lemma steps_precedenceLoop assoc level at_ ts :
  assoc <> AssocNone ->
  forall b, steps b (foldl (precedenceStep assoc level at_) b ts).
Proof.
  intros Ha. induction ts as [|t ts IH]; intros b; simpl; [apply steps_refl|].
  eapply steps_trans; [by apply steps_precedenceStep|apply IH].
Qed.

Lemma steps_DefinePrecedenceGroup assoc ts at_ b :
  steps b (DefinePrecedenceGroup assoc ts at_ b).
Proof.
  unfold DefinePrecedenceGroup. case_decide as Ha; [apply steps_error|].
  eapply steps_trans;
    [apply steps_once, (A_counter b (wrapInt (precedenceCounter b + 1)))|].
  by apply steps_precedenceLoop.
Qed.

Lemma steps_BeginRule lhs at_ b : steps b (BeginRule lhs at_ b).2.
Proof.
  unfold BeginRule.
  assert (H0 : steps b (match lhs with Some p => (p, b) | None => internDummy at_ b end).2)
    by (destruct lhs; [apply steps_refl|apply steps_internDummy]).
  destruct (match lhs with Some p => (p, b) | None => internDummy at_ b end)
    as [p b0]. simpl in H0.
  eapply steps_trans; [exact H0|].
  destruct (store b0 !! p) as [s|] eqn:Hp; [|apply steps_refl]. simpl.
  set (b1 := if decide (Kind s <> SymNonterminal) then _ else b0).
  assert (H1 : diagsOnly b0 b1).
  { unfold b1. case_decide; [apply error_diagsOnly|apply diagsOnly_refl]. }
  assert (Hp1 : store b1 !! p = Some s) by (destruct H1 as (-> & _); done).
  eapply steps_trans; [by eapply diagsBy_steps|].
  eapply steps_trans; [apply steps_once, (A_rule b1 p s at_ Hp1)|].
  case_decide as Hc; [|apply steps_refl].
  apply steps_once. apply (A_start _ p s); [exact Hp1|apply Hc].
Qed.

Lemma steps_Alt rb rhs action prec at_ b : steps b (Alt rb rhs action prec at_ b).
Proof.
  unfold Alt. destruct rb as [rb|]; [|apply steps_refl].
  destruct (done rb); [apply steps_refl|].
  destruct (rule rb) as [idx|]; [|apply steps_refl].
  eapply steps_trans; [eapply diagsBy_steps, (checkRHS_diagsOnly at_ rhs 0 b)|].
  generalize (checkRHS at_ 0 rhs b). intros b0.
  assert (H1 : exists pr b1,
    match prec with
    | Some p =>
        match store b0 !! p with
        | Some s =>
            if decide (Kind s <> SymTerminal)
            then (None, error at_ "precedence override symbol %q must be a terminal"
                          [ArgS (Name s)] b0)
            else (Some p, b0)
        | None => (Some p, b0)
        end
    | None => (None, b0)
    end = (pr, b1) /\ steps b0 b1).
  { destruct prec as [p|]; [destruct (store b0 !! p) as [s|]; [case_decide|]|];
      eexists _, _; split; try reflexivity;
      first [apply steps_refl | apply steps_error]. }
  destruct H1 as (pr & b1 & -> & H1).
  eapply steps_trans; [exact H1|].
  destruct (Rules (g b1) !! idx) as [[r|]|] eqn:Hr.
  - assert (E : set_g (set_Rules (fun rs =>
                   match rs !! idx with
                   | Some (Some r) =>
                       <[idx := Some (add_alternative
                           {| RHS := rhs; AltAction := action; PrecSym := pr;
                              AltAt := at_ |} r)]> rs
                   | _ => rs
                   end)) b1
                = set_g (set_Rules (fun rs => <[idx := Some (add_alternative
                           {| RHS := rhs; AltAction := action; PrecSym := pr;
                              AltAt := at_ |} r)]> rs)) b1).
    { unfold set_g, set_Rules. simpl. by rewrite Hr. }
    rewrite E. by apply steps_once, A_alt.
  - assert (E : set_g (set_Rules (fun rs =>
                   match rs !! idx with
                   | Some (Some r) =>
                       <[idx := Some (add_alternative
                           {| RHS := rhs; AltAction := action; PrecSym := pr;
                              AltAt := at_ |} r)]> rs
                   | _ => rs
                   end)) b1 = b1).
    { destruct b1 as [h [] c d]. unfold set_g, set_Rules. simpl in *. by rewrite Hr. }
    rewrite E. apply steps_refl.
  - assert (E : set_g (set_Rules (fun rs =>
                   match rs !! idx with
                   | Some (Some r) =>
                       <[idx := Some (add_alternative
                           {| RHS := rhs; AltAction := action; PrecSym := pr;
                              AltAt := at_ |} r)]> rs
                   | _ => rs
                   end)) b1 = b1).
    { destruct b1 as [h [] c d]. unfold set_g, set_Rules. simpl in *. by rewrite Hr. }
    rewrite E. apply steps_refl.
Qed.

Lemma steps_SetDirective key value at_ b : steps b (SetDirective key value at_ b).
Proof.
  unfold SetDirective. case_decide as Hk; [apply steps_error|].
  set (b1 := match Directives (g b) !! _ with Some _ => _ | None => b end).
  assert (H1 : steps b b1).
  { unfold b1. destruct (Directives (g b) !! _); [apply steps_warn|apply steps_refl]. }
  eapply steps_trans; [exact H1|]. by apply steps_once, A_directive.
Qed.

Lemma apply_op_steps b op : steps b (apply_op b op).
Proof.
  destruct op; simpl.
  - apply steps_Intern.
  - apply steps_SetTypeTag.
  - apply steps_SetStart.
  - apply steps_DefinePrecedenceGroup.
  - apply steps_BeginRule.
  - apply steps_Alt.
  - rewrite NewRef_state. destruct sym; [apply steps_refl|apply steps_internDummy].
  - apply steps_SetDirective.
  - apply steps_error.
  - apply steps_warn.
  - eapply diagsBy_steps, Finalize_diagsBy.
Qed.

Lemma run_steps ops : forall b, steps b (run ops b).
Proof.
  induction ops as [|op ops IH]; intros b; simpl; [apply steps_refl|].
  eapply steps_trans; [apply apply_op_steps|apply IH].
Qed.

Lemma handleAll_steps IsLetter ToUpper evs s :
  steps (B s) (B (handleAll IsLetter ToUpper s evs)).
Proof.
  apply (handleAll_R IsLetter ToUpper steps).
  - apply steps_refl.
  - apply steps_trans.
  - apply steps_error.
  - apply steps_warn.
  - apply steps_Intern.
  - apply steps_internDummy.
  - apply steps_SetTypeTag.
  - apply steps_DefinePrecedenceGroup.
  - apply steps_Alt.
  - apply steps_SetDirective.
  - apply steps_SetStart.
  - apply steps_BeginRule.
Qed.

Lemma after_steps b b' : after b b' -> steps b b'.
Proof.
  induction 1 as [b|b op b' _ _ IH|IsLetter ToUpper s e b' _ IH].
  - apply steps_refl.
  - eapply steps_trans; [apply apply_op_steps|exact IH].
  - eapply steps_trans; [apply (handleAll_steps IsLetter ToUpper [e])|exact IH].
Qed.

Lemma after_trans b1 b2 b3 : after b1 b2 -> after b2 b3 -> after b1 b3.
Proof.
  induction 1 as [b|b op b' Hok _ IH|IsLetter ToUpper s e b' _ IH]; intros H3.
  - done.
  - by eapply after_op, IH, H3.
  - eapply after_event, IH, H3.
Qed.

Lemma after_run ops : forall b, run_ok ops b = true -> after b (run ops b).
Proof.
  induction ops as [|op ops IH]; intros b Hok; [apply after_here|].
  simpl in Hok. apply andb_prop in Hok as [H1 H2].
  by eapply after_op, IH.
Qed.

Lemma after_handleAll IsLetter ToUpper evs :
  forall s, after (B s) (B (handleAll IsLetter ToUpper s evs)).
Proof.
  induction evs as [|e evs IH]; intros s; [apply after_here|].
  eapply after_event, IH.
Qed.

(** ** What a history keeps *)

Lemma grows_refl b : grows b b.
Proof.
  split; try done.
  - intros p s Hp. exists s. by repeat split.
  - intros i r Hr. exists r. split; [done|]. by destruct r.
Qed.

Lemma grows_trans b1 b2 b3 : grows b1 b2 -> grows b2 b3 -> grows b1 b3.
Proof.
  intros [S1 N1 Y1 D1 R1 K1 T1] [S2 N2 Y2 D2 R2 K2 T2]. split.
  - intros p s Hp.
    destruct (S1 p s Hp) as (s' & Hs' & Hi & Hn & Hk & Hd & Ht & Hpr).
    destruct (S2 p s' Hs') as (s'' & Hs'' & Hi' & Hn' & Hk' & Hd' & Ht' & Hpr').
    exists s''. split; [done|].
    split; [congruence|]. split; [congruence|]. split; [congruence|].
    split; [congruence|]. split.
    + intros HT. rewrite Ht' by (rewrite Ht; done). by apply Ht.
    + intros HP. destruct (Hpr HP) as [E1 E2].
      destruct Hpr' as [E1' E2']; [congruence|]. split; congruence.
  - intros n p Hp. by apply N2, N1.
  - by etrans.
  - by etrans.
  - intros i r Hr. destruct (R1 i r Hr) as (r' & Hr' & H1).
    destruct (R2 i r' Hr') as (r'' & Hr'' & H2). exists r''. split; [done|].
    destruct r as [r|], r' as [r'|], r'' as [r''|]; try done.
    destruct H1 as (E1 & E2 & E3), H2 as (E1' & E2' & E3').
    split; [congruence|]. split; [congruence|]. by etrans.
  - intros k Hk. by apply K2, K1.
  - intros HS. by apply T2, T1.
Qed.

Lemma same_rules_grow (rs : list (option Rule)) i r :
  rs !! i = Some r ->
  exists r', rs !! i = Some r'
    /\ match r, r' with
       | Some r, Some r' =>
           LHS r' = LHS r /\ RuleAt r' = RuleAt r
           /\ Alternatives r `prefix_of` Alternatives r'
       | None, None => True
       | _, _ => False
       end.
Proof. intros Hr. exists r. split; [done|]. by destruct r. Qed.

Lemma same_store_grow (h : list Symbol) p s :
  h !! p = Some s ->
  exists s', h !! p = Some s'
    /\ ID s' = ID s /\ Name s' = Name s /\ Kind s' = Kind s
    /\ DeclaredAt s' = DeclaredAt s
    /\ (TypeTag s <> [] -> TypeTag s' = TypeTag s)
    /\ (Precedence s <> 0 -> Precedence s' = Precedence s /\ Assoc s' = Assoc s).
Proof. intros Hp. exists s. by repeat split. Qed.

Lemma atomic_grows b b' : atomic b b' -> grows b b'.
Proof.
  intros [d|name kind at_ Hne Htr Hfresh|p s t Hp Ht Hc|p s level assoc Hp Hk H0 Ha
          |n|p s Hp Hk|lhs s at_ Hp|idx r a Hr|key value Hk].
  - split; simpl; try done;
      [apply same_store_grow|by apply prefix_app_r|apply same_rules_grow].
  - rewrite internNamed_fresh by done. split; simpl; try done.
    + intros p s Hp. exists s. split; [by apply lookup_app_l_Some|by repeat split].
    + intros n p Hp. rewrite lookup_insert_ne; [done|]. congruence.
    + by apply prefix_app_r.
    + apply same_rules_grow.
  - split; simpl; try done; [|apply same_rules_grow].
    intros q sq Hq. destruct (decide (q = p)) as [->|Hne].
    + rewrite Hp in Hq. injection Hq as <-. exists (with_TypeTag t s).
      split; [apply list_lookup_insert_eq; by eapply lookup_lt_Some|].
      repeat split; simpl; try done.
      intros Hs. destruct (decide (TypeTag s = t)) as [E|E]; [done|].
      destruct Hc. by split.
    + exists sq. rewrite list_lookup_insert_ne by done. by repeat split.
  - split; simpl; try done; [|apply same_rules_grow].
    intros q sq Hq. destruct (decide (q = p)) as [->|Hne].
    + rewrite Hp in Hq. injection Hq as <-. exists (with_Precedence level assoc s).
      split; [apply list_lookup_insert_eq; by eapply lookup_lt_Some|].
      repeat split; simpl; try done; intros Hs; by destruct Hs.
    + exists sq. rewrite list_lookup_insert_ne by done. by repeat split.
  - split; simpl; try done; [apply same_store_grow|apply same_rules_grow].
  - split; simpl; try done; [apply same_store_grow|apply same_rules_grow].
  - split; simpl; try done; [apply same_store_grow|].
    intros i r Hr. exists r. split; [by apply lookup_app_l_Some|by destruct r].
  - split; simpl; try done; [apply same_store_grow|].
    intros i r0 Hr0. destruct (decide (i = idx)) as [->|Hne].
    + rewrite Hr in Hr0. injection Hr0 as <-.
      exists (Some (add_alternative a r)).
      split; [apply list_lookup_insert_eq; by eapply lookup_lt_Some|].
      simpl. repeat split; try done. by apply prefix_app_r.
    + exists r0. rewrite list_lookup_insert_ne by done. split; [done|by destruct r0].
  - split; simpl; try done; [apply same_store_grow|apply same_rules_grow|].
    intros k Hk'. destruct (decide (key = k)) as [->|Hne].
    + rewrite lookup_insert_eq. by eexists.
    + by rewrite lookup_insert_ne.
Qed.

Lemma steps_grows b b' : steps b b' -> grows b b'.
Proof.
  induction 1 as [b|b1 b2 b3 H12 _ IH]; [apply grows_refl|].
  eapply grows_trans; [by apply atomic_grows|exact IH].
Qed.

Lemma after_grows b b' : after b b' -> grows b b'.
Proof. intros H. by apply steps_grows, after_steps. Qed.

(** ** What holds of every built grammar *)

Lemma atomic_wellformed b b' : atomic b b' -> wellformed b -> wellformed b'.
Proof.
  intros Hat [WN WT WY WS WP WR].
  destruct Hat as [d|name kind at_ Hne Htr Hfresh|p s t Hp Ht Hc
                  |p s level assoc Hp Hk H0 Ha
                  |n|p s Hp Hk|lhs s at_ Hp|idx r a Hr|key value Hk].
  - by split.
  - rewrite internNamed_fresh by done. split; simpl.
    + intros p s Hp. apply lookup_app_Some in Hp as [Hp|[Hlen Hp]].
      * rewrite lookup_insert_ne; [by apply WN|].
        intros E. rewrite E, (WN p s Hp) in Hfresh. done.
      * apply list_lookup_singleton_Some in Hp as [Hp <-]. simpl.
        rewrite lookup_insert_eq. f_equal. lia.
    + intros p s Hp. apply lookup_app_Some in Hp as [Hp|[Hlen Hp]]; [by eapply WT|].
      apply list_lookup_singleton_Some in Hp as [Hp <-]. by simpl.
    + rewrite WY, length_app. simpl. rewrite Nat.add_1_r, seq_S. done.
    + intros p Hp. destruct (WS p Hp) as (s & Hs & Hk). exists s.
      split; [by apply lookup_app_l_Some|done].
    + intros p s Hp. apply lookup_app_Some in Hp as [Hp|[Hlen Hp]]; [by eapply WP|].
      apply list_lookup_singleton_Some in Hp as [Hp <-]. simpl. done.
    + intros i r Hr. destruct (WR i r Hr) as (r0 & lhs & s & -> & Hl & Hs & Ha).
      exists r0, lhs, s. repeat split; try done. by apply lookup_app_l_Some.
  - assert (Hlt : (p < length (store b))%nat) by (by eapply lookup_lt_Some).
    assert (Hup : forall q sq, <[p := with_TypeTag t s]> (store b) !! q = Some sq ->
              exists sq0, store b !! q = Some sq0 /\ Name sq = Name sq0
                /\ Kind sq = Kind sq0 /\ Precedence sq = Precedence sq0
                /\ Assoc sq = Assoc sq0).
    { intros q sq Hq. destruct (decide (q = p)) as [->|Hn].
      - rewrite list_lookup_insert_eq in Hq by done. injection Hq as <-.
        exists s. by repeat split.
      - rewrite list_lookup_insert_ne in Hq by done. exists sq. by repeat split. }
    split; simpl.
    + intros q sq Hq. destruct (Hup q sq Hq) as (sq0 & Hq0 & -> & _). by apply WN.
    + intros q sq Hq. destruct (Hup q sq Hq) as (sq0 & Hq0 & -> & _). by eapply WT.
    + by rewrite length_insert.
    + intros q Hq. destruct (WS q Hq) as (sq & Hsq & Hk).
      destruct (decide (q = p)) as [->|Hn].
      * exists (with_TypeTag t s). rewrite list_lookup_insert_eq by done.
        split; [done|]. simpl. congruence.
      * exists sq. by rewrite list_lookup_insert_ne.
    + intros q sq Hq Hpr. destruct (Hup q sq Hq) as (sq0 & Hq0 & _ & -> & E1 & ->).
      apply (WP q sq0 Hq0). congruence.
    + intros i r Hr. destruct (WR i r Hr) as (r0 & lhs & sl & -> & Hl & Hs & Ha).
      destruct (decide (lhs = p)) as [->|Hn].
      * exists r0, p, (with_TypeTag t s). repeat split; try done.
        by rewrite list_lookup_insert_eq.
      * exists r0, lhs, sl. repeat split; try done.
        by rewrite list_lookup_insert_ne.
  - assert (Hlt : (p < length (store b))%nat) by (by eapply lookup_lt_Some).
    split; simpl.
    + intros q sq Hq. destruct (decide (q = p)) as [->|Hn].
      * rewrite list_lookup_insert_eq in Hq by done. injection Hq as <-.
        simpl. by apply WN.
      * rewrite list_lookup_insert_ne in Hq by done. by apply WN.
    + intros q sq Hq. destruct (decide (q = p)) as [->|Hn].
      * rewrite list_lookup_insert_eq in Hq by done. injection Hq as <-.
        simpl. by eapply WT.
      * rewrite list_lookup_insert_ne in Hq by done. by eapply WT.
    + by rewrite length_insert.
    + intros q Hq. destruct (WS q Hq) as (sq & Hsq & Hkq).
      destruct (decide (q = p)) as [->|Hn].
      * exists (with_Precedence level assoc s). rewrite list_lookup_insert_eq by done.
        split; [done|]. simpl. congruence.
      * exists sq. by rewrite list_lookup_insert_ne.
    + intros q sq Hq Hpr. destruct (decide (q = p)) as [->|Hn].
      * rewrite list_lookup_insert_eq in Hq by done. injection Hq as <-. by simpl.
      * rewrite list_lookup_insert_ne in Hq by done. by eapply WP.
    + intros i r Hr. destruct (WR i r Hr) as (r0 & lhs & sl & -> & Hl & Hs & Hal).
      destruct (decide (lhs = p)) as [->|Hn].
      * exists r0, p, (with_Precedence level assoc s). repeat split; try done.
        by rewrite list_lookup_insert_eq.
      * exists r0, lhs, sl. repeat split; try done.
        by rewrite list_lookup_insert_ne.
  - by split.
  - split; simpl; try done. intros q Hq. injection Hq as <-. by exists s.
  - split; simpl; try done. intros i r Hr.
    apply lookup_app_Some in Hr as [Hr|[Hlen Hr]]; [by apply (WR i)|].
    apply list_lookup_singleton_Some in Hr as [Hr <-].
    eexists _, lhs, s. repeat split; try done; apply Forall_nil_2.
  - split; simpl; try done. intros i r0 Hr0.
    destruct (decide (i = idx)) as [->|Hn].
    + rewrite list_lookup_insert_eq in Hr0 by (by eapply lookup_lt_Some).
      injection Hr0 as <-.
      destruct (WR idx _ Hr) as (r1 & lhs & s & Er & Hl & Hs & Ha).
      injection Er as <-.
      exists (add_alternative a r), lhs, s. repeat split; try done; simpl;
        apply Forall_app; (split; [done|]); apply Forall_singleton; by eexists.
    + rewrite list_lookup_insert_ne in Hr0 by done. by apply (WR i).
  - by split.
Qed.

Lemma steps_wellformed b b' : steps b b' -> wellformed b -> wellformed b'.
Proof.
  induction 1 as [b|b1 b2 b3 H12 _ IH]; [done|].
  intros Hw. apply IH. by eapply atomic_wellformed.
Qed.

Lemma NewBuilder_wellformed l : wellformed (NewBuilder l).
Proof. split; simpl; try done; intros ? ? H; by rewrite lookup_nil in H. Qed.

Lemma built_wellformed b : built b -> wellformed b.
Proof.
  intros (l & Ha). eapply steps_wellformed; [by apply after_steps|].
  apply NewBuilder_wellformed.
Qed.

Lemma sampleBuilder_built : built sampleBuilder.
Proof. exists []. by apply after_run. Qed.

Lemma sampleBuilder_later : after sampleBuilder (run laterOps sampleBuilder).
Proof. by apply after_run. Qed.

(** ** Symbols, diagnostics and rules over a history *)

(** X1. A symbol keeps its address, ID, name, kind and place of declaration
    through every later operation of the builder and every later event of a
    sink: no operation renames, renumbers, moves or changes the kind of an
    interned symbol. *)
Theorem symbol_identity_kept b b' p s :
  after b b' -> store b !! p = Some s ->
  exists s', store b' !! p = Some s'
    /\ ID s' = ID s /\ Name s' = Name s /\ Kind s' = Kind s
    /\ DeclaredAt s' = DeclaredAt s.
Proof.
  intros Ha Hp. destruct (grows_store _ _ (after_grows _ _ Ha) p s Hp)
    as (s' & Hs' & Hi & Hn & Hk & Hd & _).
  by exists s'.
Qed.

Lemma symbol_identity_kept_witness :
  exists s', store (run laterOps sampleBuilder) !! 0%nat = Some s'
    /\ ID s' = 0 /\ Name s' = runes "expr" /\ Kind s' = SymNonterminal
    /\ DeclaredAt s' = None.
Proof.
  exact (symbol_identity_kept sampleBuilder (run laterOps sampleBuilder) 0%nat
           {| ID := 0; Name := runes "expr"; Kind := SymNonterminal;
              TypeTag := runes "Expr"; Precedence := 0; Assoc := AssocNone;
              DeclaredAt := None |}
           sampleBuilder_later eq_refl).
Defined.

(** X2. Once a symbol has a type tag, no later operation or event changes
    it: the first tag wins for the whole life of the builder. *)
Theorem type_tag_kept b b' p s :
  after b b' -> store b !! p = Some s -> TypeTag s <> [] ->
  exists s', store b' !! p = Some s' /\ TypeTag s' = TypeTag s.
Proof.
  intros Ha Hp Ht. destruct (grows_store _ _ (after_grows _ _ Ha) p s Hp)
    as (s' & Hs' & _ & _ & _ & _ & Htag & _).
  exists s'. split; [done|by apply Htag].
Qed.

Lemma type_tag_kept_witness :
  exists s', store (run laterOps sampleBuilder) !! 0%nat = Some s'
    /\ TypeTag s' = runes "Expr".
Proof.
  refine (type_tag_kept sampleBuilder (run laterOps sampleBuilder) 0%nat
           {| ID := 0; Name := runes "expr"; Kind := SymNonterminal;
              TypeTag := runes "Expr"; Precedence := 0; Assoc := AssocNone;
              DeclaredAt := None |}
           sampleBuilder_later eq_refl _).
  discriminate.
Defined.

(** X3. Once a symbol has a precedence, no later operation or event changes
    its precedence or its associativity: the first precedence group that
    names a terminal wins for the whole life of the builder. *)
Theorem precedence_kept b b' p s :
  after b b' -> store b !! p = Some s -> Precedence s <> 0 ->
  exists s', store b' !! p = Some s'
    /\ Precedence s' = Precedence s /\ Assoc s' = Assoc s.
Proof.
  intros Ha Hp Ht. destruct (grows_store _ _ (after_grows _ _ Ha) p s Hp)
    as (s' & Hs' & _ & _ & _ & _ & _ & Hpr).
  exists s'. split; [done|by apply Hpr].
Qed.

Lemma precedence_kept_witness :
  exists s', store (run laterOps sampleBuilder) !! 1%nat = Some s'
    /\ Precedence s' = 1 /\ Assoc s' = AssocLeft.
Proof.
  refine (precedence_kept sampleBuilder (run laterOps sampleBuilder) 1%nat
           {| ID := 1; Name := runes "PLUS"; Kind := SymTerminal;
              TypeTag := []; Precedence := 1; Assoc := AssocLeft;
              DeclaredAt := None |}
           sampleBuilder_later eq_refl _).
  discriminate.
Defined.

Lemma HasErrors_prefix b b' :
  diags b `prefix_of` diags b' -> HasErrors b = true -> HasErrors b' = true.
Proof.
  intros [k E]. unfold HasErrors. rewrite E, existsb_app. by intros ->.
Qed.

(** X4. Diagnostics are never dropped or reordered: after any operations and
    events the earlier diagnostics are a prefix of the later ones, so a
    builder that has errors keeps having errors. *)
Theorem diagnostics_kept b b' :
  after b b' ->
  diags b `prefix_of` diags b' /\ (HasErrors b = true -> HasErrors b' = true).
Proof.
  intros Ha. pose proof (grows_diags _ _ (after_grows _ _ Ha)) as Hd.
  split; [done|by apply HasErrors_prefix].
Qed.

Lemma diagnostics_kept_witness :
  diags sampleBuilder `prefix_of` diags (run laterOps sampleBuilder)
  /\ (HasErrors sampleBuilder = true -> HasErrors (run laterOps sampleBuilder) = true).
Proof.
  exact (diagnostics_kept sampleBuilder (run laterOps sampleBuilder) sampleBuilder_later).
Defined.

(** X5. A name that [Lookup] finds stays bound to the same symbol: no later
    operation or event removes or rebinds an entry of the symbol table. *)
Theorem names_stay_bound b b' n p :
  after b b' -> Lookup n b = Some p -> Lookup n b' = Some p.
Proof.
  intros Ha. unfold Lookup. apply (grows_names _ _ (after_grows _ _ Ha)).
Qed.

Lemma names_stay_bound_witness :
  Lookup (runes " PLUS ") (run laterOps sampleBuilder) = Some 1%nat.
Proof.
  exact (names_stay_bound sampleBuilder (run laterOps sampleBuilder)
           (runes " PLUS ") 1%nat sampleBuilder_later eq_refl).
Defined.

(** X6. Rules are only appended and alternatives are only appended to their
    rule: a rule keeps its position in [g.Rules], its LHS and its span, and
    its earlier alternatives stay a prefix of its later ones. *)
Theorem rules_only_grow b b' i r :
  after b b' -> Rules (g b) !! i = Some (Some r) ->
  exists r', Rules (g b') !! i = Some (Some r')
    /\ LHS r' = LHS r /\ RuleAt r' = RuleAt r
    /\ Alternatives r `prefix_of` Alternatives r'.
Proof.
  intros Ha Hr. destruct (grows_rules _ _ (after_grows _ _ Ha) i _ Hr)
    as ([r'|] & Hr' & H); [|done].
  by exists r'.
Qed.

Lemma rules_only_grow_witness :
  exists r', Rules (g (run laterOps sampleBuilder)) !! 0%nat = Some (Some r')
    /\ LHS r' = Some 0%nat /\ RuleAt r' = None
    /\ [] `prefix_of` Alternatives r'.
Proof.
  exact (rules_only_grow sampleBuilder (run laterOps sampleBuilder) 0%nat
           {| LHS := Some 0%nat; Alternatives := []; RuleAt := None |}
           sampleBuilder_later eq_refl).
Defined.

(** ** Built grammars *)

(** X7. In a grammar built from a new builder the start symbol, once set, is
    never unset, and it always is an interned nonterminal: [SetStart] and
    the inference of [BeginRule] are the only writers and both test the
    kind. *)
Theorem start_stays_nonterminal b b' :
  built b -> after b b' -> is_Some (Start (g b)) ->
  exists p s, Start (g b') = Some p /\ store b' !! p = Some s
    /\ Kind s = SymNonterminal.
Proof.
  intros (l & Hb) Ha Hs.
  destruct (grows_start _ _ (after_grows _ _ Ha) Hs) as (p & Hp).
  assert (Hw : wellformed b') by (apply built_wellformed; exists l; by eapply after_trans).
  destruct (wf_start _ Hw p Hp) as (s & Hsp & Hk).
  by exists p, s.
Qed.

Lemma start_stays_nonterminal_witness :
  exists p s, Start (g (run laterOps sampleBuilder)) = Some p
    /\ store (run laterOps sampleBuilder) !! p = Some s
    /\ Kind s = SymNonterminal.
Proof.
  refine (start_stays_nonterminal sampleBuilder (run laterOps sampleBuilder)
            sampleBuilder_built sampleBuilder_later _).
  by exists 0%nat.
Defined.

(** X8. In a built grammar every symbol is found by [Lookup] under its own
    name, and no two symbols share a name: names are stored trimmed and not
    empty, one symbol per name. *)
Theorem symbols_found_by_name b p s :
  built b -> store b !! p = Some s ->
  Name s <> [] /\ Lookup (Name s) b = Some p
  /\ forall q t, store b !! q = Some t -> Name t = Name s -> q = p.
Proof.
  intros Hb Hp. pose proof (built_wellformed _ Hb) as Hw.
  destruct (wf_trimmed _ Hw p s Hp) as [Hne Htr].
  split; [done|]. split.
  - unfold Lookup. rewrite Htr. by apply (wf_names _ Hw).
  - intros q t Hq E. pose proof (wf_names _ Hw q t Hq) as H1.
    rewrite E, (wf_names _ Hw p s Hp) in H1. by injection H1.
Qed.

Lemma symbols_found_by_name_witness :
  runes "PLUS" <> [] /\ Lookup (runes "PLUS") sampleBuilder = Some 1%nat
  /\ forall q t, store sampleBuilder !! q = Some t -> Name t = runes "PLUS" -> q = 1%nat.
Proof.
  exact (symbols_found_by_name sampleBuilder 1%nat
           {| ID := 1; Name := runes "PLUS"; Kind := SymTerminal;
              TypeTag := []; Precedence := 1; Assoc := AssocLeft;
              DeclaredAt := None |}
           sampleBuilder_built eq_refl).
Defined.

(** X9. In a built grammar only terminals carry a precedence, and a symbol
    with a precedence has an associativity other than [AssocNone]. *)
Theorem precedence_on_terminals_only b p s :
  built b -> store b !! p = Some s -> Precedence s <> 0 ->
  Kind s = SymTerminal /\ Assoc s <> AssocNone.
Proof.
  intros Hb Hp Hpr. by apply (wf_prec _ (built_wellformed _ Hb) p s).
Qed.

Lemma precedence_on_terminals_only_witness :
  SymTerminal = SymTerminal /\ AssocLeft <> AssocNone.
Proof.
  refine (precedence_on_terminals_only sampleBuilder 1%nat
           {| ID := 1; Name := runes "PLUS"; Kind := SymTerminal;
              TypeTag := []; Precedence := 1; Assoc := AssocLeft;
              DeclaredAt := None |}
           sampleBuilder_built eq_refl _).
  discriminate.
Defined.

(** ** What [Finalize] records, by level and format *)

Ltac loop_diag HL :=
  first
    [ apply diagsBy_refl
    | apply error_diagsBy; unfold diagIn; simpl; apply HL; simpl; tauto
    | apply warn_diagsBy; unfold diagIn; simpl; apply HL; simpl; tauto ].

Section FinalizeDiags.

Variable L : list (DiagnosticLevel * string).
Hypothesis HL : incl loopDiags L.

Lemma lhsStep_in st r :
  ((r = None \/ exists r0, r = Some r0 /\ LHS r0 = None) ->
   In (DiagError, "rule has nil LHS"%string) L) ->
  diagsBy (diagIn L) st.1 (lhsStep st r).1.
Proof.
  intros Hnil. destruct st as [b m]. unfold lhsStep. simpl.
  destruct r as [r|]; [|apply error_diagsBy, Hnil; by left].
  destruct (LHS r) as [p|] eqn:E;
    [|apply error_diagsBy, Hnil; right; by exists r].
  destruct (store b !! p) as [s|]; [|loop_diag HL].
  simpl. case_decide; loop_diag HL.
Qed.

Lemma foldl_lhsStep_in rules : forall st,
  (forall r, In r rules -> (r = None \/ exists r0, r = Some r0 /\ LHS r0 = None) ->
     In (DiagError, "rule has nil LHS"%string) L) ->
  diagsBy (diagIn L) st.1 (foldl lhsStep st rules).1.
Proof.
  induction rules as [|r rules IH]; intros st Hnil; simpl; [apply diagsBy_refl|].
  eapply diagsBy_trans.
  - apply (lhsStep_in st r), Hnil. by left.
  - apply IH. intros r' Hr'. apply Hnil. by right.
Qed.

Lemma rhsLoop_in lhs lhsName altAt rhs : forall pos st,
  diagsBy (diagIn L) (vb st) (vb (rhsLoop lhs lhsName altAt pos rhs st)).
Proof.
  induction rhs as [|sr rhs IH]; intros pos st; simpl; [apply diagsBy_refl|].
  eapply diagsBy_trans; [|apply IH].
  destruct sr as [r|]; [|loop_diag HL].
  destruct (Sym r) as [p|]; [|loop_diag HL].
  destruct (store (vb st) !! p); loop_diag HL.
Qed.

Lemma altStep_in lhs lhsName ruleAt st alt :
  (alt = None -> In (DiagError, "rule %q has a nil alternative"%string) L) ->
  diagsBy (diagIn L) (vb st) (vb (altStep lhs lhsName ruleAt st alt)).
Proof.
  intros Hnil. unfold altStep. destruct alt as [a|]; [|by apply error_diagsBy, Hnil].
  pose proof (rhsLoop_in lhs lhsName (AltAt a) (RHS a) 0 st) as H.
  set (st1 := rhsLoop _ _ _ _ _ _) in *.
  destruct (PrecSym a) as [p|]; [|exact H].
  destruct (store (vb st1) !! p) as [s|]; [|exact H].
  eapply diagsBy_trans; [exact H|]. simpl.
  repeat case_decide; loop_diag HL.
Qed.

Lemma foldl_altStep_in lhs lhsName ruleAt alts : forall st,
  (In None alts -> In (DiagError, "rule %q has a nil alternative"%string) L) ->
  diagsBy (diagIn L) (vb st) (vb (foldl (altStep lhs lhsName ruleAt) st alts)).
Proof.
  induction alts as [|a alts IH]; intros st Hnil; simpl; [apply diagsBy_refl|].
  eapply diagsBy_trans.
  - apply (altStep_in lhs lhsName ruleAt st a). intros E. apply Hnil. left. exact E.
  - apply IH. intros H. apply Hnil. by right.
Qed.

Lemma ruleStep_in st r :
  (forall r0, r = Some r0 -> In None (Alternatives r0) ->
     In (DiagError, "rule %q has a nil alternative"%string) L) ->
  diagsBy (diagIn L) (vb st) (vb (ruleStep st r)).
Proof.
  intros Hnil. unfold ruleStep. destruct r as [r|]; [|apply diagsBy_refl].
  destruct (LHS r) as [lhs|]; [|apply diagsBy_refl].
  destruct (store (vb st) !! lhs) as [s|]; [|apply diagsBy_refl].
  specialize (Hnil r eq_refl).
  destruct (Alternatives r) as [|a alts]; [simpl; loop_diag HL|].
  apply (foldl_altStep_in lhs (Name s) (RuleAt r) (a :: alts)
           {| vb := vb st; used := used st; edges := _ |} Hnil).
Qed.

Lemma foldl_ruleStep_in rules : forall st,
  (forall r0, In (Some r0) rules -> In None (Alternatives r0) ->
     In (DiagError, "rule %q has a nil alternative"%string) L) ->
  diagsBy (diagIn L) (vb st) (vb (foldl ruleStep st rules)).
Proof.
  induction rules as [|r rules IH]; intros st Hnil; simpl; [apply diagsBy_refl|].
  eapply diagsBy_trans.
  - apply (ruleStep_in st r). intros r0 E. apply Hnil. left. exact E.
  - apply IH. intros r0 H. apply Hnil. by right.
Qed.

Lemma undefinedStep_in m b kv : diagsBy (diagIn L) b (undefinedStep m b kv).
Proof.
  unfold undefinedStep. destruct kv as [sym n].
  case_decide; [apply diagsBy_refl|].
  destruct (store b !! sym); [|apply diagsBy_refl].
  case_decide; loop_diag HL.
Qed.

Lemma unreachableStep_in m startName b kv :
  diagsBy (diagIn L) b (unreachableStep m startName b kv).
Proof.
  unfold unreachableStep. destruct (getb m kv.1); [apply diagsBy_refl|].
  destruct (store b !! kv.1); loop_diag HL.
Qed.

Lemma unusedStep_in u m b sym : diagsBy (diagIn L) b (unusedStep u m b sym).
Proof.
  unfold unusedStep. destruct (store b !! sym); [|apply diagsBy_refl].
  repeat case_decide; try loop_diag HL.
  destruct (getb m sym); loop_diag HL.
Qed.

Lemma Finalize_in b :
  (Rules (g b) = [] -> In (DiagError, "grammar has no rules"%string) L) ->
  (Start (g b) = None ->
   In (DiagError, "start symbol is not set and could not be inferred"%string) L) ->
  (forall p s, Start (g b) = Some p -> store b !! p = Some s ->
     Kind s <> SymNonterminal ->
     In (DiagError, "start symbol %q must be a nonterminal"%string) L) ->
  (forall r, In r (Rules (g b)) ->
     (r = None \/ exists r0, r = Some r0 /\ LHS r0 = None) ->
     In (DiagError, "rule has nil LHS"%string) L) ->
  (forall r0, In (Some r0) (Rules (g b)) -> In None (Alternatives r0) ->
     In (DiagError, "rule %q has a nil alternative"%string) L) ->
  diagsBy (diagIn L) b (Finalize b).
Proof.
  intros H0 HS HK HN HA. unfold Finalize.
  destruct (Rules (g b)) as [|r0 rules] eqn:HR; [by apply error_diagsBy, H0|].
  cbv beta iota. rewrite <- HR in HN, HA.
  set (b1 := match Start (g b) with Some _ => _ | None => _ end).
  assert (H1 : diagsBy (diagIn L) b b1).
  { unfold b1. destruct (Start (g b)) as [p|]; [|by apply error_diagsBy, HS].
    destruct (store b !! p) as [s|] eqn:Hp; [|apply diagsBy_refl].
    case_decide; [|apply diagsBy_refl]. apply error_diagsBy. by eapply HK. }
  assert (Hg1 : Rules (g b1) = Rules (g b)) by (destruct H1 as (_ & -> & _); done).
  pose proof (foldl_lhsStep_in (Rules (g b1)) (b1, ∅)) as H2.
  rewrite Hg1 in H2 |- *.
  specialize (H2 HN).
  destruct (foldl lhsStep (b1, ∅) (Rules (g b))) as [b2 lhsHasRule]. simpl in H2.
  assert (Hg : Rules (g b2) = Rules (g b)) by (destruct H2 as (_ & -> & _); done).
  rewrite Hg.
  pose proof (foldl_ruleStep_in (Rules (g b)) {| vb := b2; used := ∅; edges := ∅ |} HA)
    as H3. simpl in H3.
  set (st := foldl ruleStep _ (Rules (g b))) in *.
  pose proof (foldl_diagsBy (diagIn L) (undefinedStep lhsHasRule)
                (map_to_list (used st)) (undefinedStep_in lhsHasRule) (vb st)) as H4.
  set (b4 := foldl (undefinedStep lhsHasRule) (vb st) _) in *.
  set (b5 := match Start (g b4) with Some _ => _ | None => _ end).
  assert (H5 : diagsBy (diagIn L) b4 b5).
  { unfold b5. destruct (Start (g b4)) as [p|]; [|apply diagsBy_refl].
    destruct (store b4 !! p) as [s|]; [|apply diagsBy_refl].
    case_decide; [|apply diagsBy_refl].
    destruct (reachLoop _ _ _ _) as [reachable stk].
    apply foldl_diagsBy. intros. apply unreachableStep_in. }
  pose proof (foldl_diagsBy (diagIn L) (unusedStep (used st) lhsHasRule)
                (Symbols (g b5)) (unusedStep_in _ _) b5) as H6.
  repeat (eapply diagsBy_trans; [eassumption|]).
  apply diagsBy_refl.
Qed.

End FinalizeDiags.

(** X10. Every diagnostic [Finalize] records is one of fifteen, each with a
    fixed level: nine are errors and six are warnings, as listed in
    [finalizeDiags]; the earlier diagnostics are kept in front. *)
Theorem Finalize_diagnostics b :
  exists new, diags (Finalize b) = diags b ++ new
    /\ forall d, In d new -> In (Level d, format (Msg d)) finalizeDiags.
Proof.
  destruct (Finalize_in finalizeDiags) with (b := b) as (_ & _ & _ & new & Hd & F).
  - intros x Hx. simpl in Hx. simpl. tauto.
  - intros _. simpl. tauto.
  - intros _. simpl. tauto.
  - intros. simpl. tauto.
  - intros. simpl. tauto.
  - intros. simpl. tauto.
  - exists new. split; [done|]. intros d Hd'.
    rewrite Forall_forall in F. apply F. by apply list_elem_of_In.
Qed.

(** X11. On a grammar built from a new builder [Finalize] never records
    that the start symbol is not a nonterminal, that a rule has a nil LHS,
    or that a rule has a nil alternative: the builder does not
    construct such grammars, so every diagnostic of [Finalize] is one of the
    other twelve. *)
Theorem Finalize_built_diagnostics b :
  built b ->
  exists new, diags (Finalize b) = diags b ++ new
    /\ forall d, In d new -> In (Level d, format (Msg d)) builtFinalizeDiags.
Proof.
  intros Hb. pose proof (built_wellformed _ Hb) as Hw.
  destruct (Finalize_in builtFinalizeDiags) with (b := b) as (_ & _ & _ & new & Hd & F).
  - intros x Hx. simpl in Hx. simpl. tauto.
  - intros _. simpl. tauto.
  - intros _. simpl. tauto.
  - intros p s Hp Hs Hk. destruct (wf_start _ Hw p Hp) as (s' & Hs' & Hk').
    congruence.
  - intros r Hr Hnil. apply list_elem_of_In, list_elem_of_lookup in Hr as (i & Hi).
    destruct (wf_rules _ Hw i r Hi) as (r0 & lhs & s & -> & Hl & _).
    destruct Hnil as [?|(r1 & E & Hl1)]; [done|]. injection E as <-. congruence.
  - intros r0 Hr Hnil. apply list_elem_of_In, list_elem_of_lookup in Hr as (i & Hi).
    destruct (wf_rules _ Hw i _ Hi) as (r1 & lhs & s & E & _ & _ & Ha).
    injection E as <-. rewrite Forall_forall in Ha.
    apply list_elem_of_In, Ha in Hnil. by destruct Hnil.
  - exists new. split; [done|]. intros d Hd'.
    rewrite Forall_forall in F. apply F. by apply list_elem_of_In.
Qed.

Lemma Finalize_built_diagnostics_witness :
  exists new, diags (Finalize sampleBuilder) = diags sampleBuilder ++ new
    /\ forall d, In d new -> In (Level d, format (Msg d)) builtFinalizeDiags.
Proof. exact (Finalize_built_diagnostics sampleBuilder sampleBuilder_built). Defined.

(** ** The dummy symbol *)

Lemma after_table_ok b b' : after b b' -> table_ok b -> table_ok b'.
Proof.
  induction 1 as [b|b op b' _ _ IH|IsLetter ToUpper s e b' _ IH]; intros Hb.
  - done.
  - by apply IH, apply_op_table_ok.
  - apply IH. by apply (handleAll_table_ok IsLetter ToUpper [e]).
Qed.

Lemma built_table_ok b : built b -> table_ok b.
Proof.
  intros (l & Ha). eapply after_table_ok; [exact Ha|apply NewBuilder_table_ok].
Qed.

(** X12. [internDummy] makes one stable placeholder per builder. On a built
    grammar the symbol it returns is a symbol of the builder, named
    [<invalid>] and found by [Lookup] under that name; the call records no
    diagnostic and either changes nothing or allocates that one symbol, as
    a nonterminal, at the end of the store; every later call returns the
    same symbol and changes nothing. *)
Theorem internDummy_once at1 at2 b :
  built b ->
  let r := internDummy at1 b in
  (exists s, store r.2 !! r.1 = Some s /\ Name s = invalidName)
  /\ Lookup invalidName r.2 = Some r.1
  /\ internDummy at2 r.2 = r
  /\ diags r.2 = diags b
  /\ (r.2 = b
      \/ exists s, store r.2 = store b ++ [s] /\ r.1 = length (store b)
           /\ Name s = invalidName /\ Kind s = SymNonterminal).
Proof.
  intros Hb r.
  pose proof (internDummy_lookup at1 b) as Hl. fold r in Hl.
  assert (Ht : table_ok r.2) by (by apply internDummy_table_ok, built_table_ok).
  split; [by apply (table_named _ Ht)|].
  split; [unfold Lookup; by rewrite TrimSpace_invalidName|].
  split; [|split].
  - rewrite (internDummy_found at2 _ _ Hl). by destruct r.
  - unfold r, internDummy.
    destruct (SymbolsByName (g b) !! invalidName) as [p|] eqn:Hp; [done|].
    rewrite internNamed_fresh by (by rewrite TrimSpace_invalidName). done.
  - unfold r, internDummy.
    destruct (SymbolsByName (g b) !! invalidName) as [p|] eqn:Hp; [by left|].
    right. rewrite internNamed_fresh by (by rewrite TrimSpace_invalidName).
    simpl. eexists. split; [reflexivity|]. split; [done|].
    split; [apply TrimSpace_invalidName|done].
Qed.

Lemma internDummy_once_witness :
  let r := internDummy None sampleBuilder in
  (exists s, store r.2 !! r.1 = Some s /\ Name s = invalidName)
  /\ Lookup invalidName r.2 = Some r.1
  /\ internDummy None r.2 = r
  /\ diags r.2 = diags sampleBuilder
  /\ (r.2 = sampleBuilder
      \/ exists s, store r.2 = store sampleBuilder ++ [s]
           /\ r.1 = length (store sampleBuilder)
           /\ Name s = invalidName /\ Kind s = SymNonterminal).
Proof. exact (internDummy_once None None sampleBuilder sampleBuilder_built). Defined.

(** ** The heuristic for token-like names *)

(** X13. [looksLikeTerminal] holds of exactly the names that are not empty
    and either contain a rune that is not a letter or consist of runes that
    [unicode.ToUpper] leaves as they are; so a name of letters without case
    counts as a terminal, and one lower-case letter among letters makes a
    nonterminal. *)
Theorem looksLikeTerminal_iff (IsLetter : Z -> bool) (ToUpper : Z -> Z) name :
  looksLikeTerminal IsLetter ToUpper name = true
  <-> name <> []
      /\ (Exists (fun c => IsLetter c = false) name
          \/ Forall (fun c => ToUpper c = c) name).
Proof.
  unfold looksLikeTerminal.
  destruct (decide (name = [])) as [->|Hne].
  { split; [done|]. by intros [H _]. }
  destruct (decide (Forall (fun c => IsLetter c = true) name)) as [Hall|Hex].
  - destruct (decide (Forall (fun c => ToUpper c = c) name)) as [Hfix|Hlow].
    + rewrite looksLikeTerminalLoop_upper.
      * simpl. rewrite bool_decide_eq_true_2 by done. split; [|done].
        intros _. split; [done|by right].
      * rewrite Forall_forall in Hall, Hfix. apply Forall_forall.
        intros c Hc. split; [by apply Hall|by apply Hfix].
    + apply not_Forall_Exists in Hlow; [|intros c; apply _].
      rewrite looksLikeTerminalLoop_lower by done. split; [done|].
      intros [_ [Hnl|Hfix]].
      * apply Exists_exists in Hnl as (c & Hc & Hf).
        rewrite Forall_forall in Hall. rewrite (Hall c Hc) in Hf. done.
      * apply Exists_exists in Hlow as (c & Hc & Hf).
        rewrite Forall_forall in Hfix. by specialize (Hfix c Hc).
  - apply not_Forall_Exists in Hex; [|intros c; apply _].
    assert (Hnl : Exists (fun c => IsLetter c = false) name).
    { eapply Exists_impl; [exact Hex|]. intros c Hc. simpl in Hc.
      by destruct (IsLetter c). }
    rewrite looksLikeTerminalLoop_nonletter by done.
    split; [|done]. intros _. split; [done|by left].
Qed.

(** ** Rule builders *)

Lemma Alt_Rules rb idx r rhs act prec at_ b :
  rule rb = Some idx -> done rb = false -> Rules (g b) !! idx = Some (Some r) ->
  exists a,
    Rules (g (Alt (Some rb) rhs act prec at_ b))
      = <[idx := Some (add_alternative a r)]> (Rules (g b))
    /\ RHS a = rhs /\ AltAction a = act /\ AltAt a = at_
    /\ (PrecSym a = prec \/ PrecSym a = None).
Proof.
  intros Hr Hd Hi. unfold Alt. rewrite Hd, Hr.
  pose proof (checkRHS_diagsOnly at_ rhs 0 b) as (_ & H0 & _).
  set (b0 := checkRHS at_ 0 rhs b) in *.
  destruct prec as [p|].
  - destruct (store b0 !! p) as [s|]; [case_decide|]; simpl;
      rewrite H0, Hi; eexists; (split; [reflexivity|]); simpl; auto.
  - simpl. rewrite H0, Hi. eexists. split; [reflexivity|]. simpl. auto.
Qed.

Lemma BeginRule_Rules lhs at_ b rb b1 :
  BeginRule lhs at_ b = (Some rb, b1) ->
  rule rb = Some (length (Rules (g b))) /\ done rb = false
  /\ exists p, Rules (g b1)
       = Rules (g b) ++ [Some {| LHS := Some p; Alternatives := []; RuleAt := at_ |}]
     /\ (lhs = Some p \/ lhs = None).
Proof.
  unfold BeginRule.
  assert (Hg : Rules (g (match lhs with Some p => (p, b) | None => internDummy at_ b end).2)
               = Rules (g b)).
  { destruct lhs as [p|]; [done|]. unfold internDummy.
    destruct (SymbolsByName (g b) !! invalidName) as [q|] eqn:Hq; [done|].
    by rewrite internNamed_fresh by (by rewrite TrimSpace_invalidName). }
  assert (Hl : forall p, (match lhs with Some p => (p, b) | None => internDummy at_ b end).1 = p ->
                 lhs = Some p \/ lhs = None).
  { destruct lhs; [left; simpl in *; congruence|by right]. }
  destruct (match lhs with Some p => (p, b) | None => internDummy at_ b end)
    as [p b0]. simpl in Hg. specialize (Hl p eq_refl).
  destruct (store b0 !! p) as [s|]; [|done].
  set (b' := if decide (Kind s <> SymNonterminal) then _ else b0).
  assert (Hg' : Rules (g b') = Rules (g b)).
  { unfold b'. by case_decide. }
  intros E. injection E as <- <-. rewrite Hg'. split; [done|]. split; [done|].
  exists p. split; [|done].
  case_decide; simpl; by rewrite Hg'.
Qed.

Lemma BeginRule_rule lhs at_ b rb b1 :
  BeginRule lhs at_ b = (Some rb, b1) ->
  rule rb = Some (length (Rules (g b))) /\ done rb = false
  /\ exists p, Rules (g b1) !! length (Rules (g b))
       = Some (Some {| LHS := Some p; Alternatives := []; RuleAt := at_ |})
     /\ (lhs = Some p \/ lhs = None).
Proof.
  intros H. destruct (BeginRule_Rules _ _ _ _ _ H) as (H1 & H2 & p & H3 & H4).
  split; [done|]. split; [done|]. exists p. split; [|done].
  rewrite H3, lookup_app_r by lia. by rewrite Nat.sub_diag.
Qed.

(** X14. A rule builder writes to its own rule, however the builder was
    used in between: [Alt] on the rule builder that [BeginRule] returned
    appends one alternative, with the given RHS, action and span, to the
    rule started by that [BeginRule], at the position the rule was given in
    [g.Rules], and leaves the other rules as they are: the rule has the
    alternatives it had, followed by the new one, and its LHS and span;
    after [End], [Alt] changes nothing. *)
Theorem Alt_appends_to_its_rule lhs at_ b rb b1 b2 rhs act prec at' :
  BeginRule lhs at_ b = (Some rb, b1) -> after b1 b2 ->
  exists r a,
    Rules (g b2) !! length (Rules (g b)) = Some (Some r)
    /\ RuleAt r = at_
    /\ Rules (g (Alt (Some rb) rhs act prec at' b2))
       = <[length (Rules (g b)) := Some (add_alternative a r)]> (Rules (g b2))
    /\ RHS a = rhs /\ AltAction a = act /\ AltAt a = at'
    /\ (PrecSym a = prec \/ PrecSym a = None)
    /\ Alt (End (Some rb)) rhs act prec at' b2 = b2
    /\ Alternatives (add_alternative a r) = Alternatives r ++ [Some a]
    /\ LHS (add_alternative a r) = LHS r
    /\ RuleAt (add_alternative a r) = RuleAt r.
Proof.
  intros Hb Ha.
  destruct (BeginRule_rule _ _ _ _ _ Hb) as (Hr & Hd & p & Hi & _).
  destruct (grows_rules _ _ (after_grows _ _ Ha) _ _ Hi) as ([r|] & Hr2 & H); [|done].
  destruct H as (_ & Hat & _). simpl in Hat.
  destruct (Alt_Rules rb _ r rhs act prec at' b2 Hr Hd Hr2) as (a & E & H1 & H2 & H3 & H4).
  exists r, a. by repeat split.
Qed.

Lemma Alt_appends_to_its_rule_witness :
  let b := run [OpIntern (runes "expr") SymNonterminal None] (NewBuilder []) in
  let rb := {| rule := Some 0%nat; done := false |} in
  let b1 := (BeginRule (Some 0%nat) None b).2 in
  let b2 := run [OpBeginRule None None] b1 in
  exists r a,
    Rules (g b2) !! 0%nat = Some (Some r)
    /\ RuleAt r = None
    /\ Rules (g (Alt (Some rb) [] None None None b2))
       = <[0%nat := Some (add_alternative a r)]> (Rules (g b2))
    /\ RHS a = [] /\ AltAction a = None /\ AltAt a = None
    /\ (PrecSym a = None \/ PrecSym a = None)
    /\ Alt (End (Some rb)) [] None None None b2 = b2
    /\ Alternatives (add_alternative a r) = Alternatives r ++ [Some a]
    /\ LHS (add_alternative a r) = LHS r
    /\ RuleAt (add_alternative a r) = RuleAt r.
Proof.
  intros b rb b1 b2.
  refine (Alt_appends_to_its_rule (Some 0%nat) None b rb b1 b2 [] None None None
            eq_refl _).
  by apply after_run.
Defined.

(** ** The sink: the open rule and the declared tokens *)

Lemma internNamed_Rules n k a b : Rules (g (internNamed n k a b).2) = Rules (g b).
Proof. unfold internNamed. counter_frame. Qed.

Lemma internDummy_Rules a b : Rules (g (internDummy a b).2) = Rules (g b).
Proof.
  unfold internDummy. destruct (SymbolsByName (g b) !! invalidName); [done|].
  apply internNamed_Rules.
Qed.

Lemma Intern_Rules n k a b : Rules (g (Intern n k a b).2) = Rules (g b).
Proof.
  unfold Intern. case_decide; [|apply internNamed_Rules].
  by rewrite internDummy_Rules.
Qed.

Lemma SetTypeTag_Rules sym t a b : Rules (g (SetTypeTag sym t a b)) = Rules (g b).
Proof. unfold SetTypeTag. counter_frame. Qed.

Lemma SetStart_Rules sym a b : Rules (g (SetStart sym a b)) = Rules (g b).
Proof. unfold SetStart. counter_frame. Qed.

Lemma precedenceLoop_Rules assoc level a ts : forall b,
  Rules (g (foldl (precedenceStep assoc level a) b ts)) = Rules (g b).
Proof.
  induction ts as [|t ts IH]; intros b; simpl; [done|]. rewrite IH.
  unfold precedenceStep. counter_frame.
Qed.

Lemma DefinePrecedenceGroup_Rules assoc ts a b :
  Rules (g (DefinePrecedenceGroup assoc ts a b)) = Rules (g b).
Proof.
  unfold DefinePrecedenceGroup. case_decide; [done|]. by rewrite precedenceLoop_Rules.
Qed.

Lemma SetDirective_Rules k v a b : Rules (g (SetDirective k v a b)) = Rules (g b).
Proof. unfold SetDirective. counter_frame. Qed.

Ltac rules_frame :=
  intros;
  first [ reflexivity | congruence | apply Intern_Rules | apply internDummy_Rules
        | apply SetTypeTag_Rules | apply SetStart_Rules
        | apply DefinePrecedenceGroup_Rules | apply SetDirective_Rules ].

Lemma Directive_Rules d s : Rules (g (B (Directive d s))) = Rules (g (B s)).
Proof.
  apply (Directive_start_R (fun b b' => Rules (g b') = Rules (g b))); rules_frame.
Qed.

Lemma keepsTokens_refl s : keepsTokens s s.
Proof. by intros n. Qed.

Lemma keepsTokens_trans s1 s2 s3 :
  keepsTokens s1 s2 -> keepsTokens s2 s3 -> keepsTokens s1 s3.
Proof. intros H1 H2 n Hn. by apply H2, H1. Qed.

Lemma sinkFrame_refl s : sinkFrame s s.
Proof. repeat split. apply keepsTokens_refl. Qed.

Lemma sinkFrame_trans s1 s2 s3 : sinkFrame s1 s2 -> sinkFrame s2 s3 -> sinkFrame s1 s3.
Proof.
  intros (A1 & A2 & A3 & A4) (B1 & B2 & B3 & B4).
  repeat split; try congruence. by eapply keepsTokens_trans.
Qed.

Lemma set_B_frame b s : sinkFrame s (set_B b s).
Proof. repeat split. by intros n. Qed.

Lemma declToken_frame n s : sinkFrame s (declToken n s).
Proof.
  repeat split. intros m Hm. simpl.
  destruct (decide (n = m)) as [->|Hne]; [by rewrite lookup_insert_eq|].
  by rewrite lookup_insert_ne.
Qed.

Lemma declType_frame n t s : sinkFrame s (declType n t s).
Proof. repeat split. by intros m. Qed.

Lemma foldl_frame {A S} (proj : S -> BuilderSink) (f : S -> A -> S) (l : list A) :
  (forall st x, sinkFrame (proj st) (proj (f st x))) ->
  forall st, sinkFrame (proj st) (proj (foldl f st l)).
Proof.
  intros Hf. induction l as [|x l IH]; intros st; simpl; [apply sinkFrame_refl|].
  eapply sinkFrame_trans; [apply Hf|apply IH].
Qed.

Lemma tokenStep_frame s sr : sinkFrame s (tokenStep s sr).
Proof.
  unfold tokenStep. case_decide; [apply sinkFrame_refl|].
  eapply sinkFrame_trans; [apply declToken_frame|apply set_B_frame].
Qed.

Lemma typeStep_frame t s sr : sinkFrame s (typeStep t s sr).
Proof.
  unfold typeStep. case_decide; [apply sinkFrame_refl|].
  destruct (EnsureNonterminal _ _ _) as [sym b].
  eapply sinkFrame_trans; [apply (set_B_frame b)|].
  eapply sinkFrame_trans; [apply declType_frame|apply set_B_frame].
Qed.

Lemma precListStep_frame st sr : sinkFrame st.1 (precListStep st sr).1.
Proof.
  destruct st as [s ts]. unfold precListStep. simpl.
  case_decide; [apply sinkFrame_refl|].
  destruct (EnsureTerminal _ _ _) as [sym b]. simpl.
  eapply sinkFrame_trans; [apply declToken_frame|apply set_B_frame].
Qed.

Lemma precFieldStep_frame a st n : sinkFrame st.1 (precFieldStep a st n).1.
Proof.
  destruct st as [s ts]. unfold precFieldStep. simpl.
  destruct (EnsureTerminal _ _ _) as [sym b]. simpl.
  eapply sinkFrame_trans; [apply declToken_frame|apply set_B_frame].
Qed.

Lemma Directive_frame d s : sinkFrame s (Directive d s).
Proof.
  unfold Directive.
  case_decide.
  { case_decide; [apply set_B_frame|].
    destruct (EnsureNonterminal _ _ _) as [sym b]. apply set_B_frame. }
  case_decide.
  { set (s1 := if decide (TrimSpace (Value d) <> []) then _ else s).
    assert (HA1 : sinkFrame s s1).
    { unfold s1. case_decide; [|apply sinkFrame_refl].
      eapply sinkFrame_trans; [apply declToken_frame|apply set_B_frame]. }
    eapply sinkFrame_trans; [exact HA1|].
    apply (foldl_frame (fun s => s) tokenStep). apply tokenStep_frame. }
  case_decide.
  { case_decide; [apply set_B_frame|].
    apply (foldl_frame (fun s => s) (typeStep _)). apply typeStep_frame. }
  case_decide; [apply set_B_frame|].
  case_decide; [|apply set_B_frame].
  pose proof (foldl_frame (fun st => st.1) precListStep (DList d) precListStep_frame (s, []))
    as HA1.
  destruct (foldl precListStep _ _) as [s1 ts1]. simpl in HA1.
  set (st2 := if decide (length ts1 = 0%nat) then _ else (s1, ts1)).
  assert (HA2 : sinkFrame s1 st2.1).
  { unfold st2. case_decide; [|apply sinkFrame_refl].
    apply (foldl_frame (fun st => st.1) (precFieldStep (DAt d)) _
             (precFieldStep_frame (DAt d)) (s1, ts1)). }
  destruct st2 as [s2 ts2]. simpl in HA2.
  eapply sinkFrame_trans; [exact HA1|]. eapply sinkFrame_trans; [exact HA2|].
  case_decide; apply set_B_frame.
Qed.

Lemma EndRule_keeps a s : keepsTokens s (EndRule a s).
Proof. unfold EndRule. destruct (curRule s); by intros n. Qed.

Lemma SinkBeginRule_keeps lhs s : keepsTokens s (SinkBeginRule lhs s).
Proof.
  unfold SinkBeginRule.
  set (s0 := match curRule s with Some _ => _ | None => s end).
  assert (H0 : declTokens s0 = declTokens s) by (unfold s0; by destruct (curRule s)).
  intros n Hn. rewrite <- H0 in Hn. revert Hn. generalize s0. clear. intros s Hn.
  case_decide; [done|].
  destruct (EnsureNonterminal _ _ _) as [sym b]. simpl.
  destruct (declTypes s !! _) as [tag|]; [case_decide|];
    destruct (BeginRule _ _ _) as [rb b']; done.
Qed.

Section SinkFrames.

Variable IsLetter : Z -> bool.
Variable ToUpper : Z -> Z.

Lemma resolveSymbolInRHS_frame sr s :
  sinkFrame s (resolveSymbolInRHS IsLetter ToUpper sr s).2.
Proof.
  unfold resolveSymbolInRHS. case_decide.
  - destruct (internDummy _ _) as [p b1]. apply set_B_frame.
  - destruct (default false _).
    + destruct (EnsureTerminal _ _ _) as [p b1]. apply set_B_frame.
    + destruct (Lookup _ _); [apply sinkFrame_refl|].
      destruct (_ && _).
      * destruct (EnsureTerminal _ _ _) as [p b1]. apply set_B_frame.
      * destruct (EnsureNonterminal _ _ _) as [p b1]. apply set_B_frame.
Qed.

Lemma altRefStep_frame st sr : sinkFrame st.1 (altRefStep IsLetter ToUpper st sr).1.
Proof.
  destruct st as [s rhs]. unfold altRefStep.
  pose proof (resolveSymbolInRHS_frame sr s) as H1.
  destruct (resolveSymbolInRHS IsLetter ToUpper sr s) as [sym s1]. simpl in H1.
  set (s2 := if decide (STypeTag sr <> []) then _ else s1).
  assert (H2 : sinkFrame s1 s2).
  { unfold s2. case_decide; [apply set_B_frame|apply sinkFrame_refl]. }
  destruct (NewRef _ _ _ _) as [ref b3]. simpl.
  eapply sinkFrame_trans; [exact H1|]. eapply sinkFrame_trans; [exact H2|].
  apply set_B_frame.
Qed.

Lemma altRefStep_Rules st sr :
  Rules (g (B (altRefStep IsLetter ToUpper st sr).1)) = Rules (g (B st.1)).
Proof.
  apply (altRefStep_R IsLetter ToUpper (fun b b' => Rules (g b') = Rules (g b)));
    rules_frame.
Qed.

Lemma altRefStep_length st sr :
  length (altRefStep IsLetter ToUpper st sr).2 = S (length st.2).
Proof.
  destruct st as [s rhs]. unfold altRefStep.
  destruct (resolveSymbolInRHS IsLetter ToUpper sr s) as [sym s1].
  destruct (NewRef _ _ _ _) as [ref b3]. simpl.
  rewrite length_app. simpl. lia.
Qed.

(** The loop of [Alternative] over the RHS. *)
Lemma altRefs_fold refs : forall st,
  let st' := foldl (altRefStep IsLetter ToUpper) st refs in
  sinkFrame st.1 st'.1
  /\ Rules (g (B st'.1)) = Rules (g (B st.1))
  /\ length st'.2 = (length st.2 + length refs)%nat.
Proof.
  induction refs as [|sr refs IH]; intros st; simpl.
  - split; [apply sinkFrame_refl|]. split; [done|lia].
  - destruct (IH (altRefStep IsLetter ToUpper st sr)) as (H1 & H2 & H3).
    split; [eapply sinkFrame_trans; [apply altRefStep_frame|exact H1]|].
    split; [by rewrite H2, altRefStep_Rules|].
    rewrite H3, altRefStep_length. lia.
Qed.

(** [Alternative] with a rule open: the builder is the one [Alt] returns,
    called on the open rule after the symbols are resolved. *)
Lemma Alternative_open alt s rb l :
  curRule s = Some rb -> curLHS s = Some l ->
  exists s1 rhs prec,
    sinkFrame s s1 /\ Rules (g (B s1)) = Rules (g (B s))
    /\ length rhs = length (ARHS alt)
    /\ Alternative_ IsLetter ToUpper alt s
       = set_B (Alt (Some rb) rhs (AAction alt) prec (AAt alt) (B s1)) s1.
Proof.
  intros Hr Hl. unfold Alternative_. rewrite Hr, Hl.
  destruct (altRefs_fold (ARHS alt) (s, [])) as (H1 & H2 & H3).
  destruct (foldl _ _ _) as [s1 rhs]. simpl in H1, H2, H3.
  destruct (APrec alt) as [ps|].
  - case_decide.
    + exists (set_B (error (SAt ps) "precedence override symbol is empty" [] (B s1)) s1),
        rhs, None.
      split; [eapply sinkFrame_trans; [exact H1|apply set_B_frame]|].
      split; [exact H2|]. split; [exact H3|].
      destruct H1 as (E & _). rewrite <- Hr, <- E. reflexivity.
    + pose proof (Intern_Rules (TrimSpace (SName ps)) SymTerminal (SAt ps)
                    (B (declToken (TrimSpace (SName ps)) s1))) as HI.
      unfold EnsureTerminal.
      destruct (Intern _ _ _ _) as [sym b1]. simpl in HI.
      exists (set_B b1 (declToken (TrimSpace (SName ps)) s1)), rhs, (Some sym).
      split.
      { eapply sinkFrame_trans; [exact H1|].
        eapply sinkFrame_trans; [apply declToken_frame|apply set_B_frame]. }
      split; [simpl; by rewrite HI|]. split; [exact H3|].
      destruct H1 as (E & _). rewrite <- Hr, <- E. reflexivity.
  - exists s1, rhs, None. split; [exact H1|]. split; [exact H2|]. split; [exact H3|].
    destruct H1 as (E & _). by rewrite E, Hr.
Qed.

Lemma Alternative_closed alt s :
  curRule s = None \/ curLHS s = None ->
  Alternative_ IsLetter ToUpper alt s
  = set_B (error (AAt alt) "alternative encountered without an open rule" [] (B s)) s.
Proof.
  intros [H|H]; unfold Alternative_; rewrite H; [done|].
  by destruct (curRule s).
Qed.

Lemma Alternative_keeps alt s : keepsTokens s (Alternative_ IsLetter ToUpper alt s).
Proof.
  destruct (curRule s) as [rb|] eqn:Hr; [destruct (curLHS s) as [l|] eqn:Hl|].
  - destruct (Alternative_open alt s rb l Hr Hl) as (s1 & rhs & prec & H1 & _ & _ & ->).
    destruct H1 as (_ & _ & _ & H1). exact H1.
  - rewrite Alternative_closed by (by right). by intros n.
  - rewrite Alternative_closed by (by left). by intros n.
Qed.

Lemma handle_keeps s e : keepsTokens s (handle IsLetter ToUpper s e).
Proof.
  destruct e; simpl.
  - apply Directive_frame.
  - apply SinkBeginRule_keeps.
  - apply Alternative_keeps.
  - apply EndRule_keeps.
  - by intros n.
Qed.

Lemma handleAll_keeps evs : forall s, keepsTokens s (handleAll IsLetter ToUpper s evs).
Proof.
  induction evs as [|e evs IH]; intros s; simpl; [apply keepsTokens_refl|].
  eapply keepsTokens_trans; [apply handle_keeps|apply IH].
Qed.

Lemma openLast_frame s s' :
  sinkFrame s s' -> Rules (g (B s')) = Rules (g (B s)) -> openLast s -> openLast s'.
Proof.
  intros (E1 & E2 & _) E3. unfold openLast. by rewrite E1, E2, E3.
Qed.

Lemma SinkBeginRule_openLast lhs s : openLast (SinkBeginRule lhs s).
Proof.
  unfold SinkBeginRule.
  set (s0 := match curRule s with Some _ => _ | None => s end).
  assert (H0 : curRule s0 = None) by (unfold s0; by destruct (curRule s) eqn:E).
  revert H0. generalize s0. clear. intros s H0.
  case_decide; [unfold openLast; simpl; by rewrite H0|].
  destruct (EnsureNonterminal _ _ _) as [sym b]. cbv zeta.
  set (s2 := match declTypes _ !! _ with Some _ => _ | None => _ end).
  assert (H2 : curLHS s2 = Some sym).
  { unfold s2. destruct (_ !! _) as [tag|]; [case_decide|]; done. }
  rewrite H2.
  destruct (BeginRule (Some sym) (SAt lhs) (B s2)) as [rb b'] eqn:HB.
  destruct rb as [rb|]; [|done].
  destruct (BeginRule_Rules _ _ _ _ _ HB) as (Hr & Hd & p & HR & Hp).
  unfold openLast. simpl. split; [done|].
  eexists _, _. split; [exact HR|]. split; [done|]. simpl.
  destruct Hp as [Hp|Hp]; [|done]. split; [done|by eexists].
Qed.

Lemma Alternative_openLast alt s :
  openLast s -> openLast (Alternative_ IsLetter ToUpper alt s).
Proof.
  intros Ho.
  destruct (curRule s) as [rb|] eqn:Hr; [destruct (curLHS s) as [l|] eqn:Hl|]; cycle 1.
  - rewrite Alternative_closed by (by right). eapply openLast_frame; [apply set_B_frame|done..].
  - rewrite Alternative_closed by (by left). eapply openLast_frame; [apply set_B_frame|done..].
  - destruct (Alternative_open alt s rb l Hr Hl) as (s1 & rhs & prec & H1 & H2 & _ & ->).
    pose proof (openLast_frame _ _ H1 H2 Ho) as Ho1.
    destruct H1 as (E1 & E2 & _).
    unfold openLast in Ho1 |- *. unfold set_B. cbn [curRule curLHS B].
    rewrite E1, Hr in Ho1 |- *.
    destruct Ho1 as (Hd & init & r & HR & Hi & HL & HS).
    split; [done|].
    assert (Hlk : Rules (g (B s1)) !! length init = Some (Some r)).
    { rewrite HR, lookup_app_r by lia. by rewrite Nat.sub_diag. }
    destruct (Alt_Rules rb _ r rhs (AAction alt) prec (AAt alt) (B s1) Hi Hd Hlk)
      as (a & E & _).
    exists init, (add_alternative a r). rewrite E, HR. split.
    + rewrite insert_app_r_alt by lia. by rewrite Nat.sub_diag.
    + by repeat split.
Qed.

Lemma handle_openLast s e : openLast s -> openLast (handle IsLetter ToUpper s e).
Proof.
  destruct e; simpl; intros Ho.
  - eapply openLast_frame; [apply Directive_frame|apply Directive_Rules|done].
  - apply SinkBeginRule_openLast.
  - by apply Alternative_openLast.
  - unfold EndRule. destruct (curRule s) eqn:E; [|done]. by unfold openLast.
  - eapply openLast_frame; [apply set_B_frame|done..].
Qed.

Lemma handleAll_openLast evs : forall s,
  openLast s -> openLast (handleAll IsLetter ToUpper s evs).
Proof.
  induction evs as [|e evs IH]; intros s Ho; simpl; [done|].
  by apply IH, handle_openLast.
Qed.

End SinkFrames.

(** X15. Driven by events from a new sink, [Alternative] writes to the rule
    of the latest [BeginRule] event, which is the last rule of the grammar:
    with a rule open it appends one alternative to that rule, with one RHS
    reference per symbol of the event and the event's action and span (the
    rule has the alternatives it had, followed by the new one, and its LHS
    and span), and leaves the rules before it as they are; with no rule
    open it records
    the error [alternative encountered without an open rule] and changes
    nothing else. *)
Theorem Alternative_extends_open_rule (IsLetter : Z -> bool) (ToUpper : Z -> Z)
    b0 evs alt :
  let s := handleAll IsLetter ToUpper (NewBuilderSink b0) evs in
  let s' := Alternative_ IsLetter ToUpper alt s in
  match curRule s with
  | None =>
      B s' = error (AAt alt) "alternative encountered without an open rule" [] (B s)
  | Some _ =>
      exists init r a,
        Rules (g (B s)) = init ++ [Some r]
        /\ LHS r = curLHS s /\ is_Some (LHS r)
        /\ Rules (g (B s')) = init ++ [Some (add_alternative a r)]
        /\ length (RHS a) = length (ARHS alt)
        /\ AltAction a = AAction alt /\ AltAt a = AAt alt
        /\ Alternatives (add_alternative a r) = Alternatives r ++ [Some a]
        /\ LHS (add_alternative a r) = LHS r
        /\ RuleAt (add_alternative a r) = RuleAt r
  end.
Proof.
  intros s s'.
  assert (Ho : openLast s).
  { apply handleAll_openLast. by unfold openLast. }
  unfold openLast in Ho. unfold s'.
  destruct (curRule s) as [rb|] eqn:Hr.
  - destruct Ho as (Hd & init & r & HR & Hi & HL & [l Hl]).
    assert (Hcl : curLHS s = Some l) by congruence.
    destruct (Alternative_open IsLetter ToUpper alt s rb l Hr Hcl)
      as (s1 & rhs & prec & _ & H2 & H3 & ->).
    assert (Hlk : Rules (g (B s1)) !! length init = Some (Some r)).
    { rewrite H2, HR, lookup_app_r by lia. by rewrite Nat.sub_diag. }
    destruct (Alt_Rules rb _ r rhs (AAction alt) prec (AAt alt) (B s1) Hi Hd Hlk)
      as (a & E & Ha1 & Ha2 & Ha3 & _).
    exists init, r, a. split; [done|]. split; [done|]. split; [by exists l|].
    split.
    + unfold set_B. cbn [B]. rewrite E, H2, HR.
      rewrite insert_app_r_alt by lia. by rewrite Nat.sub_diag.
    + split; [congruence|]. by repeat split.
  - by rewrite Alternative_closed by (by left).
Qed.

(** ** Declared tokens *)

Lemma tokenOK_keep n s s' :
  keepsTokens s s' -> steps (B s) (B s') -> tokenOK n s -> tokenOK n s'.
Proof.
  intros Hk Hs (Hd & p & sy & Hp & Hsy & Hkind).
  pose proof (steps_grows _ _ Hs) as Hg.
  split; [by apply Hk|].
  destruct (grows_store _ _ Hg p sy Hsy) as (sy' & Hsy' & _ & _ & Hk' & _).
  exists p, sy'. split; [by apply (grows_names _ _ Hg)|]. split; [done|congruence].
Qed.

Lemma tokenStep_steps s sr : steps (B s) (B (tokenStep s sr)).
Proof.
  unfold tokenStep, EnsureTerminal. case_decide; [apply steps_refl|]. simpl.
  apply steps_Intern.
Qed.

Lemma tokenSteps_keep n l : forall s, tokenOK n s -> tokenOK n (foldl tokenStep s l).
Proof.
  induction l as [|sr l IH]; intros s Hs; simpl; [done|].
  apply IH. eapply tokenOK_keep; [|apply tokenStep_steps|exact Hs].
  apply tokenStep_frame.
Qed.

(** X16. A name declared by the value of a [%token] directive while it is
    not yet interned is a terminal from then on: whatever events follow, an
    RHS reference to the name resolves to that terminal, found under the
    name, and records no diagnostic, also where the heuristic would take
    the name for a nonterminal. *)
Theorem declared_token_stays_terminal (IsLetter : Z -> bool) (ToUpper : Z -> Z)
    s0 d evs sr :
  DKind d = DirToken -> TrimSpace (Value d) <> [] ->
  Lookup (Value d) (B s0) = None ->
  TrimSpace (SName sr) = TrimSpace (Value d) ->
  let s := handleAll IsLetter ToUpper (Directive d s0) evs in
  let r := resolveSymbolInRHS IsLetter ToUpper sr s in
  kindOf (B s) r.1 = Some SymTerminal
  /\ Lookup (SName sr) (B s) = Some r.1
  /\ B r.2 = B s.
Proof.
  intros Hk Hne Hfresh Hn s r.
  set (n := TrimSpace (Value d)) in *.
  assert (Htr : TrimSpace n = n) by apply TrimSpace_idemp.
  assert (H1 : tokenOK n (Directive d s0)).
  { unfold Directive. rewrite decide_False by (rewrite Hk; discriminate).
    rewrite decide_True by done. fold n. rewrite decide_True by done.
    apply tokenSteps_keep. split.
    - simpl. by rewrite lookup_insert_eq.
    - unfold EnsureTerminal, Intern. simpl. rewrite Htr, decide_False by done.
      rewrite internNamed_fresh by exact Hfresh. simpl.
      eexists _, _. split; [by rewrite lookup_insert_eq|].
      split.
      { rewrite lookup_app_r by lia. by rewrite Nat.sub_diag. }
      reflexivity. }
  assert (H2 : tokenOK n s).
  { eapply tokenOK_keep; [apply handleAll_keeps|apply handleAll_steps|exact H1]. }
  destruct H2 as (Hd & p & sy & Hp & Hsy & Hkind).
  assert (Hr : r = (p, set_B (B s) s)).
  { unfold r, resolveSymbolInRHS. rewrite Hn. fold n.
    rewrite decide_False by done. rewrite Hd. simpl.
    unfold EnsureTerminal, Intern. rewrite Htr, decide_False by done.
    rewrite (internNamed_found _ _ _ _ _ _ Hp Hsy).
    by rewrite decide_False by (intros H; by apply H). }
  rewrite Hr. simpl. split; [|split; [|done]].
  - unfold kindOf. by rewrite Hsy, <- Hkind.
  - unfold Lookup. rewrite Hn. exact Hp.
Qed.

Lemma declared_token_stays_terminal_witness :
  let s0 := NewBuilderSink (NewBuilder []) in
  let d := {| DKind := DirToken; DAt := None; Key := [];
              Value := runes " plus "; DList := [] |} in
  let expr := {| SName := runes "expr"; SAt := None; SLabel := []; STypeTag := [] |} in
  let sr := {| SName := runes "plus"; SAt := None; SLabel := []; STypeTag := [] |} in
  let s := handleAll asciiIsLetter asciiToUpper (Directive d s0) [EvBeginRule expr] in
  let r := resolveSymbolInRHS asciiIsLetter asciiToUpper sr s in
  kindOf (B s) r.1 = Some SymTerminal
  /\ Lookup (SName sr) (B s) = Some r.1
  /\ B r.2 = B s.
Proof.
  intros s0 d expr sr.
  apply (declared_token_stays_terminal asciiIsLetter asciiToUpper s0 d
           [EvBeginRule expr] sr); [reflexivity|discriminate|reflexivity|reflexivity].
Defined.

(** ** What [Finalize] counts as a use *)

Lemma getn_insert_eq (u : gmap nat Z) p v : getn (<[p := v]> u) p = v.
Proof. unfold getn. by rewrite lookup_insert_eq. Qed.

Lemma getn_insert_ne (u : gmap nat Z) p q v : p <> q -> getn (<[p := v]> u) q = getn u q.
Proof. intros H. unfold getn. by rewrite lookup_insert_ne. Qed.

Lemma used_incr n (u : gmap nat Z) p :
  bounded n u -> n + 1 <= MaxInt ->
  bounded (n + 1) (<[p := wrapInt (getn u p + 1)]> u)
  /\ (forall q, getn u q <= getn (<[p := wrapInt (getn u p + 1)]> u) q)
  /\ 1 <= getn (<[p := wrapInt (getn u p + 1)]> u) p.
Proof.
  intros Hb Hn.
  assert (E : wrapInt (getn u p + 1) = getn u p + 1).
  { apply wrapInt_small. specialize (Hb p). unfold MaxInt in *. lia. }
  rewrite E. split; [|split].
  - intros q. destruct (decide (p = q)) as [->|Hne].
    + rewrite getn_insert_eq. specialize (Hb q). lia.
    + rewrite getn_insert_ne by done. specialize (Hb q). lia.
  - intros q. destruct (decide (p = q)) as [->|Hne].
    + rewrite getn_insert_eq. lia.
    + rewrite getn_insert_ne by done. lia.
  - rewrite getn_insert_eq. specialize (Hb p). lia.
Qed.

Lemma bounded_le n m u : bounded n u -> n <= m -> bounded m u.
Proof. intros Hb Hle q. specialize (Hb q). lia. Qed.

Lemma rhsLoop_store lhs lhsName altAt rhs pos st :
  store (vb (rhsLoop lhs lhsName altAt pos rhs st)) = store (vb st).
Proof. by destruct (rhsLoop_diagsBy lhs lhsName altAt rhs pos st) as (H & _). Qed.

Lemma altStep_store lhs lhsName ruleAt st alt :
  store (vb (altStep lhs lhsName ruleAt st alt)) = store (vb st).
Proof. by destruct (altStep_diagsBy lhs lhsName ruleAt st alt) as (H & _). Qed.

Lemma ruleStep_store st r : store (vb (ruleStep st r)) = store (vb st).
Proof. by destruct (ruleStep_diagsBy st r) as (H & _). Qed.

Lemma foldl_ruleStep_store rules st :
  store (vb (foldl ruleStep st rules)) = store (vb st).
Proof. by destruct (foldl_ruleStep_diagsBy rules st) as (H & _). Qed.

(** The counts over one RHS. *)
Lemma rhsLoop_used lhs lhsName altAt rhs : forall pos st n,
  bounded n (used st) -> n + Z.of_nat (length rhs) <= MaxInt ->
  bounded (n + Z.of_nat (length rhs)) (used (rhsLoop lhs lhsName altAt pos rhs st))
  /\ (forall q, getn (used st) q <= getn (used (rhsLoop lhs lhsName altAt pos rhs st)) q)
  /\ (forall r p, In (Some r) rhs -> Sym r = Some p -> is_Some (store (vb st) !! p) ->
        1 <= getn (used (rhsLoop lhs lhsName altAt pos rhs st)) p).
Proof.
  induction rhs as [|sr rhs IH]; intros pos st n Hb Hn.
  - simpl. split; [eapply bounded_le; [exact Hb|lia]|]. split; [intros; lia|].
    intros r p [].
  - cbn [rhsLoop]. rewrite length_cons, Nat2Z.inj_succ in Hn |- *.
    set (st1 := match sr with Some _ => _ | None => _ end).
    assert (H1 : bounded (n + 1) (used st1)
                 /\ (forall q, getn (used st) q <= getn (used st1) q)
                 /\ store (vb st1) = store (vb st)
                 /\ (forall r p, sr = Some r -> Sym r = Some p ->
                       is_Some (store (vb st) !! p) -> 1 <= getn (used st1) p)).
    { unfold st1. destruct sr as [r|].
      - destruct (Sym r) as [p|] eqn:Hp.
        + destruct (store (vb st) !! p) as [s|] eqn:Hs.
          * destruct (used_incr n (used st) p Hb) as (A1 & A2 & A3); [lia|].
            simpl. split; [done|]. split; [done|]. split; [done|].
            intros r' p' E1 E2 _. injection E1 as <-. rewrite Hp in E2.
            by injection E2 as <-.
          * split; [eapply bounded_le; [exact Hb|lia]|]. split; [intros; lia|].
            split; [done|]. intros r' p' E1 E2 [s' Hs']. injection E1 as <-.
            rewrite Hp in E2. injection E2 as <-. congruence.
        + simpl. split; [eapply bounded_le; [exact Hb|lia]|]. split; [intros; lia|].
          split; [done|]. intros r' p' E1 E2. injection E1 as <-. congruence.
      - simpl. split; [eapply bounded_le; [exact Hb|lia]|]. split; [intros; lia|].
        split; [done|]. intros r' p' E1. discriminate. }
    destruct H1 as (B1 & M1 & S1 & O1).
    destruct (IH (pos + 1) st1 (n + 1) B1) as (B2 & M2 & O2); [lia|].
    split; [eapply bounded_le; [exact B2|lia]|]. split.
    + intros q. etrans; [apply M1|apply M2].
    + intros r p [E|Hin] Hp Hs.
      * etrans; [by eapply O1|apply M2].
      * eapply O2; eauto. by rewrite S1.
Qed.

(** A symbol not named on an RHS keeps its count. *)
Lemma rhsLoop_untouched lhs lhsName altAt p rhs : forall pos st,
  (forall r, In (Some r) rhs -> Sym r <> Some p) ->
  getn (used (rhsLoop lhs lhsName altAt pos rhs st)) p = getn (used st) p.
Proof.
  induction rhs as [|sr rhs IH]; intros pos st Hno; [done|].
  cbn [rhsLoop]. rewrite IH by (intros r Hr; apply Hno; by right).
  destruct sr as [r|]; [|done].
  destruct (Sym r) as [q|] eqn:Hq; [|done].
  destruct (store (vb st) !! q); [|done]. simpl.
  apply getn_insert_ne. intros ->. by apply (Hno r); [left|].
Qed.

(** The counts over one alternative. *)
Lemma altStep_used lhs lhsName ruleAt st alt n :
  bounded n (used st) -> n + altRefs alt <= MaxInt ->
  bounded (n + altRefs alt) (used (altStep lhs lhsName ruleAt st alt))
  /\ (forall q, getn (used st) q <= getn (used (altStep lhs lhsName ruleAt st alt)) q)
  /\ (forall a p, alt = Some a -> refersTo p a -> is_Some (store (vb st) !! p) ->
        1 <= getn (used (altStep lhs lhsName ruleAt st alt)) p).
Proof.
  intros Hb Hn. unfold altStep. destruct alt as [a|]; simpl in Hn |- *.
  2:{ split; [eapply bounded_le; [exact Hb|lia]|]. split; [intros; lia|done]. }
  destruct (rhsLoop_used lhs lhsName (AltAt a) (RHS a) 0 st n Hb) as (B1 & M1 & O1); [lia|].
  pose proof (rhsLoop_store lhs lhsName (AltAt a) (RHS a) 0 st) as S1.
  set (st1 := rhsLoop _ _ _ _ _ _) in *.
  destruct (PrecSym a) as [p|] eqn:Hp.
  - destruct (store (vb st1) !! p) as [s|] eqn:Hs.
    + destruct (used_incr _ (used st1) p B1) as (A1 & A2 & A3); [lia|].
      simpl. split; [eapply bounded_le; [exact A1|lia]|].
      split; [intros q; etrans; [apply M1|apply A2]|].
      intros a' p' E [(r & Hr & Hsym)|Hpr] Hst; injection E as <-.
      * etrans; [by eapply O1|apply A2].
      * rewrite Hp in Hpr. by injection Hpr as <-.
    + split; [eapply bounded_le; [exact B1|lia]|]. split; [done|].
      intros a' p' E [(r & Hr & Hsym)|Hpr] Hst; injection E as <-.
      * by eapply O1.
      * rewrite Hp in Hpr. injection Hpr as <-. rewrite S1 in Hs.
        destruct Hst as [s' Hs']. congruence.
  - split; [eapply bounded_le; [exact B1|lia]|]. split; [done|].
    intros a' p' E [(r & Hr & Hsym)|Hpr] Hst; injection E as <-.
    + by eapply O1.
    + congruence.
Qed.

Lemma altStep_untouched lhs lhsName ruleAt st alt p :
  (forall a, alt = Some a -> ~ refersTo p a) ->
  getn (used (altStep lhs lhsName ruleAt st alt)) p = getn (used st) p.
Proof.
  intros Hno. unfold altStep. destruct alt as [a|]; [|done].
  specialize (Hno a eq_refl).
  assert (E : getn (used (rhsLoop lhs lhsName (AltAt a) 0 (RHS a) st)) p = getn (used st) p).
  { apply rhsLoop_untouched. intros r Hr Hs. apply Hno. left. by exists r. }
  set (st1 := rhsLoop _ _ _ _ _ _) in *.
  destruct (PrecSym a) as [q|] eqn:Hq; [|done].
  destruct (store (vb st1) !! q); [|done]. simpl.
  rewrite getn_insert_ne; [done|]. intros ->. apply Hno. by right.
Qed.

Lemma altsRefs_nonneg alts : 0 <= altsRefs alts.
Proof.
  induction alts as [|a alts IH]; simpl; [lia|].
  destruct a; simpl; lia.
Qed.

Lemma refTotal_nonneg rules : 0 <= refTotal rules.
Proof.
  induction rules as [|r rules IH]; simpl; [lia|].
  destruct r as [r|]; simpl; [pose proof (altsRefs_nonneg (Alternatives r))|]; lia.
Qed.

Lemma foldl_altStep_used lhs lhsName ruleAt alts : forall st n,
  bounded n (used st) -> n + altsRefs alts <= MaxInt ->
  bounded (n + altsRefs alts) (used (foldl (altStep lhs lhsName ruleAt) st alts))
  /\ (forall q, getn (used st) q
                <= getn (used (foldl (altStep lhs lhsName ruleAt) st alts)) q)
  /\ (forall a p, In (Some a) alts -> refersTo p a -> is_Some (store (vb st) !! p) ->
        1 <= getn (used (foldl (altStep lhs lhsName ruleAt) st alts)) p).
Proof.
  induction alts as [|alt alts IH]; intros st n Hb Hn; simpl in Hn |- *.
  - split; [eapply bounded_le; [exact Hb|lia]|]. split; [intros; lia|].
    intros a p [].
  - pose proof (altsRefs_nonneg alts) as Hnn.
    destruct (altStep_used lhs lhsName ruleAt st alt n Hb) as (B1 & M1 & O1); [lia|].
    pose proof (altStep_store lhs lhsName ruleAt st alt) as S1.
    destruct (IH _ _ B1) as (B2 & M2 & O2); [lia|].
    split; [eapply bounded_le; [exact B2|lia]|]. split.
    + intros q. etrans; [apply M1|apply M2].
    + intros a p [E|Hin] Hp Hs.
      * etrans; [by eapply O1|apply M2].
      * eapply O2; eauto. by rewrite S1.
Qed.

Lemma foldl_altStep_untouched lhs lhsName ruleAt p alts : forall st,
  (forall a, In (Some a) alts -> ~ refersTo p a) ->
  getn (used (foldl (altStep lhs lhsName ruleAt) st alts)) p = getn (used st) p.
Proof.
  induction alts as [|alt alts IH]; intros st Hno; [done|]. simpl.
  rewrite IH by (intros a Ha; apply Hno; by right).
  apply altStep_untouched. intros a ->. apply Hno. by left.
Qed.

(** The counts over one rule. *)
Lemma ruleStep_used st r n :
  bounded n (used st) -> n + ruleRefs r <= MaxInt ->
  bounded (n + ruleRefs r) (used (ruleStep st r))
  /\ (forall q, getn (used st) q <= getn (used (ruleStep st r)) q)
  /\ (forall r0 lhs a p, r = Some r0 -> LHS r0 = Some lhs ->
        is_Some (store (vb st) !! lhs) -> In (Some a) (Alternatives r0) ->
        refersTo p a -> is_Some (store (vb st) !! p) ->
        1 <= getn (used (ruleStep st r)) p).
Proof.
  intros Hb Hn.
  assert (Hskip : forall k, 0 <= k -> n + k <= MaxInt ->
            bounded (n + k) (used st) /\ (forall q, getn (used st) q <= getn (used st) q)).
  { intros k Hk _. split; [eapply bounded_le; [exact Hb|lia]|intros; lia]. }
  unfold ruleStep. destruct r as [r|]; unfold ruleRefs in Hn |- *.
  2:{ destruct (Hskip 0) as (A1 & A2); [lia..|]. split; [done|]. split; [done|].
      intros; discriminate. }
  pose proof (altsRefs_nonneg (Alternatives r)) as Hnn.
  destruct (LHS r) as [lhs|] eqn:Hl.
  2:{ destruct (Hskip (altsRefs (Alternatives r))) as (A1 & A2); [lia..|].
      split; [done|]. split; [done|]. intros r0 lhs a p E. injection E as <-. congruence. }
  destruct (store (vb st) !! lhs) as [s|] eqn:Hs.
  2:{ destruct (Hskip (altsRefs (Alternatives r))) as (A1 & A2); [lia..|].
      split; [done|]. split; [done|]. intros r0 lhs' a p E E' [s' Hs'].
      injection E as <-. congruence. }
  destruct (Alternatives r) as [|a0 alts] eqn:Ha.
  { simpl. split; [eapply bounded_le; [exact Hb|lia]|]. split; [intros; lia|].
    intros r0 lhs' a p E _ _ Hin. injection E as <-. rewrite Ha in Hin. destruct Hin. }
  set (st0 := {| vb := vb st; used := used st; edges := _ |}).
  destruct (foldl_altStep_used lhs (Name s) (RuleAt r) (a0 :: alts) st0 n Hb Hn)
    as (B1 & M1 & O1).
  split; [exact B1|]. split; [exact M1|].
  intros r0 lhs' a p E _ _ Hin Hp Hst. injection E as <-. rewrite Ha in Hin.
  by apply (O1 a p).
Qed.

Lemma ruleStep_untouched st r p :
  (forall r0 lhs a, r = Some r0 -> LHS r0 = Some lhs ->
     is_Some (store (vb st) !! lhs) -> In (Some a) (Alternatives r0) -> ~ refersTo p a) ->
  getn (used (ruleStep st r)) p = getn (used st) p.
Proof.
  intros Hno. unfold ruleStep. destruct r as [r|]; [|done].
  destruct (LHS r) as [lhs|] eqn:Hl; [|done].
  destruct (store (vb st) !! lhs) as [s|] eqn:Hs; [|done].
  specialize (Hno r lhs). 
  destruct (Alternatives r) as [|a0 alts] eqn:Ha; [done|].
  set (st0 := {| vb := vb st; used := used st; edges := _ |}).
  rewrite (foldl_altStep_untouched lhs (Name s) (RuleAt r) p (a0 :: alts) st0); [done|].
  intros a Hin. by apply Hno.
Qed.

Lemma foldl_ruleStep_used rules : forall st n,
  bounded n (used st) -> n + refTotal rules <= MaxInt ->
  bounded (n + refTotal rules) (used (foldl ruleStep st rules))
  /\ (forall q, getn (used st) q <= getn (used (foldl ruleStep st rules)) q)
  /\ (forall r0 lhs a p, In (Some r0) rules -> LHS r0 = Some lhs ->
        is_Some (store (vb st) !! lhs) -> In (Some a) (Alternatives r0) ->
        refersTo p a -> is_Some (store (vb st) !! p) ->
        1 <= getn (used (foldl ruleStep st rules)) p).
Proof.
  induction rules as [|r rules IH]; intros st n Hb Hn; simpl in Hn |- *.
  - split; [eapply bounded_le; [exact Hb|lia]|]. split; [intros; lia|].
    intros r0 lhs a p [].
  - pose proof (refTotal_nonneg rules) as Hnn.
    destruct (ruleStep_used st r n Hb) as (B1 & M1 & O1); [lia|].
    pose proof (ruleStep_store st r) as S1.
    destruct (IH _ _ B1) as (B2 & M2 & O2); [lia|].
    split; [eapply bounded_le; [exact B2|lia]|]. split.
    + intros q. etrans; [apply M1|apply M2].
    + intros r0 lhs a p [E|Hin] Hl Hsl Ha Hp Hs.
      * etrans; [by eapply O1|apply M2].
      * eapply O2; eauto; by rewrite S1.
Qed.

Lemma foldl_ruleStep_untouched p rules : forall st,
  (forall r0 lhs a, In (Some r0) rules -> LHS r0 = Some lhs ->
     is_Some (store (vb st) !! lhs) -> In (Some a) (Alternatives r0) -> ~ refersTo p a) ->
  getn (used (foldl ruleStep st rules)) p = getn (used st) p.
Proof.
  induction rules as [|r rules IH]; intros st Hno; [done|]. simpl.
  rewrite IH.
  - apply ruleStep_untouched. intros r0 lhs a ->. apply Hno. by left.
  - intros r0 lhs a Hin. rewrite ruleStep_store. apply Hno. by right.
Qed.

(** ** Which symbols [Finalize] takes to have a rule *)

Lemma getb_insert_eq (m : gmap nat bool) p v : getb (<[p := v]> m) p = v.
Proof. unfold getb. by rewrite lookup_insert_eq. Qed.

Lemma getb_insert_ne (m : gmap nat bool) p q v : p <> q -> getb (<[p := v]> m) q = getb m q.
Proof. intros H. unfold getb. by rewrite lookup_insert_ne. Qed.

Lemma lhsStep_store st r : store (lhsStep st r).1 = store st.1.
Proof. by destruct (lhsStep_diagsBy st r) as (H & _). Qed.

Lemma lhsStep_map st r p :
  is_Some (store st.1 !! p) ->
  getb (lhsStep st r).2 p = true
  <-> getb st.2 p = true \/ exists r0, r = Some r0 /\ LHS r0 = Some p.
Proof.
  intros [s Hs]. destruct st as [b m]. unfold lhsStep. simpl in *.
  destruct r as [r|]; simpl.
  2:{ split; [by left|]. intros [?|(r0 & ? & _)]; done. }
  destruct (LHS r) as [q|] eqn:Hq; simpl.
  2:{ split; [by left|]. intros [?|(r0 & E & Hl)]; [done|].
      injection E as <-. congruence. }
  destruct (store b !! q) as [sq|] eqn:Hsq; simpl.
  - destruct (decide (q = p)) as [->|Hne].
    + rewrite getb_insert_eq. split; [|done]. intros _. right. by exists r.
    + rewrite getb_insert_ne by done. split; [by left|].
      intros [?|(r0 & E & Hl)]; [done|]. injection E as <-. congruence.
  - split; [by left|]. intros [?|(r0 & E & Hl)]; [done|].
    injection E as <-. congruence.
Qed.

Lemma foldl_lhsStep_map rules : forall st p,
  is_Some (store st.1 !! p) ->
  getb (foldl lhsStep st rules).2 p = true
  <-> getb st.2 p = true \/ exists r0, In (Some r0) rules /\ LHS r0 = Some p.
Proof.
  induction rules as [|r rules IH]; intros st p Hp; simpl.
  - split; [by left|]. intros [?|(r0 & [] & _)]. done.
  - rewrite IH by (by rewrite lhsStep_store). rewrite lhsStep_map by done.
    split.
    + intros [[?|(r0 & -> & Hl)]|(r0 & Hin & Hl)].
      * by left.
      * right. exists r0. split; [by left|done].
      * right. exists r0. split; [by right|done].
    + intros [?|(r0 & [E|Hin] & Hl)].
      * left. by left.
      * left. right. by exists r0.
      * right. by exists r0.
Qed.

(** ** The parts of [Finalize] *)

Lemma Finalize_parts b :
  Rules (g b) <> [] ->
  exists b2 m b5,
    diagsOnly b b2
    /\ (forall p, is_Some (store b !! p) ->
          getb m p = true <-> hasRule b p)
    /\ diagsOnly
         (foldl (undefinedStep m)
            (vb (foldl ruleStep {| vb := b2; used := ∅; edges := ∅ |} (Rules (g b))))
            (map_to_list
               (used (foldl ruleStep {| vb := b2; used := ∅; edges := ∅ |} (Rules (g b))))))
         b5
    /\ Finalize b
       = foldl (unusedStep
                  (used (foldl ruleStep {| vb := b2; used := ∅; edges := ∅ |} (Rules (g b))))
                  m) b5 (Symbols (g b)).
Proof.
  intros HR. unfold Finalize.
  destruct (Rules (g b)) as [|r0 rules] eqn:HR'; [done|]. clear HR.
  cbv beta iota. rewrite <- HR'.
  set (b1 := match Start (g b) with Some _ => _ | None => _ end).
  assert (H1 : diagsOnly b b1).
  { unfold b1. destruct (Start (g b)) as [p|]; [|apply error_diagsOnly].
    destruct (store b !! p); [|apply diagsOnly_refl].
    case_decide; [apply error_diagsOnly|apply diagsOnly_refl]. }
  assert (Hg1 : g b1 = g b) by (by destruct H1 as (_ & ? & _)).
  assert (Hs1 : store b1 = store b) by (by destruct H1 as (? & _)).
  rewrite Hg1.
  pose proof (foldl_lhsStep_diagsBy (Rules (g b)) (b1, ∅)) as H2.
  pose proof (foldl_lhsStep_map (Rules (g b)) (b1, ∅)) as HM.
  destruct (foldl lhsStep (b1, ∅) (Rules (g b))) as [b2 m]. simpl in H2, HM.
  apply (diagsBy_weaken _ (fun _ => True)) in H2; [|done].
  assert (H12 : diagsOnly b b2) by (by eapply diagsOnly_trans).
  assert (Hg2 : g b2 = g b) by (by destruct H12 as (_ & ? & _)).
  rewrite Hg2.
  set (st := foldl ruleStep _ (Rules (g b))).
  pose proof (foldl_ruleStep_diagsBy (Rules (g b)) {| vb := b2; used := ∅; edges := ∅ |})
    as H3. fold st in H3. simpl in H3.
  pose proof (foldl_diagsBy finalizeDiag (undefinedStep m)
                (map_to_list (used st)) (undefinedStep_diagsBy m) (vb st)) as H4.
  set (b4 := foldl (undefinedStep m) (vb st) _) in *.
  set (b5 := match Start (g b4) with Some _ => _ | None => _ end).
  assert (H5 : diagsBy finalizeDiag b4 b5).
  { unfold b5. destruct (Start (g b4)) as [p|]; [|apply diagsBy_refl].
    destruct (store b4 !! p) as [s|]; [|apply diagsBy_refl].
    case_decide; [|apply diagsBy_refl].
    destruct (reachLoop _ _ _ _) as [reachable stk].
    apply foldl_diagsBy. intros. apply unreachableStep_diagsBy. }
  assert (Hg5 : g b5 = g b).
  { destruct H5 as (_ & -> & _). destruct H4 as (_ & -> & _).
    destruct H3 as (_ & -> & _). done. }
  exists b2, m, b5. split; [done|]. split; [|split].
  - intros p Hp. rewrite HM by (by rewrite Hs1). unfold hasRule. split.
    + intros [H|H]; [unfold getb in H; by rewrite lookup_empty in H|done].
    + intros H. by right.
  - eapply diagsBy_weaken; [|exact H5]. done.
  - by rewrite Hg5.
Qed.

(** A diagnostic that one element of a loop records is among the
    diagnostics after the loop. *)
Lemma foldl_In_diags {A} (f : Builder -> A -> Builder) (h : list Symbol)
    (d : Diagnostic) (x : A) (l : list A) :
  (forall b y, diagsOnly b (f b y)) ->
  (forall b, store b = h -> In d (diags (f b x))) ->
  In x l -> forall b, store b = h -> In d (diags (foldl f b l)).
Proof.
  intros Hf Hx. induction l as [|y l IH]; intros Hin b Hb; [destruct Hin|].
  simpl. destruct Hin as [->|Hin].
  - eapply diagsBy_In; [apply (foldl_diagsBy _ f l Hf)|]. by apply Hx.
  - apply IH; [done|]. destruct (Hf b y) as (-> & _). done.
Qed.

Lemma getn_empty q : getn ∅ q = 0.
Proof. unfold getn. by rewrite lookup_empty. Qed.

(** X17. [Finalize] reports every undefined nonterminal: a nonterminal that
    an alternative names, on its RHS or as its precedence symbol, and that
    is the LHS of no rule gets the error [nonterminal %q is used but has no
    rule], with its name and at its place of declaration. The counts of the
    uses are machine integers; the grammar has at most [MaxInt] places to
    count. *)
Theorem Finalize_reports_undefined b p s :
  store b !! p = Some s -> Kind s = SymNonterminal ->
  occurs b p -> ~ hasRule b p -> refTotal (Rules (g b)) <= MaxInt ->
  In {| Level := DiagError;
        Msg := {| format := "nonterminal %q is used but has no rule";
                  args := [ArgS (Name s)] |};
        At := DeclaredAt s |} (diags (Finalize b)).
Proof.
  intros Hs Hk (r0 & lhs & a & Hr & Hl & Hsl & Ha & Href) Hno Hbound.
  assert (HR : Rules (g b) <> []) by (intros E; by rewrite E in Hr).
  destruct (Finalize_parts b HR) as (b2 & m & b5 & H2 & HM & H5 & ->).
  set (st := foldl ruleStep _ (Rules (g b))) in *.
  assert (Hs2 : store b2 = store b) by (by destruct H2 as (? & _)).
  assert (Hst : store (vb st) = store b).
  { unfold st. by rewrite foldl_ruleStep_store. }
  eapply diagsBy_In.
  { apply (foldl_diagsBy _ (unusedStep (used st) m)). intros.
    eapply diagsBy_weaken; [|apply unusedStep_diagsBy]. by intros. }
  eapply diagsBy_In; [exact H5|].
  destruct (foldl_ruleStep_used (Rules (g b)) {| vb := b2; used := ∅; edges := ∅ |} 0)
    as (_ & _ & HO).
  { intros q. simpl. rewrite getn_empty. lia. }
  { lia. }
  specialize (HO r0 lhs a p Hr Hl). simpl in HO. rewrite Hs2 in HO.
  specialize (HO Hsl Ha Href (ex_intro _ s Hs)). fold st in HO.
  assert (Hu : exists n, used st !! p = Some n /\ n <> 0).
  { unfold getn in HO. destruct (used st !! p) as [n|]; simpl in HO; [|lia].
    exists n. split; [done|lia]. }
  destruct Hu as (n & Hu & Hn0).
  assert (Hm : getb m p = false).
  { destruct (getb m p) eqn:E; [|done]. exfalso. apply Hno.
    by apply HM; [exists s|]. }
  apply (foldl_In_diags (undefinedStep m) (store b) _ (p, n)).
  - intros b' kv. eapply diagsBy_weaken; [|apply undefinedStep_diagsBy]. by intros.
  - intros b' Hb'. unfold undefinedStep. rewrite decide_False by done.
    rewrite Hb', Hs. rewrite decide_True by done.
    simpl. apply in_or_app. right. by left.
  - apply list_elem_of_In, elem_of_map_to_list. exact Hu.
  - exact Hst.
Qed.

Lemma Finalize_reports_undefined_witness :
  In {| Level := DiagError;
        Msg := {| format := "nonterminal %q is used but has no rule";
                  args := [ArgS (runes "foo")] |};
        At := None |} (diags (Finalize undefinedBuilder)).
Proof.
  pose (ref := {| Sym := Some 1%nat; Label := []; RefAt := None |}).
  pose (a := {| RHS := [Some ref]; AltAction := None; PrecSym := None; AltAt := None |}).
  pose (r := {| LHS := Some 0%nat; Alternatives := [Some a]; RuleAt := None |}).
  apply (Finalize_reports_undefined undefinedBuilder 1%nat
           {| ID := 1; Name := runes "foo"; Kind := SymNonterminal; TypeTag := [];
              Precedence := 0; Assoc := AssocNone; DeclaredAt := None |}).
  - vm_compute. reflexivity.
  - reflexivity.
  - exists r, 0%nat, a. split; [vm_compute; left; reflexivity|].
    split; [reflexivity|]. split; [vm_compute; by eexists|].
    split; [left; reflexivity|].
    left. exists ref. split; [left; reflexivity|reflexivity].
  - intros (r' & Hr & Hl). vm_compute in Hr. destruct Hr as [E|[]].
    injection E as <-. discriminate.
  - vm_compute. discriminate.
Defined.

(** X18. [Finalize] warns about every symbol, other than the placeholder
    [<invalid>], that no alternative names on its RHS or as its precedence
    symbol: a terminal is [declared but never used], a nonterminal that is
    the LHS of a rule [has rules but is never referenced], and a nonterminal
    without a rule is [declared but never used and has no rules]; each
    warning carries the name of the symbol and its place of declaration. *)
Theorem Finalize_warns_unused b p s :
  Rules (g b) <> [] -> In p (Symbols (g b)) -> store b !! p = Some s ->
  Name s <> invalidName -> ~ occurs b p ->
  (Kind s = SymTerminal ->
   In {| Level := DiagWarn;
         Msg := {| format := "terminal %q is declared but never used";
                   args := [ArgS (Name s)] |};
         At := DeclaredAt s |} (diags (Finalize b)))
  /\ (Kind s = SymNonterminal -> hasRule b p ->
      In {| Level := DiagWarn;
            Msg := {| format := "nonterminal %q has rules but is never referenced (except as LHS)";
                      args := [ArgS (Name s)] |};
            At := DeclaredAt s |} (diags (Finalize b)))
  /\ (Kind s = SymNonterminal -> ~ hasRule b p ->
      In {| Level := DiagWarn;
            Msg := {| format := "nonterminal %q is declared but never used and has no rules";
                      args := [ArgS (Name s)] |};
            At := DeclaredAt s |} (diags (Finalize b))).
Proof.
  intros HR Hin Hs Hname Hno.
  destruct (Finalize_parts b HR) as (b2 & m & b5 & H2 & HM & H5 & ->).
  set (st := foldl ruleStep _ (Rules (g b))) in *.
  assert (Hs2 : store b2 = store b) by (by destruct H2 as (? & _)).
  assert (Hst : store (vb st) = store b).
  { unfold st. by rewrite foldl_ruleStep_store. }
  assert (Hs5 : store b5 = store b).
  { destruct H5 as (-> & _).
    destruct (foldl_diagsBy finalizeDiag (undefinedStep m) (map_to_list (used st))
                (undefinedStep_diagsBy m) (vb st)) as (-> & _). done. }
  assert (Hu : getn (used st) p = 0).
  { unfold st. rewrite foldl_ruleStep_untouched; [apply getn_empty|].
    intros r0 lhs a Hr Hl Hsl Ha Href. simpl in Hsl. rewrite Hs2 in Hsl.
    apply Hno. by exists r0, lhs, a. }
  assert (Hfold : forall d,
            (forall b', store b' = store b -> In d (diags (unusedStep (used st) m b' p))) ->
            In d (diags (foldl (unusedStep (used st) m) b5 (Symbols (g b))))).
  { intros d Hd. apply (foldl_In_diags _ (store b) d p); try done.
    intros b' y. eapply diagsBy_weaken; [|apply unusedStep_diagsBy]. by intros. }
  split; [|split].
  - intros Hk. apply Hfold. intros b' Hb'. unfold unusedStep.
    rewrite Hb', Hs, decide_False, decide_True, decide_True by done.
    simpl. apply in_or_app. right. by left.
  - intros Hk Hrule. apply Hfold. intros b' Hb'. unfold unusedStep.
    rewrite Hb', Hs, decide_False, decide_True by done.
    rewrite decide_False by (rewrite Hk; discriminate).
    rewrite decide_True by done.
    assert (Hm : getb m p = true) by (by apply HM; [exists s|]).
    rewrite Hm. simpl. apply in_or_app. right. by left.
  - intros Hk Hrule. apply Hfold. intros b' Hb'. unfold unusedStep.
    rewrite Hb', Hs, decide_False, decide_True by done.
    rewrite decide_False by (rewrite Hk; discriminate).
    rewrite decide_True by done.
    assert (Hm : getb m p = false).
    { destruct (getb m p) eqn:E; [|done]. exfalso. apply Hrule.
      by apply HM; [exists s|]. }
    rewrite Hm. simpl. apply in_or_app. right. by left.
Qed.

Lemma Finalize_warns_unused_witness :
  In {| Level := DiagWarn;
        Msg := {| format := "terminal %q is declared but never used";
                  args := [ArgS (runes "BAR")] |};
        At := None |} (diags (Finalize undefinedBuilder)).
Proof.
  refine (proj1 (Finalize_warns_unused undefinedBuilder 2%nat
           {| ID := 2; Name := runes "BAR"; Kind := SymTerminal; TypeTag := [];
              Precedence := 0; Assoc := AssocNone; DeclaredAt := None |}
           _ _ _ _ _) eq_refl).
  - vm_compute. discriminate.
  - vm_compute. right. right. left. reflexivity.
  - vm_compute. reflexivity.
  - vm_compute. discriminate.
  - intros (r & lhs & a & Hr & _ & _ & Ha & Href). vm_compute in Hr.
    destruct Hr as [E|[]]. injection E as <-.
    destruct Ha as [E|[]]. injection E as <-.
    destruct Href as [(x & [E|[]] & Hx)|Hp]; [|discriminate].
    injection E as <-. discriminate.
Defined.

(** ** The search for the reachable nonterminals *)

Section Edges.

Variable h : list Symbol.
Variable E : nat -> nat -> Prop.

Lemma rhsLoop_edges lhs lhsName altAt rhs : forall pos st,
  store (vb st) = h ->
  (forall ref y sy, In (Some ref) rhs -> Sym ref = Some y -> h !! y = Some sy ->
     Kind sy = SymNonterminal -> E lhs y) ->
  edgesIn E (edges st) ->
  edgesIn E (edges (rhsLoop lhs lhsName altAt pos rhs st)).
Proof.
  induction rhs as [|sr rhs IH]; intros pos st Hst HE He; [done|].
  cbn [rhsLoop].
  set (st1 := match sr with Some _ => _ | None => _ end).
  assert (H1 : store (vb st1) = h /\ edgesIn E (edges st1)).
  { unfold st1. destruct sr as [r|]; [|done].
    destruct (Sym r) as [p|] eqn:Hp; [|done].
    destruct (store (vb st) !! p) as [s|] eqn:Hs; [|done].
    simpl. split; [done|]. case_decide as Hk; [|done].
    intros x y m v Hx Hy.
    destruct (decide (lhs = x)) as [<-|Hne].
    - rewrite lookup_insert_eq in Hx. injection Hx as <-.
      destruct (decide (p = y)) as [<-|Hne'].
      + apply (HE r p s); [by left|done|by rewrite <- Hst|done].
      + rewrite lookup_insert_ne in Hy by done.
        destruct (edges st !! lhs) as [m0|] eqn:Hm0; simpl in Hy.
        * by eapply He.
        * by rewrite lookup_empty in Hy.
    - rewrite lookup_insert_ne in Hx by done. by eapply He. }
  destruct H1 as (S1 & E1).
  apply IH; [done| |done]. intros ref y sy Hin. apply HE. by right.
Qed.

Lemma altStep_edges lhs lhsName ruleAt st alt :
  store (vb st) = h ->
  (forall a ref y sy, alt = Some a -> In (Some ref) (RHS a) -> Sym ref = Some y ->
     h !! y = Some sy -> Kind sy = SymNonterminal -> E lhs y) ->
  edgesIn E (edges st) ->
  edgesIn E (edges (altStep lhs lhsName ruleAt st alt)).
Proof.
  intros Hst HE He. unfold altStep. destruct alt as [a|]; [|done].
  assert (H1 : edgesIn E (edges (rhsLoop lhs lhsName (AltAt a) 0 (RHS a) st))).
  { apply rhsLoop_edges; [done| |done]. intros ref y sy. by apply HE. }
  set (st1 := rhsLoop _ _ _ _ _ _) in *.
  destruct (PrecSym a) as [p|]; [|done].
  by destruct (store (vb st1) !! p).
Qed.

Lemma foldl_altStep_edges lhs lhsName ruleAt alts : forall st,
  store (vb st) = h ->
  (forall a ref y sy, In (Some a) alts -> In (Some ref) (RHS a) -> Sym ref = Some y ->
     h !! y = Some sy -> Kind sy = SymNonterminal -> E lhs y) ->
  edgesIn E (edges st) ->
  edgesIn E (edges (foldl (altStep lhs lhsName ruleAt) st alts)).
Proof.
  induction alts as [|alt alts IH]; intros st Hst HE He; [done|]. simpl.
  apply IH.
  - by rewrite altStep_store.
  - intros a ref y sy Hin. apply HE. by right.
  - apply altStep_edges; [done| |done]. intros a ref y sy ->. apply HE. by left.
Qed.

Lemma ruleStep_edges st r :
  store (vb st) = h ->
  (forall r0 lhs a ref y sy, r = Some r0 -> LHS r0 = Some lhs ->
     In (Some a) (Alternatives r0) -> In (Some ref) (RHS a) -> Sym ref = Some y ->
     h !! y = Some sy -> Kind sy = SymNonterminal -> E lhs y) ->
  edgesIn E (edges st) ->
  edgesIn E (edges (ruleStep st r)).
Proof.
  intros Hst HE He. unfold ruleStep. destruct r as [r|]; [|done].
  destruct (LHS r) as [lhs|] eqn:Hl; [|done].
  destruct (store (vb st) !! lhs) as [s|]; [|done].
  set (e := match edges st !! lhs with Some _ => _ | None => _ end).
  assert (He' : edgesIn E e).
  { unfold e. destruct (edges st !! lhs) eqn:Hm; [done|].
    intros x y m v Hx Hy. destruct (decide (lhs = x)) as [<-|Hne].
    - rewrite lookup_insert_eq in Hx. injection Hx as <-. by rewrite lookup_empty in Hy.
    - rewrite lookup_insert_ne in Hx by done. by eapply He. }
  destruct (Alternatives r) as [|a0 alts] eqn:Ha; [done|].
  apply (foldl_altStep_edges lhs (Name s) (RuleAt r) (a0 :: alts)
           {| vb := vb st; used := used st; edges := e |}); [done| |done].
  intros a ref y sy Hin. apply (HE r lhs a ref y sy); try done. by rewrite Ha.
Qed.

Lemma foldl_ruleStep_edges rules : forall st,
  store (vb st) = h ->
  (forall r0 lhs a ref y sy, In (Some r0) rules -> LHS r0 = Some lhs ->
     In (Some a) (Alternatives r0) -> In (Some ref) (RHS a) -> Sym ref = Some y ->
     h !! y = Some sy -> Kind sy = SymNonterminal -> E lhs y) ->
  edgesIn E (edges st) ->
  edgesIn E (edges (foldl ruleStep st rules)).
Proof.
  induction rules as [|r rules IH]; intros st Hst HE He; [done|]. simpl.
  apply IH.
  - by rewrite ruleStep_store.
  - intros r0 lhs a ref y sy Hin. apply HE. by right.
  - apply ruleStep_edges; [done| |done].
    intros r0 lhs a ref y sy ->. apply HE. by left.
Qed.

(** The search marks what the edges lead to. *)
Variable R : nat -> Prop.

Lemma reachStep_sound st kv :
  (forall s, h !! kv.1 = Some s -> Kind s = SymNonterminal -> R kv.1) ->
  marksIn R st -> marksIn R (reachStep h st kv).
Proof.
  intros HR [Hm Hs]. destruct st as [m stk]. unfold reachStep. simpl in *.
  destruct (h !! kv.1) as [s|] eqn:Hk; [|done].
  case_decide as Hkind; [done|].
  destruct (getb m kv.1) eqn:Hg; [done|].
  assert (Rk : R kv.1).
  { apply (HR s eq_refl). destruct (decide (Kind s = SymNonterminal)); [done|].
    by destruct Hkind. }
  split; simpl.
  - intros x. destruct (decide (kv.1 = x)) as [<-|Hne]; [done|].
    rewrite getb_insert_ne by done. apply Hm.
  - intros x Hx. apply in_app_or in Hx as [Hx|[<-|[]]]; [by apply Hs|done].
Qed.

Lemma reachInner_sound l : forall st,
  (forall kv s, In kv l -> h !! kv.1 = Some s -> Kind s = SymNonterminal -> R kv.1) ->
  marksIn R st -> marksIn R (foldl (reachStep h) st l).
Proof.
  induction l as [|kv l IH]; intros st HR Hst; [done|]. simpl.
  apply IH.
  - intros kv' s Hin. apply HR. by right.
  - apply reachStep_sound; [|done]. intros s. apply HR. by left.
Qed.

Hypothesis R_closed : forall x y, R x -> E x y -> R y.

Lemma reachLoop_sound e fuel : forall st,
  edgesIn E e -> marksIn R st -> marksIn R (reachLoop fuel h e st).
Proof.
  induction fuel as [|fuel IH]; intros [m stk] He Hst; [done|].
  cbn [reachLoop]. destruct (last stk) as [nt|] eqn:Hl; [|done].
  destruct Hst as [Hm Hs]. simpl in Hm, Hs.
  assert (Rnt : R nt).
  { apply Hs. apply last_Some in Hl as (l' & ->). apply in_or_app. right. by left. }
  apply IH; [done|]. apply reachInner_sound.
  - intros kv s Hin _ _. apply (R_closed nt); [done|].
    apply list_elem_of_In in Hin. destruct kv as [y v].
    apply elem_of_map_to_list in Hin. simpl.
    destruct (e !! nt) as [m0|] eqn:Hm0; simpl in Hin.
    + by eapply He.
    + by rewrite lookup_empty in Hin.
  - split; simpl; [done|]. intros x Hx. apply Hs.
    apply list_elem_of_In in Hx. apply list_elem_of_In.
    by eapply (subseteq_take (length stk - 1) stk).
Qed.

End Edges.

(** [Finalize] with a start symbol that is a nonterminal. *)
Lemma Finalize_parts_start b p0 s0 :
  Rules (g b) <> [] -> Start (g b) = Some p0 -> store b !! p0 = Some s0 ->
  Kind s0 = SymNonterminal ->
  exists b2 m b4,
    store b2 = store b /\ store b4 = store b
    /\ (forall p, is_Some (store b !! p) -> getb m p = true <-> hasRule b p)
    /\ Finalize b
       = foldl (unusedStep
                  (used (foldl ruleStep {| vb := b2; used := ∅; edges := ∅ |} (Rules (g b))))
                  m)
           (foldl (unreachableStep
                     (reachLoop (length (store b)) (store b)
                        (edges (foldl ruleStep {| vb := b2; used := ∅; edges := ∅ |}
                                  (Rules (g b))))
                        (<[p0 := true]> ∅, [p0])).1
                     (Name s0))
              b4 (map_to_list m))
           (Symbols (g b)).
Proof.
  intros HR HS Hs0 Hk0. unfold Finalize.
  destruct (Rules (g b)) as [|r0 rules] eqn:HR'; [done|]. clear HR.
  cbv beta iota. rewrite <- HR'.
  rewrite HS, Hs0. rewrite decide_False by (intros H; by apply H).
  pose proof (foldl_lhsStep_diagsBy (Rules (g b)) (b, ∅)) as H2.
  pose proof (foldl_lhsStep_map (Rules (g b)) (b, ∅)) as HM.
  destruct (foldl lhsStep (b, ∅) (Rules (g b))) as [b2 m]. simpl in H2, HM.
  assert (Hg2 : g b2 = g b) by (by destruct H2 as (_ & ? & _)).
  assert (Hs2 : store b2 = store b) by (by destruct H2 as (? & _)).
  rewrite Hg2.
  set (st := foldl ruleStep _ (Rules (g b))).
  pose proof (foldl_ruleStep_diagsBy (Rules (g b)) {| vb := b2; used := ∅; edges := ∅ |})
    as H3. fold st in H3. simpl in H3.
  pose proof (foldl_diagsBy finalizeDiag (undefinedStep m)
                (map_to_list (used st)) (undefinedStep_diagsBy m) (vb st)) as H4.
  set (b4 := foldl (undefinedStep m) (vb st) _) in *.
  assert (Hg4 : g b4 = g b).
  { destruct H4 as (_ & -> & _). destruct H3 as (_ & -> & _). done. }
  assert (Hs4 : store b4 = store b).
  { destruct H4 as (-> & _). destruct H3 as (-> & _). done. }
  rewrite Hg4, HS, Hs4, Hs0. rewrite decide_True by done.
  destruct (reachLoop _ _ _ _) as [reachable stk] eqn:Hreach. simpl.
  set (b5 := foldl (unreachableStep reachable (Name s0)) b4 (map_to_list m)).
  assert (Hg5 : g b5 = g b).
  { destruct (foldl_diagsBy finalizeDiag (unreachableStep reachable (Name s0))
                (map_to_list m) (unreachableStep_diagsBy _ _) b4) as (_ & E & _).
    unfold b5. by rewrite E. }
  rewrite Hg5.
  exists b2, m, b4. split; [done|]. split; [done|].
  split; [|unfold b5; fold st; by rewrite Hreach].
  intros p Hp. rewrite HM by done. unfold hasRule. split.
  - intros [H|H]; [unfold getb in H; by rewrite lookup_empty in H|done].
  - intros H. by right.
Qed.

(** X19. [Finalize] warns about every nonterminal with rules that the start
    symbol does not reach: when the start symbol is a nonterminal, a symbol
    that is the LHS of a rule and to which no chain of RHS references leads
    from the start symbol gets the warning [nonterminal %q has rules but is
    unreachable from start symbol %q], with its name, the name of the start
    symbol, and its place of declaration. *)
Theorem Finalize_warns_unreachable b p0 s0 nt s :
  Start (g b) = Some p0 -> store b !! p0 = Some s0 -> Kind s0 = SymNonterminal ->
  store b !! nt = Some s -> hasRule b nt -> ~ reaches b p0 nt ->
  In {| Level := DiagWarn;
        Msg := {| format := "nonterminal %q has rules but is unreachable from start symbol %q";
                  args := [ArgS (Name s); ArgS (Name s0)] |};
        At := DeclaredAt s |} (diags (Finalize b)).
Proof.
  intros HS Hs0 Hk0 Hs Hrule Hno.
  assert (HR : Rules (g b) <> []).
  { destruct Hrule as (r & Hr & _). intros E. by rewrite E in Hr. }
  destruct (Finalize_parts_start b p0 s0 HR HS Hs0 Hk0)
    as (b2 & m & b4 & Hs2 & Hs4 & HM & ->).
  set (st := foldl ruleStep _ (Rules (g b))) in *.
  set (rs := reachLoop _ _ _ _).
  eapply diagsBy_In.
  { apply (foldl_diagsBy _ (unusedStep (used st) m)). intros.
    eapply diagsBy_weaken; [|apply unusedStep_diagsBy]. by intros. }
  assert (He : edgesIn (derives b) (edges st)).
  { apply (foldl_ruleStep_edges (store b)); [done| |done].
    intros r0 lhs a ref y sy Hr Hl Ha Href Hy Hsy Hky.
    by exists r0, a, ref, sy. }
  assert (Hmarks : marksIn (reaches b p0) rs).
  { apply (reachLoop_sound (store b) (derives b)); [|done|].
    - intros x y Hx Hxy. eapply rtc_r; [exact Hx|exact Hxy].
    - split; simpl.
      + intros x. destruct (decide (p0 = x)) as [<-|Hne]; [intros _; apply rtc_refl|].
        rewrite getb_insert_ne by done. unfold getb. by rewrite lookup_empty.
      + intros x [<-|[]]. apply rtc_refl. }
  assert (Hun : getb rs.1 nt = false).
  { destruct (getb rs.1 nt) eqn:E; [|done]. exfalso. apply Hno.
    by apply (proj1 Hmarks). }
  assert (Hm : m !! nt = Some true).
  { assert (H : getb m nt = true) by (by apply HM; [exists s|]).
    unfold getb in H. destruct (m !! nt) as [[]|]; done. }
  apply (foldl_In_diags (unreachableStep rs.1 (Name s0)) (store b) _ (nt, true)).
  - intros b' kv. eapply diagsBy_weaken; [|apply unreachableStep_diagsBy]. by intros.
  - intros b' Hb'. unfold unreachableStep. simpl. rewrite Hun, Hb', Hs.
    simpl. apply in_or_app. right. by left.
  - apply list_elem_of_In, elem_of_map_to_list. exact Hm.
  - exact Hs4.
Qed.

Lemma Finalize_warns_unreachable_witness :
  In {| Level := DiagWarn;
        Msg := {| format := "nonterminal %q has rules but is unreachable from start symbol %q";
                  args := [ArgS (runes "orphan"); ArgS (runes "expr")] |};
        At := None |} (diags (Finalize orphanBuilder)).
Proof.
  pose (ref := {| Sym := Some 1%nat; Label := []; RefAt := None |}).
  pose (a := {| RHS := [Some ref]; AltAction := None; PrecSym := None; AltAt := None |}).
  apply (Finalize_warns_unreachable orphanBuilder 0%nat
           {| ID := 0; Name := runes "expr"; Kind := SymNonterminal; TypeTag := [];
              Precedence := 0; Assoc := AssocNone; DeclaredAt := None |}
           2%nat
           {| ID := 2; Name := runes "orphan"; Kind := SymNonterminal; TypeTag := [];
              Precedence := 0; Assoc := AssocNone; DeclaredAt := None |}).
  - vm_compute. reflexivity.
  - vm_compute. reflexivity.
  - reflexivity.
  - vm_compute. reflexivity.
  - exists {| LHS := Some 2%nat; Alternatives := [Some a]; RuleAt := None |}.
    split; [vm_compute; right; left; reflexivity|reflexivity].
  - intros H. apply rtc_inv in H as [H|(y & Hd & _)]; [discriminate|].
    destruct Hd as (r & a' & ref' & sy & Hr & Hl & Ha & Href & Hsym & Hst & Hk).
    vm_compute in Hr. destruct Hr as [E|[E|[]]]; injection E as <-; [|discriminate].
    destruct Ha as [E|[]]. injection E as <-.
    destruct Href as [E|[]]. injection E as <-.
    injection Hsym as <-. vm_compute in Hst. injection Hst as <-. discriminate.
Defined.

Lemma reachLoop_more_fuel h e fuel : forall k st,
  (unmarked h st.1 + length st.2 <= fuel)%nat ->
  reachLoop (fuel + k) h e st = reachLoop fuel h e st.
Proof.
  induction fuel as [|fuel IH]; intros k [m stk] Hm; simpl in Hm.
  - assert (stk = []) as -> by (destruct stk; [done|simpl in Hm; lia]).
    by destruct k.
  - cbn [Nat.add reachLoop]. destruct (last stk) as [nt|] eqn:Hl; [|done].
    apply IH. rewrite reachInner_measure. simpl. rewrite length_take.
    assert (length stk <> 0%nat) by (by destruct stk).
    lia.
Qed.

(** X20. The search for the reachable nonterminals in [Finalize] stops: it
    starts with the start symbol on the stack, marks each symbol at most
    once, and after at most as many iterations as the builder has symbols
    the stack is empty; further iterations would change nothing. *)
Theorem reach_search_stops (h : list Symbol) (e : gmap nat (gmap nat bool))
    (p : nat) (s : Symbol) (k : nat) :
  h !! p = Some s ->
  (reachLoop (length h) h e (<[p := true]> ∅, [p])).2 = []
  /\ reachLoop (length h + k) h e (<[p := true]> ∅, [p])
     = reachLoop (length h) h e (<[p := true]> ∅, [p]).
Proof.
  intros Hp. split; [by eapply reachLoop_in_Finalize|].
  apply reachLoop_more_fuel. simpl.
  assert (Hlt : (p < length h)%nat) by (by eapply lookup_lt_Some).
  pose proof (unmarked_insert h ∅ p Hlt eq_refl) as H.
  assert (unmarked h ∅ <= length h)%nat; [|lia].
  unfold unmarked. etrans; [apply length_filter|]. by rewrite length_seq.
Qed.

Lemma reach_search_stops_witness :
  (reachLoop (length (store orphanBuilder)) (store orphanBuilder) ∅
     (<[0%nat := true]> ∅, [0%nat])).2 = []
  /\ reachLoop (length (store orphanBuilder) + 5) (store orphanBuilder) ∅
       (<[0%nat := true]> ∅, [0%nat])
     = reachLoop (length (store orphanBuilder)) (store orphanBuilder) ∅
         (<[0%nat := true]> ∅, [0%nat]).
Proof.
  apply (reach_search_stops (store orphanBuilder) ∅ 0%nat
           {| ID := 0; Name := runes "expr"; Kind := SymNonterminal; TypeTag := [];
              Precedence := 0; Assoc := AssocNone; DeclaredAt := None |} 5).
  vm_compute. reflexivity.
Defined.

(** ** Directives passed through *)

Lemma SetDirective_trimmed key value at_ b :
  TrimSpace key = key -> key <> [] ->
  Directives (g (SetDirective key value at_ b)) = <[key := value]> (Directives (g b))
  /\ diags (SetDirective key value at_ b)
     = diags b ++ match Directives (g b) !! key with
                  | Some _ =>
                      [{| Level := DiagWarn;
                          Msg := {| format := "directive %q overwritten";
                                    args := [ArgS key] |};
                          At := at_ |}]
                  | None => []
                  end
  /\ store (SetDirective key value at_ b) = store b
  /\ Rules (g (SetDirective key value at_ b)) = Rules (g b).
Proof.
  intros Ht Hne. unfold SetDirective. rewrite Ht, decide_False by done.
  destruct (Directives (g b) !! key); simpl; repeat split; by rewrite ?app_nil_r.
Qed.

Lemma storedKey_trimmed d : TrimSpace (storedKey d) = storedKey d /\ storedKey d <> [].
Proof.
  unfold storedKey. repeat case_decide; try (split; [reflexivity|discriminate]).
  split; [apply TrimSpace_idemp|done].
Qed.

(** X21. The sink passes the directives it does not interpret through to
    the builder without an error: the value is stored, as given, under the
    key [token_type] for a [%token_type] directive and otherwise under the
    trimmed key of the directive, or under [directive] when that is empty;
    the other keys, the symbols and the rules are as before, and the only
    diagnostic is the warning that a key is overwritten, when it was set
    already. *)
Theorem Directive_stores d s :
  storedKind d ->
  Directives (g (B (Directive d s))) !! storedKey d = Some (Value d)
  /\ (forall k, k <> storedKey d ->
        Directives (g (B (Directive d s))) !! k = Directives (g (B s)) !! k)
  /\ diags (B (Directive d s))
     = diags (B s) ++ match Directives (g (B s)) !! storedKey d with
                      | Some _ =>
                          [{| Level := DiagWarn;
                              Msg := {| format := "directive %q overwritten";
                                        args := [ArgS (storedKey d)] |};
                              At := DAt d |}]
                      | None => []
                      end
  /\ store (B (Directive d s)) = store (B s)
  /\ Rules (g (B (Directive d s))) = Rules (g (B s)).
Proof.
  intros (K1 & K2 & K3 & K4 & K5 & K6).
  destruct (storedKey_trimmed d) as [Ht Hne].
  assert (E : B (Directive d s) = SetDirective (storedKey d) (Value d) (DAt d) (B s)).
  { unfold Directive, storedKey, storeDirective.
    rewrite !(decide_False (P := DKind d = _)) by done.
    case_decide; [done|].
    rewrite decide_False by (intros [?|[?|?]]; done). done. }
  rewrite E.
  destruct (SetDirective_trimmed (storedKey d) (Value d) (DAt d) (B s) Ht Hne)
    as (H1 & H2 & H3 & H4).
  rewrite H1. split; [by rewrite lookup_insert_eq|].
  split; [intros k Hk; by rewrite lookup_insert_ne|done].
Qed.

Lemma Directive_stores_witness :
  let d := {| DKind := DirCode; DAt := None; Key := runes "  ";
              Value := runes " x "; DList := [] |} in
  let s := NewBuilderSink (NewBuilder []) in
  Directives (g (B (Directive d s))) !! runes "directive" = Some (runes " x ").
Proof.
  intros d s.
  refine (proj1 (Directive_stores d s _)).
  repeat split; discriminate.
Defined.

(** ** References and actions *)

Lemma NewRef_Sym sym label at_ b : is_Some (Sym (NewRef sym label at_ b).1).
Proof.
  unfold NewRef.
  destruct (match sym with Some p => (p, b) | None => internDummy at_ b end) as [p b'].
  by eexists.
Qed.

Lemma checkRHS_NewRef rhs at_ : forall i b,
  Forall (fun sr => exists sym label at' b0, sr = Some (NewRef sym label at' b0).1) rhs ->
  checkRHS at_ i rhs b = b.
Proof.
  intros i b Hall. revert i.
  induction Hall as [|sr rhs (sym & label & at' & b0 & ->) _ IH]; intros i; [done|].
  cbn [checkRHS]. destruct (NewRef_Sym sym label at' b0) as [p Hp]. rewrite Hp.
  apply IH.
Qed.

(** X22. On a built grammar a reference made by [NewRef] names a symbol of
    the builder and carries the trimmed label and the span: given a symbol
    of the builder it names that symbol and the builder is unchanged; given
    nil it names the placeholder, the symbol found by [Lookup] under
    [<invalid>], and records no diagnostic. So [Alt], on an RHS of
    references made by [NewRef] and without a precedence symbol, records no
    diagnostic and changes no symbol. *)
Theorem NewRef_names_a_symbol sym label at_ b :
  built b -> ptr_ok b sym = true ->
  let r := NewRef sym label at_ b in
  Label r.1 = TrimSpace label /\ RefAt r.1 = at_
  /\ (exists p s, Sym r.1 = Some p /\ store r.2 !! p = Some s
        /\ match sym with
           | Some q => p = q /\ r.2 = b
           | None => Name s = invalidName /\ Lookup invalidName r.2 = Some p
                     /\ diags r.2 = diags b
           end)
  /\ (forall rhs rb act at' b',
        Forall (fun sr => exists sym' label' at'' b0,
                  sr = Some (NewRef sym' label' at'' b0).1) rhs ->
        diags (Alt rb (Some r.1 :: rhs) act None at' b') = diags b'
        /\ store (Alt rb (Some r.1 :: rhs) act None at' b') = store b').
Proof.
  intros Hb Hok r. split; [|split; [|split]].
  - unfold r, NewRef.
    by destruct (match sym with Some p => (p, b) | None => internDummy at_ b end).
  - unfold r, NewRef.
    by destruct (match sym with Some p => (p, b) | None => internDummy at_ b end).
  - destruct sym as [q|].
    + simpl in Hok. apply bool_decide_eq_true in Hok.
      destruct (lookup_lt_is_Some_2 (store b) q Hok) as [s Hs].
      exists q, s. by repeat split.
    + pose proof (internDummy_lookup at_ b) as Hl.
      assert (Ht : table_ok (internDummy at_ b).2)
        by (by apply internDummy_table_ok, built_table_ok).
      destruct (table_named _ Ht _ _ Hl) as (s & Hs & Hn).
      assert (Hd : diags (internDummy at_ b).2 = diags b).
      { unfold internDummy.
        destruct (SymbolsByName (g b) !! invalidName) as [p|] eqn:Hp; [done|].
        by rewrite internNamed_fresh by (by rewrite TrimSpace_invalidName). }
      unfold r, NewRef. destruct (internDummy at_ b) as [p b1]. simpl in *.
      exists p, s. split; [done|]. split; [done|]. split; [done|].
      split; [|done]. unfold Lookup. by rewrite TrimSpace_invalidName.
  - intros rhs rb act at' b' Hall.
    assert (Hc : checkRHS at' 0 (Some r.1 :: rhs) b' = b').
    { apply checkRHS_NewRef. apply Forall_cons. split; [|done].
      by exists sym, label, at_, b. }
    unfold Alt. destruct rb as [rb|]; [|done].
    destruct (done rb); [done|]. destruct (rule rb) as [idx|]; [|done].
    rewrite Hc. done.
Qed.

Lemma NewRef_names_a_symbol_witness :
  let r := NewRef None (runes " A ") None sampleBuilder in
  Label r.1 = runes "A" /\ RefAt r.1 = None
  /\ (exists p s, Sym r.1 = Some p /\ store r.2 !! p = Some s
        /\ Name s = invalidName /\ Lookup invalidName r.2 = Some p
        /\ diags r.2 = diags sampleBuilder)
  /\ diags (Alt (Some {| rule := Some 0%nat; done := false |}) [Some r.1] None None None r.2)
     = diags r.2.
Proof.
  intros r.
  destruct (NewRef_names_a_symbol None (runes " A ") None sampleBuilder
              sampleBuilder_built eq_refl) as (H1 & H2 & H3 & H4).
  split; [exact H1|]. split; [exact H2|]. split; [exact H3|].
  exact (proj1 (H4 [] (Some {| rule := Some 0%nat; done := false |}) None None r.2
                  (Forall_nil_2 _))).
Defined.

(** X23. [NewAction] returns nil exactly for a text that is empty or white
    space; otherwise the action holds the trimmed text and the given span,
    and making an action from the text of an action gives that action
    again. *)
Theorem NewAction_normalises raw at_ :
  (NewAction raw at_ = None <-> TrimSpace raw = [])
  /\ forall a, NewAction raw at_ = Some a ->
       Raw a = TrimSpace raw /\ ActionAt a = at_
       /\ NewAction (Raw a) (ActionAt a) = Some a.
Proof.
  unfold NewAction. split.
  - case_decide; split; done.
  - intros a. case_decide as Hne; [done|]. intros E. injection E as <-. simpl.
    split; [done|]. split; [done|].
    by rewrite TrimSpace_idemp, decide_False by done.
Qed.

(** ** Parser errors *)

(** X24. An error reported by the parser makes the build fail for good:
    after [ParserError] the message is among the diagnostics, as an error
    at the given span, and [HasErrors] holds, whatever operations and
    events follow. *)
Theorem ParserError_sticks at_ msg s b' :
  after (B (ParserError at_ msg s)) b' ->
  HasErrors b' = true
  /\ In {| Level := DiagError; Msg := {| format := "%s"; args := [ArgS msg] |};
           At := at_ |} (diags b').
Proof.
  intros Ha. pose proof (grows_diags _ _ (after_grows _ _ Ha)) as Hd.
  assert (Hin : In {| Level := DiagError; Msg := {| format := "%s"; args := [ArgS msg] |};
                      At := at_ |} (diags (B (ParserError at_ msg s)))).
  { simpl. apply in_or_app. right. by left. }
  split.
  - apply (HasErrors_prefix _ _ Hd). unfold HasErrors. simpl.
    rewrite existsb_app. simpl. by rewrite orb_true_r.
  - destruct Hd as [k ->]. apply in_or_app. by left.
Qed.

Lemma ParserError_sticks_witness :
  let s := NewBuilderSink (NewBuilder []) in
  let b' := run [OpIntern (runes "expr") SymNonterminal None; OpFinalize]
              (B (ParserError None (runes "unexpected token") s)) in
  HasErrors b' = true
  /\ In {| Level := DiagError;
           Msg := {| format := "%s"; args := [ArgS (runes "unexpected token")] |};
           At := None |} (diags b').
Proof.
  intros s b'. apply (ParserError_sticks None (runes "unexpected token") s b').
  by apply after_run.
Defined.
